(** * SlidePuzzle: the board, its solvability test and the A* solver

    A shallow embedding of [src/python/SlidePuzzle.py].  Python integers
    are [Z], tuples and lists of tiles are [list Z], exceptions are an
    explicit error result, the [visited] set is a [gset] and the two
    dictionaries of [solve] are [gmap]s. *)

From Stdlib Require Import ZArith List Lia Bool Sorting.Sorted Sorting.Permutation.
From Equations Require Import Equations.
From stdpp Require Import gmap strings list.
Import ListNotations.

Local Open Scope Z_scope.

(** ** Exceptions and results *)

Inductive exn : Type :=
| AssertionError
| ValueError
| IndexError
| KeyError
| TypeError.

Inductive result (A : Type) : Type :=
| Ok (a : A)
| Raise (e : exn).
Arguments Ok {A} a.
Arguments Raise {A} e.

Definition bind {A B} (r : result A) (k : A -> result B) : result B :=
  match r with
  | Ok a => k a
  | Raise e => Raise e
  end.

Notation "'do' x <- r ; k" := (bind r (fun x => k))
  (at level 10, x pattern, r at level 100, k at level 200).

(** ** Python list helpers *)

(** [range(a, b)] *)
Definition py_range (a b : Z) : list Z :=
  map (fun k => a + Z.of_nat k) (seq 0 (Z.to_nat (b - a))).

(** [t.index(v)]: position of the first occurrence, [ValueError] if absent. *)
Fixpoint py_index (v : Z) (t : list Z) : result Z :=
  match t with
  | [] => Raise ValueError
  | a :: t' => if a =? v then Ok 0 else do i <- py_index v t' ; Ok (i + 1)
  end.

(** Subscript normalisation: a negative subscript counts from the end,
    anything still outside [0, len) is an [IndexError]. *)
Definition py_norm_index (len i : Z) : result nat :=
  let j := if i <? 0 then i + len else i in
  if (0 <=? j) && (j <? len) then Ok (Z.to_nat j) else Raise IndexError.

(** [l[i]] *)
Definition py_getitem (l : list Z) (i : Z) : result Z :=
  do k <- py_norm_index (Z.of_nat (length l)) i ;
  match l !! k with
  | Some v => Ok v
  | None => Raise IndexError
  end.

(** [l[i] = v] *)
Definition py_setitem (l : list Z) (i : Z) (v : Z) : result (list Z) :=
  do k <- py_norm_index (Z.of_nat (length l)) i ;
  Ok (<[k := v]> l).

(** ** Constants *)

Definition EMPTY_TILE : Z := 0.

Definition UP : string := "u".
Definition DOWN : string := "d".
Definition LEFT : string := "l".
Definition RIGHT : string := "r".

(** ** Helper functions: merge-based inversion counting *)

(** The [while] loop of [merge_count]; [S_] and [c] are its two locals
    [S] and [c]. *)
Equations? merge_loop (A B : list Z) (S_ : list Z) (c : Z) : list Z * Z
  by wf (length A + length B)%nat lt :=
  merge_loop [] [] S_ c := (S_, c);
  merge_loop (a :: A') [] S_ c := merge_loop A' [] (S_ ++ [a]) c;
  merge_loop [] (b :: B') S_ c := merge_loop [] B' (S_ ++ [b]) c;
  merge_loop (a :: A') (b :: B') S_ c with (a <=? b) => {
    | true := merge_loop A' (b :: B') (S_ ++ [a]) c;
    | false := merge_loop (a :: A') B' (S_ ++ [b]) (c + Z.of_nat (length (a :: A'))) }.
Proof. all: simpl; lia. Qed.

Definition merge_count (A B : list Z) : list Z * Z := merge_loop A B [] 0.

Definition inspect {A : Type} (a : A) : {b : A | a = b} := exist _ a eq_refl.

(** [half = len(L) // 2]; the guard [len(L) == 0 or half == 0] is the
    case [half = 0], because [len(L) = 0] gives [half = 0] too. *)
Equations? count_sort (L : list Z) : list Z * Z by wf (length L) lt :=
  count_sort L with inspect (length L / 2)%nat => {
    | exist _ O _ := (L, 0);
    | exist _ (Datatypes.S h) Hh :=
        let half := Datatypes.S h in
        let '(L1, c1) := count_sort (take half L) in
        let '(L2, c2) := count_sort (drop half L) in
        let '(L', c) := merge_count L1 L2 in
        (L', c + c1 + c2) }.
Proof.
  all: assert (Hl : (2 * Datatypes.S h <= length L)%nat)
    by (rewrite <- Hh; apply Nat.Div0.mul_div_le).
  - rewrite length_take. lia.
  - rewrite length_drop. lia.
Qed.

(** ** Board *)

Record Board : Type := mkBoard {
  _height_and_width : Z;
  _board : list Z
}.

Definition size (self : Board) : Z := _height_and_width self ^ 2.
Definition width (self : Board) : Z := _height_and_width self.
Definition height (self : Board) : Z := _height_and_width self.

(** Tile numbers are [int]s here, so only the range test remains. *)
Definition _valid_tile_num (self : Board) (tile_num : Z) : result bool :=
  if negb ((-1 <? tile_num) && (tile_num <? size self))
  then Raise AssertionError
  else Ok true.

Definition goal (self : Board) : Board :=
  let sz := size self in
  mkBoard (width self)
          (map (fun i => if negb (i =? sz) then i else EMPTY_TILE) (py_range 1 (sz + 1))).

Definition x (self : Board) (tile_num : Z) : result Z :=
  do _ <- _valid_tile_num self tile_num ;
  do i <- py_index tile_num (_board self) ;
  Ok (i mod width self).

Definition y (self : Board) (tile_num : Z) : result Z :=
  do _ <- _valid_tile_num self tile_num ;
  do tile_idx <- py_index tile_num (_board self) ;
  Ok (if tile_idx =? 0 then 0 else tile_idx / width self).

Definition xy (self : Board) (tile_num : Z) : result (Z * Z) :=
  do _ <- _valid_tile_num self tile_num ;
  do a <- x self tile_num ;
  do b <- y self tile_num ;
  Ok (a, b).

Definition xy_to_idx (self : Board) (x y : Z) : Z := width self * y + x.

Definition solvable (self : Board) : result bool :=
  let board := map (fun v => if negb (v =? EMPTY_TILE) then v else size self + 1)
                   (_board self) in
  let '(_, inv_cnt) := count_sort board in
  do (ex, ey) <- xy self EMPTY_TILE ;
  let dist := Z.abs (ex - (width self - 1)) + Z.abs (ey - (height self - 1)) in
  Ok ((inv_cnt + dist) mod 2 =? 0).

(** ** Distances *)

Definition m_dist (self other_board : Board) (tile_num : Z) (count_free_tile : bool)
  : result Z :=
  do _ <- _valid_tile_num self tile_num ;
  if negb count_free_tile && (tile_num =? EMPTY_TILE) then Ok 0
  else
    do sx <- x self tile_num ;
    do ox <- x other_board tile_num ;
    do sy <- y self tile_num ;
    do oy <- y other_board tile_num ;
    Ok (Z.abs (sx - ox) + Z.abs (sy - oy)).

(** [sum(gen)] over a generator whose elements may raise. *)
Fixpoint py_sum (l : list (result Z)) : result Z :=
  match l with
  | [] => Ok 0
  | r :: l' => do v <- r ; do s <- py_sum l' ; Ok (v + s)
  end.

Definition sum_m_dists (self other_board : Board) : result Z :=
  if negb (size self =? size other_board) then Raise AssertionError
  else py_sum (map (fun i => m_dist self other_board i false)
                   (py_range 0 (size self))).

(** ** Moves *)

(** [move_tile] may update the receiver: the result is the receiver after
    the call together with the returned value ([None] or a board). *)
(** The [if]/[elif] chain of [move_tile]: where the empty slot would go. *)
Definition shift_xy (direction : string) (x y : Z) : Z * Z :=
  if String.eqb direction LEFT then (x - 1, y)
  else if String.eqb direction RIGHT then (x + 1, y)
  else if String.eqb direction UP then (x, y - 1)
  else if String.eqb direction DOWN then (x, y + 1)
  else (x, y).

Definition move_tile (self : Board) (direction : string) (new : bool)
  : result (Board * option Board) :=
  do (old_x, old_y) <- xy self EMPTY_TILE ;
  let '(x, y) := shift_xy direction old_x old_y in
  if negb ((-1 <? x) && (x <? width self) && ((-1 <? y) && (y <? height self)))
  then Ok (self, None)
  else
    let idx := xy_to_idx self x y in
    let old_idx := xy_to_idx self old_x old_y in
    let new_board := _board self in
    do a <- py_getitem new_board old_idx ;
    do b <- py_getitem new_board idx ;
    do new_board <- py_setitem new_board idx a ;
    do new_board <- py_setitem new_board old_idx b ;
    if new then Ok (self, Some (mkBoard (width self) new_board))
    else
      let self' := mkBoard (_height_and_width self) new_board in
      Ok (self', Some self').

(** [Board.__eq__] and [Board.__lt__] against another board compare the
    cell tuples only. *)
Definition Board_eq (self other : Board) : bool :=
  bool_decide (_board self = _board other).

Fixpoint tuple_lt (a b : list Z) : bool :=
  match a, b with
  | [], [] => false
  | [], _ :: _ => true
  | _ :: _, [] => false
  | u :: a', v :: b' => if u =? v then tuple_lt a' b' else u <? v
  end.

Definition Board_lt (self other : Board) : bool :=
  tuple_lt (_board self) (_board other).

Definition solved (self : Board) : bool := Board_eq self (goal self).

(** The dictionary of [successors] keeps insertion order, and [solve]
    iterates over it in that order. *)
Fixpoint successors_from (self : Board) (dirs : list string)
  : result (list (string * Board)) :=
  match dirs with
  | [] => Ok []
  | direction :: dirs' =>
      do (_, new) <- move_tile self direction true ;
      do out <- successors_from self dirs' ;
      match new with
      | Some b => Ok ((direction, b) :: out)
      | None => Ok out
      end
  end.

Definition successors (self : Board) : result (list (string * Board)) :=
  successors_from self [UP; DOWN; LEFT; RIGHT].

(** ** Search items and their order *)

Record Item : Type := mkItem {
  f : Z;
  h : Z;
  g : Z;
  board : Board;
  direction : option string;
  parent_index : Z
}.

Record Move : Type := mkMove {
  move_direction : option string;
  move_board : Board
}.

(** Equality of two [Item] tuples, field by field. *)
Definition Item_eq (a b : Item) : bool :=
  (f a =? f b) && (h a =? h b) && (g a =? g b) && Board_eq (board a) (board b)
  && bool_decide (direction a = direction b) && (parent_index a =? parent_index b).

(** [<] on a direction field: [None] against a string is a [TypeError]. *)
Definition direction_lt (a b : option string) : result bool :=
  match a, b with
  | Some s, Some t => Ok (String.ltb s t)
  | _, _ => Raise TypeError
  end.

(** [<] on two [Item] tuples: the first field that differs decides. *)
Definition Item_lt (a b : Item) : result bool :=
  if negb (f a =? f b) then Ok (f a <? f b)
  else if negb (h a =? h b) then Ok (h a <? h b)
  else if negb (g a =? g b) then Ok (g a <? g b)
  else if negb (Board_eq (board a) (board b)) then Ok (Board_lt (board a) (board b))
  else if negb (bool_decide (direction a = direction b))
       then direction_lt (direction a) (direction b)
  else Ok (parent_index a <? parent_index b).

(** What a dictionary keyed by items hashes and compares. *)
Definition ItemKey : Type := Z * Z * Z * list Z * option string * Z.

Definition item_key (it : Item) : ItemKey :=
  (f it, h it, g it, _board (board it), direction it, parent_index it).

(** ** The priority queue

    [heapq] is used through its contract: [heappush] adds an item,
    [heappop] removes and returns a smallest item under [<]. *)

Definition heappush (open : list Item) (it : Item) : list Item := open ++ [it].

(** Position of a smallest item of [rest] (numbered from [i]) or [best] at [bi]. *)
Fixpoint heap_min (best : Item) (bi : nat) (i : nat) (rest : list Item) : result nat :=
  match rest with
  | [] => Ok bi
  | it :: rest' =>
      do lt <- Item_lt it best ;
      if lt then heap_min it i (Datatypes.S i) rest'
      else heap_min best bi (Datatypes.S i) rest'
  end.

Definition heappop (open : list Item) : result (Item * list Item) :=
  match open with
  | [] => Raise IndexError
  | it :: rest =>
      do k <- heap_min it 0%nat 1%nat rest ;
      match open !! k with
      | Some m => Ok (m, delete k open)
      | None => Raise IndexError
      end
  end.

(** ** solve *)

Record solve_state : Type := mkState {
  open : list Item;
  item_by_idx : gmap Z Item;
  idx_by_item : gmap ItemKey Z;
  visited : gset (list Z);
  item_index : Z;                 (* next value of the index generator *)
  max_queue_length : option Z     (* only kept when asked for *)
}.

Inductive solve_result : Type :=
| RetPath (path : list Move)
| RetPathMax (path : list Move) (max_queue_length : Z)
| RetNone.

(** The local function [item] of [solve]. *)
Definition item (goal : Board) (g : Z) (direction : option string) (board : Board)
  (parent_index : Z) : result Item :=
  do h <- sum_m_dists board goal ;
  Ok (mkItem (g + h) h g board direction parent_index).

(** The traceback loop: the result is [path] as the loop leaves it, the
    popped item first and the start item last. *)
Fixpoint traceback (fuel : nat) (item_by_idx : gmap Z Item) (start_item : Item)
  (last : Item) : option (result (list Item)) :=
  if Item_eq last start_item then Some (Ok [last])
  else
    match fuel with
    | O => None
    | Datatypes.S fuel' =>
        match item_by_idx !! parent_index last with
        | None => Some (Raise KeyError)
        | Some p =>
            match traceback fuel' item_by_idx start_item p with
            | Some (Ok path) => Some (Ok (last :: path))
            | r => r
            end
        end
    end.

(** The body of the [for] loop over the successors. *)
Fixpoint add_successors (goal : Board) (g curr_idx : Z)
  (succs : list (string * Board)) (st : solve_state) : result solve_state :=
  match succs with
  | [] => Ok st
  | (direction, successor) :: succs' =>
      if bool_decide (_board successor ∈ visited st)
      then add_successors goal g curr_idx succs' st
      else
        let visited' := visited st ∪ {[ _board successor ]} in
        let successor_idx := item_index st in
        do successor_item <- item goal g (Some direction) successor curr_idx ;
        add_successors goal g curr_idx succs'
          (mkState (heappush (open st) successor_item)
                   (<[successor_idx := successor_item]> (item_by_idx st))
                   (<[item_key successor_item := successor_idx]> (idx_by_item st))
                   visited'
                   (item_index st + 1)
                   (max_queue_length st))
  end.

(** One iteration of the [while] loop either returns from [solve] or
    leaves a new state. *)
Inductive loop_outcome : Type :=
| Continue (st : solve_state)
| Return (r : solve_result).

(** The body of the [while] loop, entered with a non-empty [open];
    [None] when the traceback runs out of fuel. *)
Definition solve_iter (fuel : nat) (goal : Board) (start_item : Item)
  (st : solve_state) : option (result loop_outcome) :=
  match heappop (open st) with
  | Raise e => Some (Raise e)
  | Ok (curr_item, open') =>
    let curr_board := board curr_item in
    let g := g curr_item + 1 in
    match idx_by_item st !! item_key curr_item with
    | None => Some (Raise KeyError)
    | Some curr_idx =>
      if Board_eq curr_board goal then
        match traceback fuel (item_by_idx st) start_item curr_item with
        | None => None
        | Some (Raise e) => Some (Raise e)
        | Some (Ok path) =>
            let path := rev (map (fun it => mkMove (direction it) (board it)) path) in
            match max_queue_length st with
            | Some m => Some (Ok (Return (RetPathMax path m)))
            | None => Some (Ok (Return (RetPath path)))
            end
        end
      else
        match successors curr_board with
        | Raise e => Some (Raise e)
        | Ok succs =>
          let st1 := mkState open' (item_by_idx st) (idx_by_item st) (visited st)
                             (item_index st) (max_queue_length st) in
          match add_successors goal g curr_idx succs st1 with
          | Raise e => Some (Raise e)
          | Ok st2 =>
            let m := match max_queue_length st2 with
                     | Some m => Some (Z.max m (Z.of_nat (length (open st2))))
                     | None => None
                     end in
            Some (Ok (Continue
              (mkState (open st2) (item_by_idx st2) (idx_by_item st2) (visited st2)
                       (item_index st2) m)))
          end
        end
    end
  end.

(** The [while len(open) > 0] loop; [None] when the fuel runs out.  Falling
    out of the loop returns [None] in Python, here [RetNone]. *)
Fixpoint solve_loop (fuel : nat) (goal : Board) (start_item : Item)
  (st : solve_state) : option (result solve_result) :=
  match open st with
  | [] => Some (Ok RetNone)
  | _ :: _ =>
    match fuel with
    | O => None
    | Datatypes.S fuel' =>
      match solve_iter fuel' goal start_item st with
      | None => None
      | Some (Raise e) => Some (Raise e)
      | Some (Ok (Return r)) => Some (Ok r)
      | Some (Ok (Continue st')) => solve_loop fuel' goal start_item st'
      end
    end
  end.

(** State just before the [while] loop. *)
Definition solve_init (self : Board) (give_max_queue_length : bool)
  : result (Item * solve_state) :=
  let curr_idx := 0 in
  do start_item <- item (goal self) 0 None self (-1) ;
  let open := heappush [] start_item in
  Ok (start_item,
      mkState open
              (<[curr_idx := start_item]> ∅)
              (<[item_key start_item := curr_idx]> ∅)
              ∅
              1
              (if give_max_queue_length then Some (Z.of_nat (length open)) else None)).

Definition solve (fuel : nat) (self : Board) (ignore_warning give_max_queue_length : bool)
  : option (result solve_result) :=
  match solvable self with
  | Raise e => Some (Raise e)
  | Ok false => Some (Raise AssertionError)
  | Ok true =>
    if negb ignore_warning && ((width self >? 3) || (height self >? 3))
    then Some (Raise AssertionError)
    else
      match solve_init self give_max_queue_length with
      | Raise e => Some (Raise e)
      | Ok (start_item, st) => solve_loop fuel (goal self) start_item st
      end
  end.

(** ** Random boards

    [random.shuffle] is used through its contract: it rearranges the list
    it is given.  The rearrangements of the successive calls are read from
    a list of functions; [None] when the list runs out before the loop of
    [randomize] ends. *)

(** [randomize] on an object of width [N] whose [_board] is [cells]
    ([None] for Python's [None]). *)
Fixpoint randomize (N : Z) (cells : option (list Z))
  (shuffles : list (list Z -> list Z)) : option (result Board) :=
  let goal := _board (goal (mkBoard N [])) in
  let shuffled :=
    match shuffles with
    | [] => None
    | shuffle :: shuffles' => randomize N (Some (shuffle goal)) shuffles'
    end in
  match cells with
  | None => shuffled
  | Some l =>
      match solvable (mkBoard N l) with
      | Raise e => Some (Raise e)
      | Ok true => Some (Ok (mkBoard N l))
      | Ok false => shuffled
      end
  end.

(** [Board(board, height_and_width)]. *)
Definition Board_init (board : option (list Z)) (height_and_width : Z)
  (shuffles : list (list Z -> list Z)) : option (result Board) :=
  match board with
  | None => randomize height_and_width None shuffles
  | Some l => Some (Ok (mkBoard height_and_width l))
  end.

(** ** The game of [main]: moves read and carried out

    The parts of [main] that work on the board: the loop over the
    characters of the input line, the loop that carries the moves out, and
    the move summary of the "solve" command. *)

Definition valid_moves : list string := [UP; DOWN; LEFT; RIGHT].

(** [ch in valid_moves] for a character [ch] of the input. *)
Definition is_move (ch : Ascii.ascii) : bool :=
  existsb (String.eqb (String ch EmptyString)) valid_moves.

(** [ch in (" ", "\t", "\r", "\n")]: the characters 32, 9, 13 and 10. *)
Definition is_blank (ch : Ascii.ascii) : bool :=
  existsb (Ascii.eqb ch)
    [Ascii.ascii_of_nat 32; Ascii.ascii_of_nat 9; Ascii.ascii_of_nat 13;
     Ascii.ascii_of_nat 10].

(** The loop over the characters of the input [x]; [None] when the loop
    breaks with [invalid] set and the moves are aborted. *)
Fixpoint read_moves (x : string) (moves : list string) : option (list string) :=
  match x with
  | EmptyString => Some moves
  | String ch x' =>
      if is_move ch then read_moves x' (moves ++ [String ch EmptyString])
      else if is_blank ch then read_moves x' moves
      else None
  end.

(** The loop that carries the moves out: a move that [move_tile] refuses
    leaves the board as it is. *)
Fixpoint carry_out (curr_board : Board) (moves : list string) : result Board :=
  match moves with
  | [] => Ok curr_board
  | move :: moves' =>
      do (_, new_board) <- move_tile curr_board move true ;
      match new_board with
      | Some b => carry_out b moves'
      | None => carry_out curr_board moves'
      end
  end.

(** An f-string of a direction field. *)
Definition direction_text (d : option string) : string :=
  match d with
  | Some s_ => s_
  | None => "None"
  end.

(** The move summary built from a solution, from position [i] on; [num]
    is the number of steps asked for, if one was given. *)
Fixpoint direction_str (num : option Z) (i : Z) (solution : list Move) : string :=
  match solution with
  | [] => EmptyString
  | move :: solution' =>
      if match num with Some n => i >? n | None => false end then EmptyString
      else if i =? 0 then direction_str num (i + 1) solution'
      else (direction_text (move_direction move)
            ++ direction_str num (i + 1) solution')%string
  end.

(** * Notions of the specification *)

(** The pair of positions [(i, j)] is an inversion of [L]: [i < j] and
    [L[i] > L[j]]. *)
Definition out_of_order (L : list Z) (p : nat * nat) : bool :=
  (fst p <? snd p)%nat && (nth (snd p) L 0 <? nth (fst p) L 0).

(** The inversions of [L], among all pairs of positions. *)
Definition inversion_pairs (L : list Z) : list (nat * nat) :=
  List.filter (out_of_order L) (list_prod (seq 0 (length L)) (seq 0 (length L))).

(** Number of inversions of [L]. *)
Definition inversions (L : list Z) : Z := Z.of_nat (length (inversion_pairs L)).

(** The data-model invariant: an N x N board with N >= 1 whose cells are a
    permutation of 0 .. N*N-1. *)
Definition wf_board (b : Board) : Prop :=
  1 <= width b /\ Permutation (_board b) (py_range 0 (size b)).

(** One legal slide: [move_tile] hands back a board, in either mode. *)
Definition slide (b : Board) (d : string) (b' : Board) : Prop :=
  exists new self', move_tile b d new = Ok (self', Some b').

(** A sequence of legal slides. *)
Inductive slides : Board -> list string -> Board -> Prop :=
| slides_nil b : slides b [] b
| slides_cons b d b1 ds b2 : slide b d b1 -> slides b1 ds b2 -> slides b (d :: ds) b2.

(** The moves of [moves] are legal slides, one after the other, starting
    from board [b]: each element holds a direction and the board that
    sliding in that direction gives from the board before. *)
Fixpoint legal_path (b : Board) (moves : list Move) : Prop :=
  match moves with
  | [] => True
  | m :: rest =>
      (exists d, move_direction m = Some d /\ slide b d (move_board m))
      /\ legal_path (move_board m) rest
  end.

(** * Notions used by the proofs *)

(** The inversions counted from the left: for every entry, the later
    entries that are smaller. *)
Fixpoint inversions_rec (L : list Z) : Z :=
  match L with
  | [] => 0
  | a :: L' => Z.of_nat (length (List.filter (fun b => b <? a) L')) + inversions_rec L'
  end.

(** Entries of [l] below [a]. *)
Definition lt_count (a : Z) (l : list Z) : Z :=
  Z.of_nat (length (List.filter (fun b => b <? a) l)).

(** Entries of [A] above [b]. *)
Definition gt_count (b : Z) (A : list Z) : Z :=
  Z.of_nat (length (List.filter (fun a => b <? a) A)).

(** Pairs [(a, b)] with [a] in [A], [b] in [B] and [b < a]. *)
Fixpoint cross (A B : list Z) : Z :=
  match A with
  | [] => 0
  | a :: A' => lt_count a B + cross A' B
  end.

(** The cell sequence in which the empty slot counts as [M]. *)
Definition empty_as (M : Z) (cells : list Z) : list Z :=
  map (fun v => if v =? EMPTY_TILE then M else v) cells.

(** The grid distance from the cell at position [n] to the bottom-right
    corner of an N x N board. *)
Definition corner_dist (N : Z) (n : nat) : Z :=
  Z.abs (Z.of_nat n mod N - (N - 1)) + Z.abs (Z.of_nat n / N - (N - 1)).

(** The cells after the empty slot (at [n]) and the tile at [m] have
    changed places, as the two assignments of [move_tile] leave them. *)
Definition exchanged (cells : list Z) (n m : nat) (v : Z) : list Z :=
  <[n := v]> (<[m := EMPTY_TILE]> cells).

(** Column [x] and row [y] lie on an N x N grid. *)
Definition in_grid (N x y : Z) : Prop := 0 <= x < N /\ 0 <= y < N.

(** The board at the end of a list of moves that starts from [b]. *)
Fixpoint end_board (b : Board) (moves : list Move) : Board :=
  match moves with
  | [] => b
  | m :: rest => end_board (move_board m) rest
  end.

(** Item [it] was generated from item [p] by a legal slide. *)
Definition step_from (p it : Item) : Prop :=
  exists d, direction it = Some d /\ slide (board p) d (board it).

(** Each item of the list was generated from the next one. *)
Fixpoint chain (l : list Item) : Prop :=
  match l with
  | it :: ((p :: _) as rest) => step_from p it /\ chain rest
  | _ => True
  end.

(** Sum of a list of integers. *)
Definition zsum (l : list Z) : Z := fold_right Z.add 0 l.

(** The position of tile [t] in the cells of [b] (0 when it is missing). *)
Definition pos_of (b : Board) (t : Z) : Z :=
  match py_index t (_board b) with
  | Ok i => i
  | Raise _ => 0
  end.

(** The grid distance between the places of tile [t] on [b] and on [c],
    the empty tile counting for nothing. *)
Definition manhattan (b c : Board) (t : Z) : Z :=
  if t =? EMPTY_TILE then 0
  else Z.abs (pos_of b t mod width b - pos_of c t mod width c)
       + Z.abs (pos_of b t / width b - pos_of c t / width c).

(** The state of [solve] without the record of the queue length. *)
Definition forget_max (st : solve_state) : solve_state :=
  mkState (open st) (item_by_idx st) (idx_by_item st) (visited st) (item_index st) None.

(** What [solve] returns without the queue length. *)
Definition path_only (r : solve_result) : solve_result :=
  match r with
  | RetPathMax path _ => RetPath path
  | _ => r
  end.

(** The direction of an item is one of the four, if it has one. *)
Definition dir_ok (d : option string) : Prop :=
  match d with
  | Some d' => In d' valid_moves
  | None => True
  end.

(** The items the search holds have directions of the four only. *)
Definition dirs_ok (st : solve_state) : Prop :=
  Forall (fun it => dir_ok (direction it)) (open st)
  /\ map_Forall (fun _ it => dir_ok (direction it)) (item_by_idx st).

(** The moves a call of [solve] shows when [num] steps are asked for. *)
Definition shown (num : option Z) (moves : list Move) : list Move :=
  match num with
  | Some n => firstn (Z.to_nat n) moves
  | None => moves
  end.

(** The directions of a list of moves, written one after the other. *)
Definition dir_concat (moves : list Move) : string :=
  fold_right (fun mv acc => (direction_text (move_direction mv) ++ acc)%string)
             EmptyString moves.

(** The direction that undoes [d]: up and down, left and right. *)
Definition opposite (d : string) : string :=
  if String.eqb d UP then DOWN
  else if String.eqb d DOWN then UP
  else if String.eqb d LEFT then RIGHT
  else if String.eqb d RIGHT then LEFT
  else d.

(** The cell sequence of an item's board. *)
Definition cells_of (it : Item) : list Z := _board (board it).

(** Running a list of moves with [move_tile] in copy mode. *)
Fixpoint apply_moves (b : Board) (ds : list string) : result (option Board) :=
  match ds with
  | [] => Ok (Some b)
  | d :: ds' =>
      do (_, r) <- move_tile b d true ;
      match r with
      | Some b' => apply_moves b' ds'
      | None => Ok None
      end
  end.

(** [n] iterations of the loop body, as long as none returns. *)
Fixpoint solve_iters (n : nat) (fuel : nat) (goal : Board) (start_item : Item)
  (st : solve_state) : option (result loop_outcome) :=
  match n with
  | O => Some (Ok (Continue st))
  | Datatypes.S n' =>
      match solve_iter fuel goal start_item st with
      | Some (Ok (Continue st')) => solve_iters n' fuel goal start_item st'
      | r => r
      end
  end.

(** The state after [n] full iterations of the loop of [solve], when the
    loop gets that far. *)
Definition state_after (n : nat) (self : Board) : option solve_state :=
  match solve_init self false with
  | Ok (start_item, st0) =>
      match solve_iters n 0 (goal self) start_item st0 with
      | Some (Ok (Continue st)) => Some st
      | _ => None
      end
  | Raise _ => None
  end.

(** Two moves away from the goal. *)
Definition board_0 : Board := mkBoard 3 [1;2;3;4;5;6;0;7;8].

(** Ten moves away from the goal. *)
Definition board_1 : Board := mkBoard 3 [1;3;5;4;0;8;7;6;2].

(** The list a call of [solve] returned, if it returned one. *)
Definition returned_path (r : option (result solve_result)) : option (list Move) :=
  match r with
  | Some (Ok (RetPath path)) => Some path
  | Some (Ok (RetPathMax path _)) => Some path
  | _ => None
  end.

(** * Invariants of the search loop

    [self] is the start board and [h0] its heuristic value. *)

(** Number of elements of a finite set ([size] is the board's here). *)
Local Abbreviation card := stdpp.base.size.

Section SearchInvariants.

Variable self : Board.
Variable h0 : Z.

Local Abbreviation N := (width self).
Local Abbreviation G := (goal self).
Local Abbreviation s := (mkItem (0 + h0) h0 0 self None (-1)).

(** What every state of the loop satisfies. *)
Definition st_ok (st : solve_state) : Prop :=
  (forall i, is_Some (item_by_idx st !! i) <-> 0 <= i < item_index st)
  /\ (forall i it, item_by_idx st !! i = Some it ->
        width (board it) = N /\ ((i = 0 /\ it = s) \/ 0 <= parent_index it < i))
  /\ (forall k i, idx_by_item st !! k = Some i -> 0 <= i < item_index st)
  /\ (forall c, c ∈ visited st -> c ≡ₚ py_range 0 (N * N))
  /\ item_index st = 1 + Z.of_nat (card (visited st))
  /\ (forall it, it ∈ open st ->
        wf_board (board it) /\ width (board it) = N
        /\ is_Some (idx_by_item st !! item_key it))
  /\ NoDup (cells_of <$> open st).

(** The parent links: every item but the start item has its parent in
    the table and was generated from it by a legal slide; the indices kept
    for the items lead to items with the same key. *)
Definition links_ok (st : solve_state) : Prop :=
  (forall i it, item_by_idx st !! i = Some it ->
     (i = 0 /\ it = s)
     \/ exists p, item_by_idx st !! parent_index it = Some p /\ step_from p it)
  /\ (forall k i, idx_by_item st !! k = Some i ->
        exists it, item_by_idx st !! i = Some it /\ item_key it = k)
  /\ (forall it, it ∈ open st ->
        it = s
        \/ exists p, item_by_idx st !! parent_index it = Some p /\ step_from p it).

(** What the queue satisfies once the start item has left it. *)
Definition open_visited (st : solve_state) : Prop :=
  forall it, it ∈ open st ->
    cells_of it ∈ visited st /\ 0 <= parent_index it < item_index st.

(** The queue holds the start item alone, or the start item has left it. *)
Definition start_or_visited (st : solve_state) : Prop :=
  open_visited st \/ open st = [s].

(** The boards that can occur: the permutations of 0 .. N*N-1. *)
Definition universe : gset (list Z) :=
  list_to_set (permutations (py_range 0 (N * N))).

(** Twice the boards not yet visited plus the length of the queue: it
    goes down with every iteration. *)
Definition measure (st : solve_state) : nat :=
  (2 * (card universe - card (visited st)) + length (open st))%nat.

(** The boards in [C] have been expanded: none is the goal and their
    successors are visited; the start and every visited board is in [C] or
    waits in the queue. *)
Definition closed_ok (st : solve_state) (C : gset (list Z)) : Prop :=
  (_board self ∈ C \/ _board self ∈ cells_of <$> open st)
  /\ (forall c, c ∈ visited st -> c ∈ C \/ c ∈ cells_of <$> open st)
  /\ (forall c, c ∈ C ->
        c <> _board G
        /\ forall d b', slide (mkBoard N c) d b' ->
                        _board b' ∈ visited st \/ _board b' = c).

(** What [solve] hands back when it succeeds: a list that starts with the
    start board under direction [None], goes on with legal slides and ends
    with the goal board. *)
Definition good_result (r : solve_result) : Prop :=
  exists rest d,
    (r = RetPath (mkMove None self :: rest)
     \/ exists m, r = RetPathMax (mkMove None self :: rest) m)
    /\ legal_path self rest
    /\ last (mkMove None self :: rest) = Some (mkMove d G).

End SearchInvariants.

(** * Small tactics *)

Ltac case_if :=
  match goal with
  | |- context [if ?c then _ else _] => destruct c eqn:?
  end.

Ltac bool_lia :=
  repeat match goal with
  | H : (_ && _) = true |- _ => apply andb_true_iff in H; destruct H
  | H : (_ && _) = false |- _ => apply andb_false_iff in H
  | H : (_ || _) = true |- _ => apply orb_true_iff in H
  | H : (_ || _) = false |- _ => apply orb_false_iff in H; destruct H
  | H : negb _ = true |- _ => apply negb_true_iff in H
  | H : negb _ = false |- _ => apply negb_false_iff in H
  | H : (_ <? _) = true |- _ => apply Z.ltb_lt in H
  | H : (_ <? _) = false |- _ => apply Z.ltb_ge in H
  | H : (_ <=? _) = true |- _ => apply Z.leb_le in H
  | H : (_ <=? _) = false |- _ => apply Z.leb_gt in H
  | H : (_ >? _) = true |- _ => rewrite Z.gtb_ltb in H
  | H : (_ >? _) = false |- _ => rewrite Z.gtb_ltb in H
  | H : (_ =? _) = true |- _ => apply Z.eqb_eq in H
  | H : (_ =? _) = false |- _ => apply Z.eqb_neq in H
  end.

(** * Properties *)

(** ** The checks of [test] *)

Example solvable_ex1 : solvable (mkBoard 3 [2;5;8;4;3;6;7;1;0]) = Ok true.
Proof. reflexivity. Qed.
Example solvable_ex2 : solvable (mkBoard 3 [2;1;3;4;5;6;7;8;0]) = Ok false.
Proof. reflexivity. Qed.

Example goal_ex1 : _board (goal (mkBoard 3 [2;5;8;4;3;6;7;1;0])) = [1;2;3;4;5;6;7;8;0].
Proof. reflexivity. Qed.
Example sum_m_dists_ex1 :
  sum_m_dists (mkBoard 3 [2;5;8;4;3;6;7;1;0]) (goal (mkBoard 3 [2;5;8;4;3;6;7;1;0])) = Ok 10.
Proof. reflexivity. Qed.
Example m_dist_ex1 :
  map (fun t => m_dist (mkBoard 3 [2;5;8;4;3;6;7;1;0]) (goal (mkBoard 3 [2;5;8;4;3;6;7;1;0])) t false)
      [1;2;3;4;5;6;7]
  = map Ok [3;1;2;0;1;0;0].
Proof. reflexivity. Qed.
Example successors_ex1 :
  successors (mkBoard 3 [1;2;3;4;5;6;0;7;8])
  = Ok [(UP, mkBoard 3 [1;2;3;0;5;6;4;7;8]); (RIGHT, mkBoard 3 [1;2;3;4;5;6;7;0;8])].
Proof. reflexivity. Qed.

Example count_sort_ex : count_sort [2;5;8;4;3;6;7;1;10] = ([1;2;3;4;5;6;7;8;10], 14).
Proof. reflexivity. Qed.

(** ** C4: the guards of [solve] *)

(** C4. [solve] raises the assertion error before any iteration of the
    search loop (whatever the fuel, even none) when [solvable] is false,
    and when the board is wider or higher than 3 without [ignore_warning];
    with [ignore_warning] it runs exactly the search that a board inside
    the guard runs: the loop from the initial state, and on a board inside
    the guard the flag changes nothing. *)
Theorem C4_solve_guards (fuel : nat) (self : Board) (give_max : bool) :
  (solvable self = Ok false ->
   forall ignore_warning,
     solve fuel self ignore_warning give_max = Some (Raise AssertionError))
  /\ (solvable self = Ok true -> width self > 3 \/ height self > 3 ->
      solve fuel self false give_max = Some (Raise AssertionError))
  /\ (solvable self = Ok true ->
      forall start_item st, solve_init self give_max = Ok (start_item, st) ->
      solve fuel self true give_max = solve_loop fuel (goal self) start_item st)
  /\ (solvable self = Ok true -> width self <= 3 -> height self <= 3 ->
      solve fuel self false give_max = solve fuel self true give_max).
Proof.
  unfold solve. repeat split.
  - intros -> ?. reflexivity.
  - intros -> Hbig. simpl.
    assert ((width self >? 3) || (height self >? 3) = true) as ->; [|reflexivity].
    apply orb_true_iff. rewrite !Z.gtb_ltb, !Z.ltb_lt. lia.
  - intros -> start_item st ->. reflexivity.
  - intros -> Hw Hh. simpl.
    assert ((width self >? 3) || (height self >? 3) = false) as ->; [|reflexivity].
    apply orb_false_iff. rewrite !Z.gtb_ltb, !Z.ltb_ge. lia.
Qed.

Lemma C4_solve_guards_witness :
  solve 0 (mkBoard 3 [2;1;3;4;5;6;7;8;0]) true false = Some (Raise AssertionError)
  /\ solve 0 (mkBoard 4 [1;2;3;4;5;6;7;8;9;10;11;12;13;14;15;0]) false false
     = Some (Raise AssertionError)
  /\ solve 5 (mkBoard 2 [1;2;0;3]) false true = solve 5 (mkBoard 2 [1;2;0;3]) true true.
Proof.
  split; [|split].
  - apply (proj1 (C4_solve_guards 0 (mkBoard 3 [2;1;3;4;5;6;7;8;0]) false)).
    reflexivity.
  - apply (proj1 (proj2 (C4_solve_guards 0
      (mkBoard 4 [1;2;3;4;5;6;7;8;9;10;11;12;13;14;15;0]) false)));
      [reflexivity | left; reflexivity].
  - apply (proj2 (proj2 (proj2 (C4_solve_guards 5 (mkBoard 2 [1;2;0;3]) true))));
      [reflexivity| |]; unfold width, height; simpl; lia.
Defined.

(** ** C10: a slide off the grid *)

(** C10. When the move would take the empty slot off the grid,
    [move_tile] returns [None] and the receiver is the board it was, in
    place ([new=False]) as well as in copy mode. *)
Theorem C10_move_tile_off_grid (self : Board) (d : string) (new : bool) (ox oy : Z) :
  xy self EMPTY_TILE = Ok (ox, oy) ->
  ~ (0 <= fst (shift_xy d ox oy) < width self
     /\ 0 <= snd (shift_xy d ox oy) < height self) ->
  move_tile self d new = Ok (self, None).
Proof.
  intros Hxy Hout. unfold move_tile. rewrite Hxy. simpl.
  destruct (shift_xy d ox oy) as [nx ny] eqn:Hs. simpl in Hout.
  case_if; [reflexivity|].
  exfalso. apply Hout. bool_lia. lia.
Qed.

Lemma C10_move_tile_off_grid_witness :
  move_tile (mkBoard 3 [1;2;3;4;5;6;7;8;0]) DOWN false
  = Ok (mkBoard 3 [1;2;3;4;5;6;7;8;0], None).
Proof.
  apply (C10_move_tile_off_grid (mkBoard 3 [1;2;3;4;5;6;7;8;0]) DOWN false 2 2).
  - reflexivity.
  - vm_compute. intros [_ [_ H]]. discriminate H.
Defined.

(** ** C7: [m_dist] *)

(** C7, as stated, fails: [m_dist] makes no size check.  Between the 3 x 3
    goal and a 2 x 2 board it returns a distance for tile 3. *)
Lemma C7_m_dist_no_size_check :
  size (mkBoard 3 [1;2;3;4;5;6;7;8;0]) <> size (mkBoard 2 [1;2;3;0])
  /\ m_dist (mkBoard 3 [1;2;3;4;5;6;7;8;0]) (mkBoard 2 [1;2;3;0]) 3 false = Ok 3.
Proof. split; [discriminate | reflexivity]. Qed.

Lemma x_valid (b : Board) (t v : Z) : x b t = Ok v -> _valid_tile_num b t = Ok true.
Proof.
  unfold x, _valid_tile_num. case_if; [discriminate | reflexivity].
Qed.

(** C7 (amended). Whenever the tile has a position on both boards,
    [m_dist] returns [|x - x'| + |y - y'|], except that the empty tile
    gives 0 unless [count_free_tile] is set; the size check belongs to
    [sum_m_dists], which raises on boards of different sizes. *)
Theorem C7_m_dist (self other : Board) (t : Z) (count_free_tile : bool)
  (sx sy ox oy : Z) :
  x self t = Ok sx -> y self t = Ok sy ->
  x other t = Ok ox -> y other t = Ok oy ->
  m_dist self other t count_free_tile
  = Ok (if negb count_free_tile && (t =? EMPTY_TILE) then 0
        else Z.abs (sx - ox) + Z.abs (sy - oy))
  /\ (size self <> size other -> sum_m_dists self other = Raise AssertionError).
Proof.
  intros Hsx Hsy Hox Hoy. split.
  - unfold m_dist. rewrite (x_valid _ _ _ Hsx). simpl.
    case_if; [reflexivity|].
    rewrite Hsx, Hox, Hsy, Hoy. reflexivity.
  - intros Hne. unfold sum_m_dists.
    apply Z.eqb_neq in Hne. rewrite Hne. reflexivity.
Qed.

Lemma C7_m_dist_witness :
  m_dist (mkBoard 3 [2;5;8;4;3;6;7;1;0]) (mkBoard 3 [1;2;3;4;5;6;7;8;0]) 1 false = Ok 3
  /\ (size (mkBoard 3 [2;5;8;4;3;6;7;1;0]) <> size (mkBoard 3 [1;2;3;4;5;6;7;8;0]) ->
      sum_m_dists (mkBoard 3 [2;5;8;4;3;6;7;1;0]) (mkBoard 3 [1;2;3;4;5;6;7;8;0])
      = Raise AssertionError).
Proof.
  apply (C7_m_dist (mkBoard 3 [2;5;8;4;3;6;7;1;0]) (mkBoard 3 [1;2;3;4;5;6;7;8;0])
           1 false 1 2 0 0); reflexivity.
Defined.

(** ** C8: the order of the priority queue *)

Lemma tuple_lt_irrefl (a : list Z) : tuple_lt a a = false.
Proof. induction a as [|u a IH]; simpl; [reflexivity|]. rewrite Z.eqb_refl. exact IH. Qed.

Lemma tuple_lt_asym (a b : list Z) : tuple_lt a b = true -> tuple_lt b a = false.
Proof.
  revert b. induction a as [|u a IH]; intros [|v b]; simpl; try congruence.
  rewrite (Z.eqb_sym v u). case_if; [apply IH|].
  rewrite Z.ltb_lt, Z.ltb_ge. lia.
Qed.

Lemma Board_lt_neq (a b : Board) : Board_lt a b = true -> Board_eq a b = false.
Proof.
  unfold Board_lt, Board_eq. intros Hlt. apply bool_decide_eq_false. intros Heq.
  rewrite Heq, tuple_lt_irrefl in Hlt. discriminate.
Qed.

Lemma Board_eq_sym (a b : Board) : Board_eq a b = Board_eq b a.
Proof. unfold Board_eq. apply bool_decide_ext. split; congruence. Qed.

(** C8, as stated, fails.  After two iterations on [board_0] the queue
    holds two items with the same [f]; the one with the lexicographically
    larger board is the smaller item, because its [h] is smaller. *)
Lemma C8_tie_not_by_board :
  exists q a b,
    open <$> state_after 2 board_0 = Some q
    /\ a ∈ q /\ b ∈ q
    /\ f a = f b
    /\ Board_lt (board b) (board a) = true
    /\ Item_lt a b = Ok true /\ Item_lt b a = Ok false.
Proof.
  eexists _,
    (mkItem 4 2 2 (mkBoard 3 [1;2;3;4;0;6;7;5;8]) (Some UP) 2),
    (mkItem 4 3 1 (mkBoard 3 [1;2;3;0;5;6;4;7;8]) (Some UP) 0).
  split; [vm_compute; reflexivity|].
  split; [apply list_elem_of_In; simpl; tauto|].
  split; [apply list_elem_of_In; simpl; tauto|].
  repeat split; reflexivity.
Qed.

(** C8 (amended). Among items with the same [f], the one with the smaller
    [h] comes first whatever the boards are; the order of the cell
    sequences decides only between items that also agree on [h] and [g].
    [heappop] hands out the item that comes first. *)
Theorem C8_tie_break (a b : Item) :
  f a = f b ->
  (h a < h b \/ (h a = h b /\ g a = g b /\ Board_lt (board a) (board b) = true)) ->
  Item_lt a b = Ok true /\ Item_lt b a = Ok false
  /\ heappop [a; b] = Ok (a, [b]) /\ heappop [b; a] = Ok (a, [b]).
Proof.
  intros Hf Hcase.
  assert (Hab : Item_lt a b = Ok true /\ Item_lt b a = Ok false).
  { unfold Item_lt. rewrite Hf, Z.eqb_refl. simpl.
    destruct Hcase as [Hh | (Hh & Hg & Hlt)].
    - assert ((h a =? h b) = false) as -> by (apply Z.eqb_neq; lia).
      assert ((h b =? h a) = false) as -> by (apply Z.eqb_neq; lia).
      simpl. split; f_equal; [apply Z.ltb_lt | apply Z.ltb_ge]; lia.
    - rewrite Hh, Hg, !Z.eqb_refl. simpl.
      rewrite (Board_eq_sym (board b)), (Board_lt_neq _ _ Hlt). simpl.
      split; f_equal; [exact Hlt|]. apply tuple_lt_asym, Hlt. }
  destruct Hab as [Hab Hba]. repeat split; try assumption.
  - unfold heappop. simpl. rewrite Hba. reflexivity.
  - unfold heappop. simpl. rewrite Hab. reflexivity.
Qed.

Lemma C8_tie_break_witness :
  let a := mkItem 4 2 2 (mkBoard 3 [1;2;3;4;0;6;7;5;8]) (Some UP) 2 in
  let b := mkItem 4 2 2 (mkBoard 3 [1;2;3;4;5;6;0;7;8]) (Some LEFT) 2 in
  Item_lt a b = Ok true /\ Item_lt b a = Ok false
  /\ heappop [a; b] = Ok (a, [b]) /\ heappop [b; a] = Ok (a, [b]).
Proof.
  intros a b. apply (C8_tie_break a b); [reflexivity|].
  right. repeat split; reflexivity.
Defined.

(** ** C9: the visited set *)

(** C9 fails on [board_0]: its cells are queued at the start without being
    put into [visited], and after two iterations they have been queued a
    second time, under index 4. *)
Lemma C9_start_queued_twice :
  (fun st => (open st, bool_decide (_board board_0 ∈ visited st)))
    <$> state_after 0 board_0
  = Some ([mkItem 2 2 0 board_0 None (-1)], false)
  /\ (fun st => (item_by_idx st !! 0, item_by_idx st !! 4)) <$> state_after 2 board_0
     = Some (Some (mkItem 2 2 0 board_0 None (-1)),
             Some (mkItem 4 2 2 board_0 (Some LEFT) 2)).
Proof. split; vm_compute; reflexivity. Qed.

(** ** C1: the length of the returned path *)

Lemma apply_moves_slides (ds : list string) :
  forall b b', apply_moves b ds = Ok (Some b') -> slides b ds b'.
Proof.
  induction ds as [|d ds IH]; intros b b'; simpl.
  - intros [= ->]. constructor.
  - destruct (move_tile b d true) as [[self' [b1|]]|] eqn:Hm; simpl; try discriminate.
    intros Hrest. econstructor; [|apply IH, Hrest].
    exists true, self'. exact Hm.
Qed.

(** C1 fails on [board_1]: [solve] returns the start followed by twelve
    moves, while ten legal slides reach the goal. *)
Lemma C1_solve_not_minimal :
  map move_direction <$> returned_path (solve 100 board_1 false false)
  = Some [None; Some DOWN; Some RIGHT; Some UP; Some LEFT; Some DOWN; Some RIGHT;
          Some UP; Some UP; Some LEFT; Some DOWN; Some RIGHT; Some DOWN]
  /\ slides board_1 [RIGHT; DOWN; LEFT; UP; RIGHT; UP; LEFT; DOWN; RIGHT; DOWN]
            (goal board_1).
Proof.
  split; [vm_compute; reflexivity|].
  apply apply_moves_slides. vm_compute. reflexivity.
Qed.

(** ** C6: [count_sort] sorts and counts inversions *)

Section Inversions.

Lemma lt_count_cons a b l :
  lt_count a (b :: l) = (if b <? a then 1 else 0) + lt_count a l.
Proof. unfold lt_count. simpl. destruct (b <? a); simpl length; lia. Qed.

Lemma lt_count_app a l1 l2 : lt_count a (l1 ++ l2) = lt_count a l1 + lt_count a l2.
Proof.
  induction l1 as [|b l1 IH]; [reflexivity|].
  simpl app. rewrite !lt_count_cons, IH. lia.
Qed.

Lemma lt_count_perm a l l' : Permutation l l' -> lt_count a l = lt_count a l'.
Proof.
  induction 1; rewrite ?lt_count_cons; repeat case_if; lia.
Qed.

Lemma lt_count_all_ge a l : Forall (Z.le a) l -> lt_count a l = 0.
Proof.
  induction 1 as [|b l Hb _ IH]; [reflexivity|].
  rewrite lt_count_cons, IH.
  destruct (b <? a) eqn:E; [apply Z.ltb_lt in E; lia | reflexivity].
Qed.

Lemma cross_nil_r A : cross A [] = 0.
Proof. induction A as [|a A IH]; simpl; [reflexivity|]. rewrite IH. reflexivity. Qed.

Lemma gt_count_cons b a A :
  gt_count b (a :: A) = (if b <? a then 1 else 0) + gt_count b A.
Proof. unfold gt_count. simpl. destruct (b <? a); simpl length; lia. Qed.

Lemma cross_cons_right A b B : cross A (b :: B) = gt_count b A + cross A B.
Proof.
  induction A as [|a A IH]; [reflexivity|].
  simpl cross. rewrite lt_count_cons, gt_count_cons, IH. lia.
Qed.

Lemma gt_count_all_gt b A : Forall (fun a => b < a) A -> gt_count b A = Z.of_nat (length A).
Proof.
  induction 1 as [|a A Ha _ IH]; [reflexivity|].
  rewrite gt_count_cons, IH.
  destruct (b <? a) eqn:E; [simpl length; lia | apply Z.ltb_ge in E; lia].
Qed.

Lemma cross_perm_l A A' B : Permutation A A' -> cross A B = cross A' B.
Proof. induction 1; simpl; lia. Qed.

Lemma cross_perm_r A B B' : Permutation B B' -> cross A B = cross A B'.
Proof.
  intros HP. induction A as [|a A IH]; [reflexivity|].
  simpl. rewrite IH, (lt_count_perm a _ _ HP). reflexivity.
Qed.

Lemma inversions_app A B :
  inversions_rec (A ++ B) = inversions_rec A + cross A B + inversions_rec B.
Proof.
  induction A as [|a A IH]; simpl; [lia|].
  fold (lt_count a (A ++ B)). fold (lt_count a A).
  rewrite lt_count_app, IH. lia.
Qed.

Lemma inversions_sorted l : StronglySorted Z.le l -> inversions_rec l = 0.
Proof.
  induction 1 as [|a l _ IH Hall]; [reflexivity|].
  simpl. fold (lt_count a l). rewrite (lt_count_all_ge _ _ Hall), IH. reflexivity.
Qed.

Lemma filter_map_length {A B : Type} (f : B -> bool) (g : A -> B) (l : list A) :
  length (List.filter f (map g l)) = length (List.filter (fun a => f (g a)) l).
Proof.
  induction l as [|a l IH]; simpl; [reflexivity|].
  destruct (f (g a)); simpl; rewrite IH; reflexivity.
Qed.

Lemma filter_cons_length {A : Type} (f : A -> bool) (a : A) (l : list A) :
  length (List.filter f (a :: l))
  = ((if f a then 1 else 0) + length (List.filter f l))%nat.
Proof. simpl. destruct (f a); reflexivity. Qed.

Lemma filter_prod_length {A B : Type} (f : A * B -> bool) (l1 : list A) (l2 : list B) :
  length (List.filter f (list_prod l1 l2))
  = list_sum (map (fun a => length (List.filter (fun b => f (a, b)) l2)) l1).
Proof.
  induction l1 as [|a l1 IH]; simpl; [reflexivity|].
  rewrite List.filter_app, List.length_app, IH, filter_map_length. reflexivity.
Qed.

Lemma filter_nth_length (g : Z -> bool) (L : list Z) :
  length (List.filter (fun j => g (nth j L 0)) (seq 0 (length L)))
  = length (List.filter g L).
Proof.
  induction L as [|a L IH]; [reflexivity|].
  change (seq 0 (length (a :: L))) with (0%nat :: seq 1 (length L)).
  rewrite <- seq_shift, !filter_cons_length, filter_map_length.
  cbn [nth]. rewrite IH. reflexivity.
Qed.

(** Counting from the left counts the pairs of positions out of order. *)
Lemma inversions_rec_pairs (L : list Z) : inversions_rec L = inversions L.
Proof.
  unfold inversions, inversion_pairs. induction L as [|a L IH]; [reflexivity|].
  cbn [inversions_rec]. rewrite IH.
  rewrite !filter_prod_length.
  change (seq 0 (length (a :: L))) with (0%nat :: seq 1 (length L)).
  rewrite <- seq_shift. cbn [map list_sum fold_right].
  rewrite map_map, Nat2Z.inj_add. f_equal.
  - f_equal. rewrite filter_cons_length, filter_map_length.
    unfold out_of_order. cbn [fst snd nth Nat.ltb Nat.leb andb].
    rewrite <- (filter_nth_length (fun b => b <? a) L). reflexivity.
  - f_equal. unfold list_sum. f_equal. apply map_ext. intros i.
    rewrite filter_cons_length, filter_map_length.
    unfold out_of_order. cbn [fst snd nth Nat.ltb Nat.leb andb]. reflexivity.
Qed.

End Inversions.

Lemma merge_loop_spec (A B S_ : list Z) (c : Z) :
  StronglySorted Z.le A -> StronglySorted Z.le B ->
  exists M, merge_loop A B S_ c = (S_ ++ M, c + cross A B)
            /\ Permutation (A ++ B) M /\ StronglySorted Z.le M.
Proof.
  funelim (merge_loop A B S_ c); intros HA HB.
  - exists []. rewrite app_nil_r. split; [f_equal; simpl; lia|].
    split; [apply perm_nil | apply SSorted_nil].
  - apply StronglySorted_inv in HB as [HB' Hb].
    destruct (H HA HB') as (M & -> & HP & HS).
    exists (b :: M). rewrite <- app_assoc. simpl app. split; [|split].
    + f_equal.
    + apply perm_skip. exact HP.
    + apply SSorted_cons; [exact HS|].
      eapply Permutation_Forall; [exact HP | exact Hb].
  - apply StronglySorted_inv in HA as [HA' Ha].
    destruct (H HA' HB) as (M & -> & HP & HS).
    exists (a :: M). rewrite <- app_assoc. simpl app. split; [|split].
    + f_equal; rewrite ?cross_nil_r; lia.
    + apply perm_skip. exact HP.
    + apply SSorted_cons; [exact HS|].
      eapply Permutation_Forall; [exact HP|].
      rewrite app_nil_r. exact Ha.
  - (* a <= b: the head of A goes out *)
    apply Z.leb_le in Heq.
    pose proof HB as HB0.
    apply StronglySorted_inv in HA as [HA' Ha].
    apply StronglySorted_inv in HB as [HB' Hb].
    assert (Hab : Forall (Z.le a) (b :: B')).
    { constructor; [exact Heq|].
      eapply Forall_impl; [exact Hb|]. simpl. intros; lia. }
    destruct (H HA' HB0) as (M & -> & HP & HS).
    exists (a :: M). rewrite <- app_assoc. simpl app. split; [|split].
    + f_equal; simpl cross; rewrite (lt_count_all_ge a (b :: B') Hab); lia.
    + apply perm_skip. exact HP.
    + apply SSorted_cons; [exact HS|].
      eapply Permutation_Forall; [exact HP|].
      apply Forall_app. split; [exact Ha | exact Hab].
  - (* b < a: the head of B goes out and every entry left in A is above it *)
    apply Z.leb_gt in Heq.
    pose proof HA as HA0.
    apply StronglySorted_inv in HA as [HA' Ha].
    apply StronglySorted_inv in HB as [HB' Hb].
    assert (Hba : Forall (fun v => b < v) (a :: A')).
    { constructor; [exact Heq|].
      eapply Forall_impl; [exact Ha|]. simpl. intros; lia. }
    destruct (H HA0 HB') as (M & -> & HP & HS).
    exists (b :: M). rewrite <- app_assoc. simpl app. split; [|split].
    + f_equal; rewrite (cross_cons_right (a :: A') b B');
        rewrite (gt_count_all_gt b (a :: A') Hba); lia.
    + etransitivity; [|apply perm_skip; exact HP].
      symmetry. apply (Permutation_middle (a :: A') B' b).
    + apply SSorted_cons; [exact HS|].
      eapply Permutation_Forall; [exact HP|].
      apply Forall_app. split; [|exact Hb].
      eapply Forall_impl; [exact Hba|]. simpl. intros; lia.
Qed.

Lemma count_sort_spec (L : list Z) :
  exists L', count_sort L = (L', inversions_rec L)
             /\ Permutation L L' /\ StronglySorted Z.le L'.
Proof.
  funelim (count_sort L).
  - (* fewer than two entries *)
    exists L. clear H Heqcall.
    destruct L as [|a [|b L]].
    + repeat split; [reflexivity | constructor].
    + repeat split; [reflexivity | repeat constructor].
    + exfalso. simpl length in e.
      assert (1 <= (Datatypes.S (Datatypes.S (length L)) / 2))%nat
        by (apply Nat.div_le_lower_bound; lia).
      lia.
  - destruct H as (L1 & -> & HP1 & HS1).
    destruct (H0 L1 0) as (L2 & -> & HP2 & HS2). clear H0 H1 Heqcall.
    unfold merge_count.
    destruct (merge_loop_spec L1 L2 [] 0 HS1 HS2) as (M & -> & HPM & HSM).
    exists M. simpl app. split; [|split].
    + f_equal.
      rewrite <- (take_drop (Datatypes.S h0) L) at 3.
      rewrite inversions_app.
      rewrite (cross_perm_l _ _ _ HP1), (cross_perm_r _ _ _ HP2). lia.
    + rewrite <- (take_drop (Datatypes.S h0) L) at 1.
      etransitivity; [|exact HPM].
      apply Permutation_app; assumption.
    + exact HSM.
Qed.

(** C6. For every list of integers, distinct or not, [count_sort] returns
    the list in ascending order, with the same entries, together with its
    number of inversions: the number of pairs of positions [i < j] with
    [L[i] > L[j]]. *)
Theorem C6_count_sort (L : list Z) :
  Permutation L (fst (count_sort L))
  /\ Sorted Z.le (fst (count_sort L))
  /\ snd (count_sort L) = inversions L.
Proof.
  destruct (count_sort_spec L) as (L' & -> & HP & HS). simpl.
  split; [exact HP|]. split; [apply StronglySorted_Sorted, HS|].
  apply inversions_rec_pairs.
Qed.

(** ** Well-formed boards *)

Section WellFormed.

Lemma py_range_length a b : length (py_range a b) = Z.to_nat (b - a).
Proof. unfold py_range. rewrite length_map, length_seq. reflexivity. Qed.

Lemma py_range_In a b v : In v (py_range a b) <-> a <= v < b.
Proof.
  unfold py_range. rewrite in_map_iff. split.
  - intros (k & <- & Hk). apply in_seq in Hk. lia.
  - intros Hv. exists (Z.to_nat (v - a)). split; [lia|]. apply in_seq. lia.
Qed.

Lemma py_range_NoDup a b : List.NoDup (py_range a b).
Proof.
  unfold py_range. apply Finite.Injective_map_NoDup; [|apply seq_NoDup].
  intros u v Huv. lia.
Qed.

Lemma py_index_lookup (t : list Z) :
  forall (n : nat) (v : Z),
    List.NoDup t -> t !! n = Some v -> py_index v t = Ok (Z.of_nat n).
Proof.
  induction t as [|a t IH]; intros n v Hnd Hn; [discriminate|].
  apply List.NoDup_cons_iff in Hnd as [Ha Hnd].
  destruct n as [|n]; simpl in *.
  - injection Hn as ->. rewrite Z.eqb_refl. reflexivity.
  - assert (a <> v).
    { intros ->. apply Ha. apply list_elem_of_In. eapply list_elem_of_lookup_2, Hn. }
    assert ((a =? v) = false) as -> by (apply Z.eqb_neq; assumption).
    rewrite (IH n v Hnd Hn). simpl. f_equal. lia.
Qed.

Lemma py_index_In (t : list Z) (v : Z) :
  In v t -> exists n, py_index v t = Ok (Z.of_nat n) /\ t !! n = Some v.
Proof.
  induction t as [|a t IH]; [intros []|].
  intros Hin. simpl. destruct (a =? v) eqn:E.
  - apply Z.eqb_eq in E. subst. exists 0%nat. split; reflexivity.
  - destruct Hin as [->|Hin]; [rewrite Z.eqb_refl in E; discriminate|].
    destruct (IH Hin) as (n & -> & Hn). exists (Datatypes.S n).
    split; [simpl; f_equal; lia | exact Hn].
Qed.

Variable b : Board.
Hypothesis Hwf : wf_board b.

Let N := width b.

Lemma wf_width : 1 <= N.
Proof. exact (proj1 Hwf). Qed.

Lemma wf_size : size b = N * N.
Proof. unfold size. fold (width b). fold N. apply Z.pow_2_r. Qed.

Lemma wf_length : Z.of_nat (length (_board b)) = N * N.
Proof.
  rewrite (Permutation_length (proj2 Hwf)), py_range_length, wf_size.
  pose proof wf_width. nia.
Qed.

Lemma wf_NoDup : List.NoDup (_board b).
Proof.
  eapply Permutation_NoDup; [symmetry; exact (proj2 Hwf) | apply py_range_NoDup].
Qed.

Lemma wf_In v : In v (_board b) <-> 0 <= v < N * N.
Proof.
  rewrite <- wf_size, <- py_range_In. split; apply Permutation_in;
    [exact (proj2 Hwf) | symmetry; exact (proj2 Hwf)].
Qed.

Lemma wf_valid_tile v : 0 <= v < N * N -> _valid_tile_num b v = Ok true.
Proof.
  intros Hv. unfold _valid_tile_num. rewrite wf_size.
  assert ((-1 <? v) && (v <? N * N) = true) as ->; [|reflexivity].
  apply andb_true_iff. rewrite !Z.ltb_lt. lia.
Qed.

(** Column and row of the tile stored at position [n]. *)
Lemma wf_xy (n : nat) (v : Z) :
  _board b !! n = Some v ->
  xy b v = Ok (Z.of_nat n mod N, Z.of_nat n / N).
Proof.
  intros Hn.
  assert (Hv : 0 <= v < N * N)
    by (apply wf_In, list_elem_of_In; eapply list_elem_of_lookup_2, Hn).
  unfold xy, x, y. rewrite (wf_valid_tile v Hv). simpl.
  rewrite (py_index_lookup _ n v wf_NoDup Hn). simpl. fold N.
  destruct (Z.of_nat n =? 0) eqn:E; [|reflexivity].
  apply Z.eqb_eq in E. rewrite E. reflexivity.
Qed.

Lemma wf_empty_position : exists n, _board b !! n = Some EMPTY_TILE.
Proof.
  assert (Hin : In EMPTY_TILE (_board b))
    by (apply wf_In; pose proof wf_width; unfold EMPTY_TILE; nia).
  destruct (py_index_In _ _ Hin) as (n & _ & Hn). exists n. exact Hn.
Qed.

End WellFormed.

(** ** C3: what [solvable] computes *)

Lemma lt_count_map_ext (p q : Z -> Z) (a : Z) (l : list Z) :
  (forall v, In v l -> (p v <? p a) = (q v <? q a)) ->
  lt_count (p a) (map p l) = lt_count (q a) (map q l).
Proof.
  induction l as [|v l IH]; intros Hext; [reflexivity|].
  simpl map. rewrite !lt_count_cons, IH, (Hext v).
  - reflexivity.
  - left. reflexivity.
  - intros w Hw. apply Hext. right. exact Hw.
Qed.

(** Only the relative order of the entries matters for [inversions_rec]. *)
Lemma inversions_map_ext (p q : Z -> Z) (l : list Z) :
  (forall u v, In u l -> In v l -> (p v <? p u) = (q v <? q u)) ->
  inversions_rec (map p l) = inversions_rec (map q l).
Proof.
  induction l as [|a l IH]; intros Hext; [reflexivity|].
  simpl. fold (lt_count (p a) (map p l)). fold (lt_count (q a) (map q l)).
  rewrite (lt_count_map_ext p q a l), IH.
  - reflexivity.
  - intros u v Hu Hv. apply Hext; right; assumption.
  - intros v Hv. apply Hext; [left; reflexivity | right; exact Hv].
Qed.

Lemma even_mod2 (z : Z) : (z mod 2 =? 0) = Z.even z.
Proof. symmetry. apply Zeven_mod. Qed.

(** Any two values above all the tiles serve as the empty slot's rank. *)
Lemma inversions_empty_as (M M' : Z) (cells : list Z) :
  (forall v, In v cells -> v < M /\ v < M') ->
  inversions_rec (empty_as M cells) = inversions_rec (empty_as M' cells).
Proof.
  intros Hlt. apply inversions_map_ext. intros u v Hu Hv.
  apply Hlt in Hu, Hv. unfold EMPTY_TILE.
  destruct (u =? 0) eqn:Eu, (v =? 0) eqn:Ev; bool_lia;
    repeat match goal with
    | |- context [?a <? ?b] =>
        let E := fresh in destruct (a <? b) eqn:E; bool_lia
    end; try reflexivity; lia.
Qed.

Lemma solvable_wf (b : Board) (n : nat) :
  wf_board b ->
  _board b !! n = Some EMPTY_TILE ->
  solvable b
  = Ok (Z.even (inversions_rec (empty_as (width b * width b) (_board b))
                + corner_dist (width b) n)).
Proof.
  intros Hwf Hn. unfold solvable.
  match goal with
  | |- context [count_sort ?l] =>
      destruct (count_sort_spec l) as (L' & -> & _ & _)
  end.
  rewrite (wf_xy b Hwf n _ Hn). simpl. rewrite even_mod2.
  unfold height. fold (corner_dist (width b) n).
  do 3 f_equal.
  transitivity (inversions_rec (empty_as (size b + 1) (_board b))).
  - unfold empty_as. f_equal. apply map_ext. intros v.
    destruct (v =? EMPTY_TILE); reflexivity.
  - apply inversions_empty_as. intros v Hv.
    apply (wf_In b Hwf) in Hv. rewrite (wf_size b). lia.
Qed.

(** C3. On a board whose cells are a permutation of 0 .. N*N-1 (N >= 1)
    the empty slot has a position, and [solvable] returns whether I + D is
    even, I being the number of inversions of the cells with the empty
    slot counted as N*N and D the grid distance from that position to the
    bottom-right corner. *)
Theorem C3_solvable (b : Board) :
  wf_board b ->
  exists n,
    _board b !! n = Some EMPTY_TILE
    /\ solvable b
       = Ok (Z.even (inversions (empty_as (width b * width b) (_board b))
                     + corner_dist (width b) n)).
Proof.
  intros Hwf. destruct (wf_empty_position b Hwf) as [n Hn].
  exists n. split; [exact Hn|].
  rewrite <- inversions_rec_pairs. apply solvable_wf; assumption.
Qed.

(** ** C5: slides keep the value of [solvable] *)

Section SwapParity.

Lemma lt_gt_count (a : Z) (l : list Z) :
  ~ In a l -> lt_count a l + gt_count a l = Z.of_nat (length l).
Proof.
  induction l as [|v l IH]; intros Hnin; [reflexivity|].
  rewrite lt_count_cons, gt_count_cons. simpl length.
  assert (v <> a) by (intros ->; apply Hnin; left; reflexivity).
  rewrite Nat2Z.inj_succ, <- IH by (intros Hin; apply Hnin; right; exact Hin).
  destruct (v <? a) eqn:E1, (a <? v) eqn:E2; bool_lia; lia.
Qed.

Lemma inversions_cons_app (u : Z) (mid : list Z) (v : Z) (l2 : list Z) :
  inversions_rec (u :: mid ++ v :: l2)
  = lt_count u mid + (if v <? u then 1 else 0) + lt_count u l2
    + inversions_rec mid + gt_count v mid + cross mid l2 + lt_count v l2 + inversions_rec l2.
Proof.
  simpl inversions_rec at 1. fold (lt_count u (mid ++ v :: l2)).
  rewrite lt_count_app, lt_count_cons, inversions_app, cross_cons_right.
  simpl inversions_rec at 2. fold (lt_count v l2). lia.
Qed.

(** Exchanging two entries of a list without repetitions changes the
    number of inversions by an odd amount. *)
Lemma inversions_swap_odd (l1 : list Z) (u : Z) (mid : list Z) (v : Z) (l2 : list Z) :
  List.NoDup (l1 ++ u :: mid ++ v :: l2) ->
  exists k, inversions_rec (l1 ++ u :: mid ++ v :: l2)
            + inversions_rec (l1 ++ v :: mid ++ u :: l2) = 2 * k + 1.
Proof.
  intros Hnd.
  apply List.NoDup_remove in Hnd as [Hnd Hu].
  assert (Hu_mid : ~ In u mid).
  { intros Hin. apply Hu. apply in_or_app. right. apply in_or_app. left. exact Hin. }
  assert (Huv : u <> v).
  { intros ->. apply Hu. apply in_or_app. right. apply in_or_app. right.
    left. reflexivity. }
  assert (Hv_mid : ~ In v mid).
  { apply NoDup_app_remove_l in Hnd. apply List.NoDup_remove in Hnd as [_ Hv].
    intros Hin. apply Hv. apply in_or_app. left. exact Hin. }
  rewrite !inversions_app, !inversions_cons_app.
  rewrite (cross_perm_r l1 (v :: mid ++ u :: l2) (u :: mid ++ v :: l2)).
  2:{ transitivity (v :: u :: mid ++ l2).
      - apply perm_skip. symmetry. apply Permutation_middle.
      - transitivity (u :: v :: mid ++ l2); [apply perm_swap|].
        apply perm_skip. apply Permutation_middle. }
  pose proof (lt_gt_count u mid Hu_mid).
  pose proof (lt_gt_count v mid Hv_mid).
  destruct (v <? u) eqn:E1, (u <? v) eqn:E2; bool_lia; try lia.
  - exists (inversions_rec l1 + cross l1 (u :: mid ++ v :: l2) + Z.of_nat (length mid)
            + lt_count u l2 + inversions_rec mid + cross mid l2
            + lt_count v l2 + inversions_rec l2). lia.
  - exists (inversions_rec l1 + cross l1 (u :: mid ++ v :: l2) + Z.of_nat (length mid)
            + lt_count u l2 + inversions_rec mid + cross mid l2
            + lt_count v l2 + inversions_rec l2). lia.
Qed.

Lemma insert_swap_explicit (l1 : list Z) (u : Z) (mid : list Z) (v : Z) (l2 : list Z) :
  <[length l1 := v]> (<[(length l1 + Datatypes.S (length mid))%nat := u]>
                        (l1 ++ u :: mid ++ v :: l2))
  = l1 ++ v :: mid ++ u :: l2.
Proof.
  rewrite insert_app_r. simpl.
  rewrite <- (Nat.add_0_r (length mid)) at 1. rewrite insert_app_r. simpl.
  rewrite <- (Nat.add_0_r (length l1)) at 1. rewrite insert_app_r. reflexivity.
Qed.

(** Two positions [p < q] split the list around them. *)
Lemma lookup_split2 (l : list Z) (p q : nat) (u v : Z) :
  (p < q)%nat -> l !! p = Some u -> l !! q = Some v ->
  exists l1 mid l2,
    l = l1 ++ u :: mid ++ v :: l2
    /\ length l1 = p /\ (length l1 + Datatypes.S (length mid))%nat = q.
Proof.
  intros Hpq Hp Hq.
  pose proof (lookup_lt_Some _ _ _ Hp) as Hpl.
  pose proof (lookup_lt_Some _ _ _ Hq) as Hql.
  assert (Hq' : drop (Datatypes.S p) l !! (q - Datatypes.S p)%nat = Some v).
  { rewrite lookup_drop. rewrite <- Hq. f_equal. lia. }
  exists (take p l), (take (q - Datatypes.S p) (drop (Datatypes.S p) l)),
         (drop (Datatypes.S (q - Datatypes.S p)) (drop (Datatypes.S p) l)).
  split; [|split].
  - rewrite (take_drop_middle _ _ _ Hq'). symmetry. apply take_drop_middle, Hp.
  - rewrite length_take. lia.
  - rewrite !length_take, length_drop. lia.
Qed.

End SwapParity.

Section MoveTile.

Lemma py_getitem_lookup (l : list Z) (k : nat) (v : Z) :
  l !! k = Some v -> py_getitem l (Z.of_nat k) = Ok v.
Proof.
  intros Hk. pose proof (lookup_lt_Some _ _ _ Hk) as Hlt.
  unfold py_getitem, py_norm_index.
  assert ((Z.of_nat k <? 0) = false) as -> by (apply Z.ltb_ge; lia).
  assert ((0 <=? Z.of_nat k) && (Z.of_nat k <? Z.of_nat (length l)) = true) as ->.
  { apply andb_true_iff. rewrite Z.leb_le, Z.ltb_lt. lia. }
  simpl. rewrite Nat2Z.id, Hk. reflexivity.
Qed.

Lemma py_setitem_lt (l : list Z) (k : nat) (v : Z) :
  (k < length l)%nat -> py_setitem l (Z.of_nat k) v = Ok (<[k := v]> l).
Proof.
  intros Hlt. unfold py_setitem, py_norm_index.
  assert ((Z.of_nat k <? 0) = false) as -> by (apply Z.ltb_ge; lia).
  assert ((0 <=? Z.of_nat k) && (Z.of_nat k <? Z.of_nat (length l)) = true) as ->.
  { apply andb_true_iff. rewrite Z.leb_le, Z.ltb_lt. lia. }
  simpl. rewrite Nat2Z.id. reflexivity.
Qed.

Lemma div_mod_grid (N q r : Z) :
  0 <= r < N -> (N * q + r) mod N = r /\ (N * q + r) / N = q.
Proof.
  intros Hr. split.
  - replace (N * q + r) with (r + q * N) by lia.
    rewrite Z_mod_plus_full. apply Z.mod_small. exact Hr.
  - symmetry. apply (Z.div_unique_pos _ _ q r); [exact Hr | reflexivity].
Qed.

Variable b : Board.
Hypothesis Hwf : wf_board b.
Variable n : nat.
Hypothesis Hn : _board b !! n = Some EMPTY_TILE.

Let N := width b.

Lemma in_grid_test (x' y' : Z) :
  negb ((-1 <? x') && (x' <? width b) && ((-1 <? y') && (y' <? height b))) = false
  <-> in_grid N x' y'.
Proof.
  unfold in_grid, N, height, width.
  rewrite negb_false_iff, !andb_true_iff, !Z.ltb_lt. lia.
Qed.

Lemma in_grid_index (x' y' : Z) :
  in_grid N x' y' ->
  let m := Z.to_nat (N * y' + x') in
  Z.of_nat m = N * y' + x' /\ (m < length (_board b))%nat.
Proof.
  intros [Hx Hy] m. pose proof (wf_length b Hwf) as Hlen. fold N in Hlen.
  assert (0 <= N * y' + x' < N * N) by nia.
  subst m. lia.
Qed.

Lemma move_tile_off (d : string) (new : bool) :
  ~ in_grid N (fst (shift_xy d (Z.of_nat n mod N) (Z.of_nat n / N)))
              (snd (shift_xy d (Z.of_nat n mod N) (Z.of_nat n / N))) ->
  move_tile b d new = Ok (b, None).
Proof.
  intros Hout. unfold move_tile. rewrite (wf_xy b Hwf n _ Hn). simpl.
  unfold N in *.
  destruct (shift_xy d (Z.of_nat n mod width b) (Z.of_nat n / width b)) as [x' y'].
  simpl in Hout. case_if; [reflexivity|].
  exfalso. apply Hout. apply in_grid_test. assumption.
Qed.

Lemma move_tile_on (d : string) (new : bool) (x' y' : Z) :
  shift_xy d (Z.of_nat n mod N) (Z.of_nat n / N) = (x', y') ->
  in_grid N x' y' ->
  exists v,
    _board b !! Z.to_nat (N * y' + x') = Some v
    /\ let b' := mkBoard N (exchanged (_board b) n (Z.to_nat (N * y' + x')) v) in
       move_tile b d new = Ok (if new then b else b', Some b').
Proof.
  intros Hs Hin.
  destruct (in_grid_index x' y' Hin) as [Hm Hlt].
  set (m := Z.to_nat (N * y' + x')) in *.
  destruct (lookup_lt_is_Some_2 _ _ Hlt) as [v Hv].
  exists v. split; [exact Hv|]. simpl.
  apply in_grid_test in Hin as Htest.
  assert (HN : 1 <= N) by exact (wf_width b Hwf).
  unfold move_tile. rewrite (wf_xy b Hwf n _ Hn). simpl.
  unfold N in *. rewrite Hs, Htest.
  unfold xy_to_idx.
  rewrite <- (Z.div_mod (Z.of_nat n) (width b)) by lia.
  rewrite <- Hm.
  rewrite (py_getitem_lookup _ _ _ Hn), (py_getitem_lookup _ _ _ Hv). simpl.
  rewrite (py_setitem_lt _ _ _ Hlt). simpl.
  rewrite py_setitem_lt by (rewrite length_insert; eapply lookup_lt_Some, Hn).
  simpl. unfold exchanged. destruct new; reflexivity.
Qed.

End MoveTile.

Section Exchanged.

Variable b : Board.
Hypothesis Hwf : wf_board b.
Variables (n m : nat) (v : Z).
Hypothesis Hn : _board b !! n = Some EMPTY_TILE.
Hypothesis Hm : _board b !! m = Some v.

Let N := width b.
Let b' := mkBoard N (exchanged (_board b) n m v).

Lemma exchanged_wf : wf_board b'.
Proof.
  split; [exact (proj1 Hwf)|].
  unfold b', size. simpl. change (_height_and_width b ^ 2) with (size b).
  etransitivity; [|exact (proj2 Hwf)].
  unfold exchanged. apply Permutation_insert_swap; assumption.
Qed.

Lemma exchanged_same : m = n -> b' = b.
Proof.
  intros ->. assert (v = EMPTY_TILE) as -> by congruence.
  unfold b', exchanged. rewrite list_insert_insert_eq, (list_insert_id _ _ _ Hn).
  destruct b. reflexivity.
Qed.

Lemma exchanged_empty : m <> n -> _board b' !! m = Some EMPTY_TILE.
Proof.
  intros Hne. unfold b', exchanged. simpl.
  rewrite list_lookup_insert_ne by congruence.
  apply list_lookup_insert_eq. eapply lookup_lt_Some, Hm.
Qed.

Lemma empty_as_NoDup : List.NoDup (empty_as (N * N) (_board b)).
Proof.
  apply Finite.Injective_map_NoDup_in; [|apply (wf_NoDup b Hwf)].
  intros u w Hu Hw. apply (wf_In b Hwf) in Hu, Hw. fold N in Hu, Hw.
  unfold EMPTY_TILE.
  destruct (u =? 0) eqn:Eu, (w =? 0) eqn:Ew; bool_lia; lia.
Qed.

(** The two boards agree except at the two positions that changed
    places, in list form. *)
Lemma exchanged_split :
  m <> n ->
  exists l1 u mid w l2,
    _board b = l1 ++ u :: mid ++ w :: l2
    /\ _board b' = l1 ++ w :: mid ++ u :: l2.
Proof.
  intros Hne. unfold b', exchanged. simpl.
  destruct (Nat.lt_total n m) as [Hlt | [Heq | Hlt]]; [|congruence|].
  - destruct (lookup_split2 _ n m _ _ Hlt Hn Hm) as (l1 & mid & l2 & Hl & Hp & Hq).
    exists l1, EMPTY_TILE, mid, v, l2. split; [exact Hl|].
    rewrite Hl, <- Hp, <- Hq.
    apply insert_swap_explicit.
  - destruct (lookup_split2 _ m n _ _ Hlt Hm Hn) as (l1 & mid & l2 & Hl & Hp & Hq).
    exists l1, v, mid, EMPTY_TILE, l2. split; [exact Hl|].
    rewrite list_insert_insert_ne by congruence.
    rewrite Hl, <- Hp, <- Hq.
    apply insert_swap_explicit.
Qed.

Lemma exchanged_inversions_odd :
  m <> n ->
  exists k, inversions_rec (empty_as (N * N) (_board b))
            + inversions_rec (empty_as (N * N) (_board b')) = 2 * k + 1.
Proof.
  intros Hne.
  destruct (exchanged_split Hne) as (l1 & u & mid & w & l2 & Hl & Hl').
  pose proof empty_as_NoDup as Hnd.
  rewrite Hl'. rewrite Hl in Hnd |- *.
  unfold empty_as in *. rewrite !map_app in *. simpl map in *.
  rewrite !map_app in *. simpl map in *.
  apply inversions_swap_odd. exact Hnd.
Qed.

Lemma even_parity_eq (a c a' c' k j : Z) :
  a + a' = 2 * k + 1 -> c + c' = 2 * j + 1 ->
  Z.even (a' + c') = Z.even (a + c).
Proof.
  intros Ha Hc.
  replace (a' + c') with (a + c + 2 * (k + j + 1 - a - c)) by lia.
  apply Z.even_add_mul_2.
Qed.

(** A slide to a neighbouring cell keeps the value of [solvable]. *)
Lemma exchanged_solvable :
  m <> n ->
  (exists j, corner_dist N n + corner_dist N m = 2 * j + 1) ->
  solvable b' = solvable b.
Proof.
  intros Hne [j Hj].
  rewrite (solvable_wf b' m exchanged_wf (exchanged_empty Hne)).
  rewrite (solvable_wf b n Hwf Hn).
  destruct (exchanged_inversions_odd Hne) as [k Hk].
  f_equal. unfold b' at 1 3 4. simpl width. fold N.
  eapply even_parity_eq; eassumption.
Qed.

End Exchanged.

Lemma shift_xy_cases (d : string) (x y x' y' : Z) :
  shift_xy d x y = (x', y') ->
  (x' = x /\ y' = y)
  \/ (x' = x - 1 /\ y' = y) \/ (x' = x + 1 /\ y' = y)
  \/ (x' = x /\ y' = y - 1) \/ (x' = x /\ y' = y + 1).
Proof.
  unfold shift_xy. repeat case_if; intros [= <- <-]; lia.
Qed.

(** What a call of [move_tile] on a well-formed board amounts to. *)
Lemma move_tile_wf (b : Board) (d : string) (new : bool) :
  wf_board b ->
  move_tile b d new = Ok (b, None)
  \/ exists b', move_tile b d new = Ok (if new then b else b', Some b')
                /\ wf_board b' /\ width b' = width b
                /\ solvable b' = solvable b.
Proof.
  intros Hwf. destruct (wf_empty_position b Hwf) as [n Hn].
  pose proof (wf_width b Hwf) as HN.
  pose proof (wf_length b Hwf) as Hlen.
  pose proof (lookup_lt_Some _ _ _ Hn) as Hnlt.
  set (N := width b) in *.
  destruct (shift_xy d (Z.of_nat n mod N) (Z.of_nat n / N)) as [x' y'] eqn:Hs.
  destruct (negb ((-1 <? x') && (x' <? width b) && ((-1 <? y') && (y' <? height b))))
    eqn:Htest.
  - left. apply (move_tile_off b Hwf n Hn). fold N. rewrite Hs. simpl.
    intros Hin. apply (in_grid_test b) in Hin. congruence.
  - right. apply (in_grid_test b) in Htest. fold N in Htest.
    destruct (move_tile_on b Hwf n Hn d new x' y' Hs Htest) as (v & Hv & Hmove).
    fold N in Hv, Hmove. simpl in Hmove.
    destruct (in_grid_index b Hwf x' y' Htest) as [Hm _]. fold N in Hm.
    set (m := Z.to_nat (N * y' + x')) in *.
    eexists. split; [exact Hmove|].
    split; [apply exchanged_wf; assumption|].
    split; [reflexivity|].
    destruct (Nat.eq_dec m n) as [Heq | Hne].
    + pose proof (exchanged_same b Hwf n m v Hn Hv Heq) as E.
      change (width b) with N in E. rewrite E. reflexivity.
    + apply exchanged_solvable; try assumption. fold N.
      unfold corner_dist. rewrite Hm.
      destruct Htest as [Hx' Hy'].
      destruct (div_mod_grid N y' x' Hx') as [-> ->].
      assert (Hx : 0 <= Z.of_nat n mod N < N) by (apply Z.mod_pos_bound; lia).
      assert (Hy : 0 <= Z.of_nat n / N < N).
      { split; [apply Z.div_pos; lia|]. apply Z.div_lt_upper_bound; lia. }
      assert (Hmn : Z.of_nat m <> Z.of_nat n) by lia.
      rewrite Hm, (Z.div_mod (Z.of_nat n) N) in Hmn by lia.
      destruct (shift_xy_cases _ _ _ _ _ Hs)
        as [[Ex Ey] | [[Ex Ey] | [[Ex Ey] | [[Ex Ey] | [Ex Ey]]]]].
      * exfalso. apply Hmn. rewrite Ex, Ey. reflexivity.
      * exists (N - 1 - Z.of_nat n mod N + (N - 1 - Z.of_nat n / N)). lia.
      * exists (N - 1 - Z.of_nat n mod N + (N - 1 - Z.of_nat n / N) - 1). lia.
      * exists (N - 1 - Z.of_nat n mod N + (N - 1 - Z.of_nat n / N)). lia.
      * exists (N - 1 - Z.of_nat n mod N + (N - 1 - Z.of_nat n / N) - 1). lia.
Qed.

Lemma slide_wf (b : Board) (d : string) (b' : Board) :
  wf_board b -> slide b d b' ->
  wf_board b' /\ width b' = width b /\ solvable b' = solvable b.
Proof.
  intros Hwf (new & self' & Hmove).
  destruct (move_tile_wf b d new Hwf) as [Hoff | (b1 & Hon & Hprops)].
  - congruence.
  - rewrite Hon in Hmove. injection Hmove as _ <-. exact Hprops.
Qed.

Lemma slides_wf (b : Board) (ds : list string) (b' : Board) :
  wf_board b -> slides b ds b' ->
  wf_board b' /\ width b' = width b /\ solvable b' = solvable b.
Proof.
  intros Hwf Hs. induction Hs as [b | b d b1 ds b2 Hstep _ IH].
  - split; [assumption | split; reflexivity].
  - destruct (slide_wf b d b1 Hwf Hstep) as (Hwf1 & Hw1 & Hsol).
    destruct (IH Hwf1) as (Hwf2 & Hw2 & Hsol2).
    split; [assumption | split; congruence].
Qed.

(** C5. On a well-formed board, any sequence of legal slides leads to a
    well-formed board on which [solvable] has the value it had at the
    start. *)
Theorem C5_solvable_invariant (b : Board) (ds : list string) (b' : Board) :
  wf_board b -> slides b ds b' ->
  wf_board b' /\ solvable b' = solvable b.
Proof.
  intros Hwf Hs. destruct (slides_wf b ds b' Hwf Hs) as (Hwf' & _ & Hsol).
  split; assumption.
Qed.

(** Checking the data-model invariant on a concrete board. *)
Lemma wf_board_check (b : Board) :
  (1 <=? width b) = true ->
  bool_decide (Permutation (_board b) (py_range 0 (size b))) = true ->
  wf_board b.
Proof.
  intros Hw Hp. split; [apply Z.leb_le, Hw | exact (bool_decide_eq_true_1 _ Hp)].
Qed.

Lemma C3_solvable_witness :
  wf_board board_1
  /\ exists n, _board board_1 !! n = Some EMPTY_TILE
               /\ solvable board_1
                  = Ok (Z.even (inversions (empty_as (width board_1 * width board_1)
                                                     (_board board_1))
                                + corner_dist (width board_1) n)).
Proof.
  assert (H : wf_board board_1) by (apply wf_board_check; vm_compute; reflexivity).
  split; [exact H | exact (C3_solvable board_1 H)].
Defined.

Lemma C5_solvable_invariant_witness :
  wf_board board_1
  /\ slides board_1 [RIGHT; DOWN; LEFT] (mkBoard 3 [1;3;5;4;8;2;7;0;6])
  /\ wf_board (mkBoard 3 [1;3;5;4;8;2;7;0;6])
  /\ solvable (mkBoard 3 [1;3;5;4;8;2;7;0;6]) = solvable board_1.
Proof.
  assert (H : wf_board board_1) by (apply wf_board_check; vm_compute; reflexivity).
  assert (Hs : slides board_1 [RIGHT; DOWN; LEFT] (mkBoard 3 [1;3;5;4;8;2;7;0;6]))
    by (apply apply_moves_slides; vm_compute; reflexivity).
  split; [exact H|]. split; [exact Hs|].
  exact (C5_solvable_invariant board_1 [RIGHT; DOWN; LEFT] _ H Hs).
Defined.

(** ** The goal board *)

Section Goal.

Lemma py_range_cons (a b : Z) : a < b -> py_range a b = a :: py_range (a + 1) b.
Proof.
  intros Hab. unfold py_range.
  replace (Z.to_nat (b - a)) with (Datatypes.S (Z.to_nat (b - (a + 1)))) by lia.
  simpl. f_equal; [lia|].
  rewrite <- seq_shift, map_map. apply map_ext. intros k. lia.
Qed.

Lemma py_range_snoc (a b : Z) : a <= b -> py_range a (b + 1) = py_range a b ++ [b].
Proof.
  intros Hab. unfold py_range.
  replace (Z.to_nat (b + 1 - a)) with (Z.to_nat (b - a) + 1)%nat by lia.
  rewrite seq_app, map_app. simpl. do 2 f_equal. lia.
Qed.

Lemma py_range_sorted (a b : Z) : StronglySorted Z.le (py_range a b).
Proof.
  unfold py_range. generalize (Z.to_nat (b - a)) as k. intros k.
  generalize 0%nat as s. induction k as [|k IH]; intros s; simpl; constructor.
  - apply IH.
  - apply List.Forall_forall. intros v Hv. apply in_map_iff in Hv as (j & <- & Hj).
    apply in_seq in Hj. lia.
Qed.

Variable b : Board.
Hypothesis Hwf : wf_board b.

Let N := width b.

Lemma goal_cells : _board (goal b) = py_range 1 (N * N) ++ [EMPTY_TILE].
Proof.
  pose proof (wf_width b Hwf) as HN. fold N in HN.
  unfold goal. simpl. rewrite (wf_size b). fold N.
  rewrite py_range_snoc by nia. rewrite map_app. simpl.
  rewrite Z.eqb_refl. simpl. f_equal.
  rewrite <- (map_id (py_range 1 (N * N))) at 2.
  apply map_ext_in. intros v Hv. apply py_range_In in Hv.
  assert ((v =? N * N) = false) as -> by (apply Z.eqb_neq; lia). reflexivity.
Qed.

Lemma goal_width : width (goal b) = N.
Proof. reflexivity. Qed.

Lemma goal_wf : wf_board (goal b).
Proof.
  pose proof (wf_width b Hwf) as HN. fold N in HN.
  split; [exact HN|].
  rewrite goal_cells.
  change (size (goal b)) with (size b). rewrite (wf_size b). fold N.
  rewrite (py_range_cons 0 (N * N)) by nia. simpl.
  symmetry. apply Permutation_cons_append.
Qed.

Lemma goal_empty_position :
  _board (goal b) !! Z.to_nat (N * N - 1) = Some EMPTY_TILE.
Proof.
  pose proof (wf_width b Hwf) as HN. fold N in HN.
  rewrite goal_cells.
  replace (Z.to_nat (N * N - 1)) with (length (py_range 1 (N * N)) + 0)%nat
    by (rewrite py_range_length; lia).
  rewrite lookup_app_r by lia.
  replace (length (py_range 1 (N * N)) + 0 - length (py_range 1 (N * N)))%nat
    with 0%nat by lia.
  reflexivity.
Qed.

Lemma goal_solvable : solvable (goal b) = Ok true.
Proof.
  pose proof (wf_width b Hwf) as HN. fold N in HN.
  rewrite (solvable_wf (goal b) _ goal_wf goal_empty_position).
  rewrite goal_width. do 2 f_equal.
  replace (inversions_rec (empty_as (N * N) (_board (goal b)))) with 0.
  - unfold corner_dist. rewrite Z2Nat.id by nia.
    replace (N * N - 1) with (N * (N - 1) + (N - 1)) by lia.
    destruct (div_mod_grid N (N - 1) (N - 1)) as [-> ->]; [lia|].
    rewrite Z.sub_diag. reflexivity.
  - symmetry. apply inversions_sorted.
    rewrite goal_cells. unfold empty_as. rewrite map_app. simpl.
    rewrite (map_ext_in _ (fun v => v)), map_id.
    + rewrite <- py_range_snoc by nia. apply py_range_sorted.
    + intros v Hv. apply py_range_In in Hv. unfold EMPTY_TILE.
      assert ((v =? 0) = false) as -> by (apply Z.eqb_neq; lia). reflexivity.
Qed.

End Goal.

(** ** Items and successors of well-formed boards *)

Lemma Board_eq_true (a c : Board) :
  Board_eq a c = true -> width a = width c -> a = c.
Proof.
  unfold Board_eq, width. intros Hc Hw. apply bool_decide_eq_true_1 in Hc.
  destruct a, c. simpl in *. congruence.
Qed.

Lemma Item_eq_true (a c : Item) :
  Item_eq a c = true -> width (board a) = width (board c) -> a = c.
Proof.
  unfold Item_eq. intros H Hw. bool_lia.
  match goal with H : Board_eq _ _ = true |- _ => apply Board_eq_true in H; [|exact Hw] end.
  match goal with H : bool_decide _ = true |- _ => apply bool_decide_eq_true_1 in H end.
  destruct a, c. simpl in *. congruence.
Qed.

Lemma Item_eq_refl (a : Item) : Item_eq a a = true.
Proof.
  unfold Item_eq, Board_eq. rewrite !Z.eqb_refl, !bool_decide_eq_true_2; reflexivity.
Qed.

Lemma py_sum_ok (l : list (result Z)) :
  Forall (fun r => exists v, r = Ok v) l -> exists s, py_sum l = Ok s.
Proof.
  induction 1 as [|r l [v ->] _ [s IH]]; simpl.
  - exists 0. reflexivity.
  - rewrite IH. simpl. eexists. reflexivity.
Qed.

Lemma wf_x_y (b : Board) (t : Z) :
  wf_board b -> 0 <= t < width b * width b ->
  (exists v, x b t = Ok v) /\ (exists v, y b t = Ok v).
Proof.
  intros Hwf Ht.
  assert (Hin : In t (_board b)) by (apply (wf_In b Hwf); exact Ht).
  destruct (py_index_In _ _ Hin) as (n & Hidx & _).
  unfold x, y. rewrite (wf_valid_tile b t Ht), Hidx. simpl.
  split; eexists; reflexivity.
Qed.

Lemma sum_m_dists_wf (b c : Board) :
  wf_board b -> wf_board c -> width c = width b ->
  exists v, sum_m_dists b c = Ok v.
Proof.
  intros Hb Hc Hw. unfold sum_m_dists.
  assert (size b = size c) as Hsz by (rewrite (wf_size b), (wf_size c), Hw; reflexivity).
  rewrite Hsz, Z.eqb_refl. simpl. apply py_sum_ok.
  apply List.Forall_forall. intros r Hr.
  apply in_map_iff in Hr as (t & <- & Ht). apply py_range_In in Ht.
  rewrite <- Hsz, (wf_size b) in Ht.
  unfold m_dist. rewrite (wf_valid_tile b t) by lia. simpl.
  case_if; [eexists; reflexivity|].
  destruct (wf_x_y b t Hb) as [[sx ->] [sy ->]]; [lia|].
  destruct (wf_x_y c t Hc) as [[ox ->] [oy ->]]; [rewrite Hw; lia|].
  simpl. eexists. reflexivity.
Qed.

Lemma item_wf (goal_board : Board) (g0 : Z) (dir : option string) (b : Board) (p : Z) :
  wf_board b -> wf_board goal_board -> width goal_board = width b ->
  exists h0, item goal_board g0 dir b p = Ok (mkItem (g0 + h0) h0 g0 b dir p).
Proof.
  intros Hb Hg Hw. unfold item.
  destruct (sum_m_dists_wf b goal_board Hb Hg Hw) as [h0 ->]. simpl.
  exists h0. reflexivity.
Qed.

(** The value returned by [move_tile] does not depend on the mode. *)
Lemma move_tile_mode (b : Board) (d : string) (new : bool) (self' b' : Board) :
  move_tile b d new = Ok (self', Some b') ->
  move_tile b d true = Ok (b, Some b').
Proof.
  unfold move_tile.
  destruct (xy b EMPTY_TILE) as [[ox oy]|]; simpl; [|discriminate].
  destruct (shift_xy d ox oy) as [x' y'].
  case_if; [discriminate|].
  repeat match goal with
  | |- context [bind ?r _] => destruct r; simpl; [|discriminate]
  end.
  destruct new; intros [= _ <-]; reflexivity.
Qed.

Lemma successors_from_spec (b : Board) (dirs : list string) :
  wf_board b ->
  exists succs,
    successors_from b dirs = Ok succs
    /\ forall d b', (d, b') ∈ succs <->
                    d ∈ dirs /\ move_tile b d true = Ok (b, Some b').
Proof.
  intros Hwf. induction dirs as [|d dirs (succs & IH & Hsuccs)]; simpl.
  - exists []. split; [reflexivity|]. intros d b'. split.
    + intros H. inversion H.
    + intros [H _]. inversion H.
  - destruct (move_tile_wf b d true Hwf) as [Hoff | (b1 & Hon & _)].
    + rewrite Hoff, IH. simpl. exists succs. split; [reflexivity|].
      intros d' b'. rewrite Hsuccs, elem_of_cons. split.
      * intros [? ?]. split; [right|]; assumption.
      * intros [[-> | ?] Hm]; [congruence | split; assumption].
    + rewrite Hon, IH. simpl. exists ((d, b1) :: succs). split; [reflexivity|].
      intros d' b'. rewrite !elem_of_cons, Hsuccs. split.
      * intros [[= -> ->] | [? ?]]; [split; [left; reflexivity | exact Hon]|].
        split; [right|]; assumption.
      * intros [[-> | ?] Hm]; [left; congruence | right; split; assumption].
Qed.

(** Every legal slide leaves the board as it is or leads to one of its
    [successors]. *)
Lemma slide_successor (b : Board) (d : string) (b' : Board) (succs : list (string * Board)) :
  wf_board b -> successors b = Ok succs -> slide b d b' ->
  b' = b \/ (d, b') ∈ succs.
Proof.
  intros Hwf Hsuccs (new & self' & Hmove).
  apply move_tile_mode in Hmove.
  destruct (successors_from_spec b [UP; DOWN; LEFT; RIGHT] Hwf) as (succs' & Hs' & Hspec).
  unfold successors in Hsuccs. rewrite Hs' in Hsuccs. injection Hsuccs as <-.
  destruct (bool_decide (d ∈ [UP; DOWN; LEFT; RIGHT])) eqn:Hd.
  - right. apply Hspec. split; [apply bool_decide_eq_true_1 in Hd; exact Hd | exact Hmove].
  - left. apply bool_decide_eq_false_1 in Hd.
    assert (Hshift : forall u v, shift_xy d u v = (u, v)).
    { intros u v. unfold shift_xy.
      repeat match goal with
      | |- context [String.eqb d ?c] =>
          let E := fresh in destruct (String.eqb d c) eqn:E;
          [apply String.eqb_eq in E; exfalso; apply Hd; rewrite E;
           repeat (first [left; reflexivity | right]) |]
      end. reflexivity. }
    destruct (wf_empty_position b Hwf) as [n Hn].
    pose proof (wf_width b Hwf) as HN.
    pose proof (wf_length b Hwf) as Hlen.
    pose proof (lookup_lt_Some _ _ _ Hn) as Hnlt.
    assert (Hin : in_grid (width b) (Z.of_nat n mod width b) (Z.of_nat n / width b)).
    { split; [apply Z.mod_pos_bound; lia|].
      split; [apply Z.div_pos; lia | apply Z.div_lt_upper_bound; lia]. }
    destruct (move_tile_on b Hwf n Hn d true _ _ (Hshift _ _) Hin) as (v & Hv & Hon).
    rewrite <- Z.div_mod, Nat2Z.id in Hv, Hon by lia. simpl in Hon.
    rewrite Hon in Hmove. injection Hmove as <-.
    apply (exchanged_same b Hwf n n v Hn Hv eq_refl).
Qed.

Lemma successors_wf (b : Board) :
  wf_board b ->
  exists succs,
    successors b = Ok succs
    /\ forall d b', (d, b') ∈ succs ->
                    wf_board b' /\ width b' = width b /\ slide b d b'.
Proof.
  intros Hwf.
  destruct (successors_from_spec b [UP; DOWN; LEFT; RIGHT] Hwf) as (succs & Hs & Hspec).
  exists succs. split; [exact Hs|].
  intros d b' Hin. apply Hspec in Hin as [_ Hmove].
  assert (Hslide : slide b d b') by (exists true, b; exact Hmove).
  destruct (slide_wf b d b' Hwf Hslide) as (? & ? & _).
  split; [assumption|]. split; assumption.
Qed.

Lemma item_inv (goal_board : Board) (g0 : Z) (dir : option string) (b : Board) (p : Z)
  (it : Item) :
  item goal_board g0 dir b p = Ok it ->
  exists hv, it = mkItem (g0 + hv) hv g0 b dir p.
Proof.
  unfold item. destruct (sum_m_dists b goal_board) as [hv|]; simpl; [|discriminate].
  intros [= <-]. exists hv. reflexivity.
Qed.

(** ** The priority queue never fails on items with distinct boards *)

Lemma Item_lt_total (a c : Item) :
  cells_of a <> cells_of c -> exists r, Item_lt a c = Ok r.
Proof.
  intros Hne. unfold Item_lt.
  assert (Board_eq (board a) (board c) = false) as ->
    by (apply bool_decide_eq_false_2; exact Hne).
  simpl. repeat case_if; eexists; reflexivity.
Qed.

Lemma heap_min_spec (rest : list Item) :
  forall (best : Item) (bi i : nat),
    (forall it, it ∈ rest -> cells_of it <> cells_of best) ->
    NoDup (cells_of <$> rest) ->
    exists k, heap_min best bi i rest = Ok k
              /\ (k = bi \/ (i <= k < i + length rest)%nat).
Proof.
  induction rest as [|it rest IH]; intros best bi i Hbest Hnd; simpl.
  - exists bi. split; [reflexivity | left; reflexivity].
  - rewrite fmap_cons in Hnd. apply NoDup_cons in Hnd as [Hit Hnd].
    destruct (Item_lt_total it best) as [r ->]; [apply Hbest; left|]. simpl.
    destruct r.
    + destruct (IH it i (Datatypes.S i)) as (k & -> & Hk); [|exact Hnd|].
      * intros it' Hin Heq. apply Hit. rewrite <- Heq.
        apply list_elem_of_fmap. exists it'. split; [reflexivity | exact Hin].
      * exists k. split; [reflexivity|]. right. lia.
    + destruct (IH best bi (Datatypes.S i)) as (k & -> & Hk); [|exact Hnd|].
      * intros it' Hin. apply Hbest. right. exact Hin.
      * exists k. split; [reflexivity|]. destruct Hk; [left; assumption | right; lia].
Qed.

Lemma heappop_spec (q : list Item) :
  q <> [] -> NoDup (cells_of <$> q) ->
  exists m q', heappop q = Ok (m, q') /\ q ≡ₚ m :: q'.
Proof.
  intros Hne Hnd. destruct q as [|it rest]; [congruence|].
  unfold heappop.
  rewrite fmap_cons in Hnd. apply NoDup_cons in Hnd as [Hit Hnd].
  destruct (heap_min_spec rest it 0%nat 1%nat) as (k & -> & Hk); [|exact Hnd|].
  - intros it' Hin Heq. apply Hit. rewrite <- Heq.
    apply list_elem_of_fmap. exists it'. split; [reflexivity | exact Hin].
  - simpl bind.
    assert (Hlt : (k < length (it :: rest))%nat) by (simpl; lia).
    destruct (lookup_lt_is_Some_2 _ _ Hlt) as [m Hm]. rewrite Hm.
    exists m, (delete k (it :: rest)). split; [reflexivity|].
    apply delete_Permutation. exact Hm.
Qed.

(** ** The search loop on a well-formed start board *)

Section Search.

Variable self : Board.
Hypothesis Hwf : wf_board self.
Variable h0 : Z.

Local Abbreviation N := (width self).
Local Abbreviation G := (goal self).
Local Abbreviation s := (mkItem (0 + h0) h0 0 self None (-1)).

Lemma add_successors_spec (succs : list (string * Board)) :
  forall (st : solve_state) (g0 curr_idx : Z),
    st_ok self h0 st -> open_visited st -> 0 <= curr_idx < item_index st ->
    (forall d b', (d, b') ∈ succs -> wf_board b' /\ width b' = N) ->
    exists st' news,
      add_successors G g0 curr_idx succs st = Ok st'
      /\ st_ok self h0 st' /\ open_visited st'
      /\ open st' = open st ++ news
      /\ visited st ⊆ visited st'
      /\ (forall d b', (d, b') ∈ succs -> _board b' ∈ visited st')
      /\ (forall c, c ∈ visited st' -> c ∈ visited st \/ c ∈ cells_of <$> news)
      /\ card (visited st') = (card (visited st) + length news)%nat.
Proof.
  induction succs as [|[d b'] succs IH]; intros st g0 curr_idx Hok Hov Hidx Hsuccs.
  - exists st, []. simpl. rewrite app_nil_r.
    split; [reflexivity|]. split; [exact Hok|]. split; [exact Hov|].
    split; [reflexivity|]. split; [reflexivity|].
    split; [intros d b' Hin; inversion Hin|].
    split; [intros c Hc; left; exact Hc | lia].
  - simpl.
    assert (Hrest : forall d0 b0, (d0, b0) ∈ succs -> wf_board b0 /\ width b0 = N).
    { intros d0 b0 Hin. apply (Hsuccs d0 b0). right. exact Hin. }
    destruct (Hsuccs d b') as [Hb' Hw']; [left|].
    case_bool_decide as Hvis.
    + destruct (IH st g0 curr_idx Hok Hov Hidx Hrest)
        as (st' & news & -> & Hok' & Hov' & Hopen & Hsub & Hall & Hnew & Hsize).
      exists st', news.
      split; [reflexivity|]. split; [exact Hok'|]. split; [exact Hov'|].
      split; [exact Hopen|]. split; [exact Hsub|].
      split; [|split; assumption].
      intros d0 b0 Hin. apply elem_of_cons in Hin as [[= -> ->] | Hin].
      * apply Hsub, Hvis.
      * eapply Hall, Hin.
    + destruct (item_wf G g0 (Some d) b' curr_idx Hb' (goal_wf self Hwf))
        as [hv ->]; [rewrite Hw'; reflexivity|]. simpl bind.
      set (it := mkItem (g0 + hv) hv g0 b' (Some d) curr_idx).
      set (st1 := mkState _ _ _ _ _ _).
      destruct Hok as (Hdom & Htbl & Hrng & Hperm & Hsz & Hitems & Hnd).
      assert (Hok1 : st_ok self h0 st1).
      { unfold st_ok, st1; simpl.
        split; [|split; [|split; [|split; [|split; [|split]]]]].
        - intros i. rewrite lookup_insert_is_Some, Hdom. split.
          + intros [<- | [Hne Hi]]; lia.
          + intros Hi. destruct (decide (item_index st = i)) as [|Hne];
              [left; assumption | right; split; [assumption | lia]].
        - intros i it0 Hit0.
          apply lookup_insert_Some in Hit0 as [[<- <-] | [Hne Hit0]].
          + split; [exact Hw'|]. right. simpl. lia.
          + apply Htbl, Hit0.
        - intros k i Hk. apply lookup_insert_Some in Hk as [[_ <-] | [_ Hk]]; [lia|].
          apply Hrng in Hk. lia.
        - intros c Hc. apply elem_of_union in Hc as [Hc | Hc]; [apply Hperm, Hc|].
          apply elem_of_singleton in Hc as ->.
          rewrite <- Hw', <- (wf_size b'). apply Hb'.
        - rewrite size_union by (apply disjoint_singleton_r; exact Hvis).
          rewrite size_singleton. lia.
        - intros it0 Hin. unfold heappush in Hin.
          apply elem_of_app in Hin as [Hin | Hin].
          + destruct (Hitems it0 Hin) as (? & ? & ?).
            split; [assumption|]. split; [assumption|].
            apply lookup_insert_is_Some'. right. assumption.
          + apply list_elem_of_singleton in Hin as ->.
            split; [exact Hb'|]. split; [exact Hw'|].
            apply lookup_insert_is_Some'. left. reflexivity.
        - unfold heappush. rewrite fmap_app. apply NoDup_app. split; [exact Hnd|].
          split; [|apply NoDup_singleton].
          intros c Hc Hc'. apply list_elem_of_singleton in Hc' as ->.
          apply list_elem_of_fmap in Hc as (it0 & Heq & Hin).
          apply Hvis. change (_board b') with (cells_of it). rewrite Heq.
          apply Hov, Hin. }
      assert (Hov1 : open_visited st1).
      { intros it0 Hin. unfold st1, heappush in *; simpl in *.
        apply elem_of_app in Hin as [Hin | Hin].
        - destruct (Hov it0 Hin) as [Hc Hp].
          split; [apply elem_of_union; left; exact Hc | lia].
        - apply list_elem_of_singleton in Hin as ->.
          split; [|simpl; lia].
          apply elem_of_union; right. apply elem_of_singleton. reflexivity. }
      destruct (IH st1 g0 curr_idx Hok1 Hov1) as
        (st' & news & -> & Hok' & Hov' & Hopen & Hsub & Hall & Hnew & Hsize);
        [unfold st1; simpl; lia | exact Hrest |].
      exists st', (it :: news).
      unfold st1 in Hopen, Hsub, Hnew, Hsize; simpl in Hopen, Hsub, Hnew, Hsize.
      split; [reflexivity|]. split; [exact Hok'|]. split; [exact Hov'|].
      split; [rewrite Hopen; unfold heappush; rewrite <- app_assoc; reflexivity|].
      split; [intros c Hc; apply Hsub, elem_of_union; left; exact Hc|].
      split.
      { intros d0 b0 Hin. apply elem_of_cons in Hin as [[= -> ->] | Hin].
        - apply Hsub, elem_of_union. right. apply elem_of_singleton. reflexivity.
        - eapply Hall, Hin. }
      split.
      { intros c Hc. apply Hnew in Hc as [Hc | Hc].
        - apply elem_of_union in Hc as [Hc | Hc]; [left; exact Hc|].
          apply elem_of_singleton in Hc as ->. right. rewrite fmap_cons. left.
        - right. rewrite fmap_cons. right. exact Hc. }
      rewrite Hsize, size_union by (apply disjoint_singleton_r; exact Hvis).
      rewrite size_singleton. simpl. lia.
Qed.

(** The [for] loop keeps the parent links in order when the expanded
    item [p] sits in the table under [curr_idx]. *)
Lemma add_successors_links (succs : list (string * Board)) :
  forall (st st' : solve_state) (g0 curr_idx : Z) (p : Item),
    add_successors G g0 curr_idx succs st = Ok st' ->
    links_ok self h0 st ->
    (forall i, is_Some (item_by_idx st !! i) -> i < item_index st) ->
    item_by_idx st !! curr_idx = Some p ->
    (forall d b', (d, b') ∈ succs -> slide (board p) d b') ->
    links_ok self h0 st'.
Proof.
  induction succs as [|[d b'] succs IH];
    intros st st' g0 curr_idx p Hadd Hlinks Hfresh Hp Hsl; simpl in Hadd.
  - injection Hadd as <-. exact Hlinks.
  - assert (Hrest : forall d0 b0, (d0, b0) ∈ succs -> slide (board p) d0 b0)
      by (intros d0 b0 Hin; apply Hsl; right; exact Hin).
    case_bool_decide as Hvis; [exact (IH _ _ _ _ _ Hadd Hlinks Hfresh Hp Hrest)|].
    destruct (item G g0 (Some d) b' curr_idx) as [it|] eqn:Hit; simpl in Hadd;
      [|discriminate].
    apply item_inv in Hit as [hv ->].
    set (it := mkItem (g0 + hv) hv g0 b' (Some d) curr_idx) in *.
    assert (Hold : forall j x, item_by_idx st !! j = Some x ->
                   <[item_index st := it]> (item_by_idx st) !! j = Some x).
    { intros j x Hj. rewrite lookup_insert_ne; [exact Hj|].
      intros <-. assert (item_index st < item_index st); [|lia].
      apply Hfresh. eexists. exact Hj. }
    assert (Hstep : step_from p it).
    { exists d. split; [reflexivity|]. apply Hsl. left. }
    destruct Hlinks as (Htbl & Hidx & Hopen).
    refine (IH _ _ _ _ p Hadd _ _ (Hold _ _ Hp) Hrest).
    + split; [|split]; simpl.
      * intros i x Hi. apply lookup_insert_Some in Hi as [[<- <-] | [_ Hi]].
        -- right. exists p. split; [apply Hold, Hp | exact Hstep].
        -- destruct (Htbl i x Hi) as [? | (q & Hq & ?)]; [left; assumption|].
           right. exists q. split; [apply Hold, Hq | assumption].
      * intros k i Hk. apply lookup_insert_Some in Hk as [[<- <-] | [_ Hk]].
        -- exists it. split; [apply lookup_insert_eq | reflexivity].
        -- destruct (Hidx k i Hk) as (x & Hx & ?). exists x.
           split; [apply Hold, Hx | assumption].
      * intros x Hin. unfold heappush in Hin.
        apply elem_of_app in Hin as [Hin | Hin].
        -- destruct (Hopen x Hin) as [? | (q & Hq & ?)]; [left; assumption|].
           right. exists q. split; [apply Hold, Hq | assumption].
        -- apply list_elem_of_singleton in Hin as ->.
           right. exists p. split; [apply Hold, Hp | exact Hstep].
    + simpl. intros i Hi. apply lookup_insert_is_Some in Hi as [<- | [_ Hi]]; [lia|].
      apply Hfresh in Hi. lia.
Qed.

Lemma traceback_table (st : solve_state) :
  st_ok self h0 st -> links_ok self h0 st ->
  forall (k : nat) (i : Z) (it : Item),
    item_by_idx st !! i = Some it -> (Z.to_nat i <= k)%nat ->
    forall fuel, (k <= fuel)%nat ->
    exists path,
      traceback fuel (item_by_idx st) s it = Some (Ok (it :: path))
      /\ last (it :: path) = Some s /\ chain (it :: path).
Proof.
  intros (Hdom & Htbl & _) (Hlinks & _).
  induction k as [|k IH]; intros i it Hit Hi fuel Hfuel.
  - destruct (Htbl i it Hit) as [_ [[_ ->] | Hp]]; [|exfalso; clear - Hi Hp; lia].
    exists []. destruct fuel; simpl; rewrite Item_eq_refl; repeat split; reflexivity.
  - destruct (Htbl i it Hit) as [Hw Hcase].
    destruct (Item_eq it s) eqn:Heq.
    + apply Item_eq_true in Heq; [|exact Hw]. subst it.
      exists []. destruct fuel; simpl; rewrite Item_eq_refl; repeat split; reflexivity.
    + destruct Hcase as [[_ ->] | Hp]; [rewrite Item_eq_refl in Heq; discriminate|].
      destruct fuel as [|fuel]; [exfalso; clear - Hi Hp Hfuel; lia|]. simpl. rewrite Heq.
      destruct (Hlinks i it Hit) as [[_ ->] | (p & Hparent & Hstep)];
        [rewrite Item_eq_refl in Heq; discriminate|].
      rewrite Hparent.
      destruct (IH (parent_index it) p Hparent) with (fuel := fuel)
        as (path & -> & Hlast & Hchain); [lia | lia |].
      exists (p :: path). split; [reflexivity|]. split; [exact Hlast|].
      split; [exact Hstep | exact Hchain].
Qed.

Lemma traceback_open (st : solve_state) (curr : Item) (fuel : nat) :
  st_ok self h0 st -> links_ok self h0 st ->
  width (board curr) = N ->
  curr ∈ open st ->
  curr = s \/ 0 <= parent_index curr < item_index st ->
  (Z.to_nat (item_index st) <= fuel)%nat ->
  exists path,
    traceback fuel (item_by_idx st) s curr = Some (Ok (curr :: path))
    /\ last (curr :: path) = Some s /\ chain (curr :: path).
Proof.
  intros Hok Hlinks Hw Hin Hcase Hfuel.
  destruct (Item_eq curr s) eqn:Heq.
  - apply Item_eq_true in Heq; [|exact Hw]. subst curr.
    exists []. destruct fuel; simpl; rewrite Item_eq_refl; repeat split; reflexivity.
  - destruct Hcase as [-> | Hp]; [rewrite Item_eq_refl in Heq; discriminate|].
    destruct fuel as [|fuel]; [exfalso; lia|]. simpl. rewrite Heq.
    destruct (proj2 (proj2 Hlinks) curr Hin) as [-> | (p & Hparent & Hstep)];
      [rewrite Item_eq_refl in Heq; discriminate|].
    rewrite Hparent.
    destruct (traceback_table st Hok Hlinks (Z.to_nat (parent_index curr)) _ p Hparent)
      with (fuel := fuel) as (path & -> & Hlast & Hchain); [lia | lia |].
    exists (p :: path). split; [reflexivity|]. split; [exact Hlast|].
    split; [exact Hstep | exact Hchain].
Qed.

Lemma end_board_snoc (moves : list Move) :
  forall b m, end_board b (moves ++ [m]) = move_board m.
Proof. induction moves as [|m0 moves IH]; intros b m; simpl; [reflexivity | apply IH]. Qed.

Lemma legal_path_snoc (moves : list Move) :
  forall b m,
    legal_path b moves ->
    (exists d, move_direction m = Some d /\ slide (end_board b moves) d (move_board m)) ->
    legal_path b (moves ++ [m]).
Proof.
  induction moves as [|m0 moves IH]; intros b m Hl Hm; simpl in *.
  - split; [exact Hm | exact I].
  - destruct Hl as [H0 Hl]. split; [exact H0 | apply IH; assumption].
Qed.

(** Read from its end, a chain of items is a path of legal slides. *)
Lemma chain_rev (l : list Item) :
  forall x z, chain (x :: l) -> last (x :: l) = Some z ->
    exists rest,
      rev (map (fun it => mkMove (direction it) (board it)) (x :: l))
      = mkMove (direction z) (board z) :: rest
      /\ legal_path (board z) rest
      /\ end_board (board z) rest = board x.
Proof.
  induction l as [|p l IH]; intros x z Hchain Hlast.
  - injection Hlast as <-. exists []. repeat split; reflexivity.
  - destruct Hchain as [Hstep Hchain].
    destruct (IH p z Hchain) as (rest & Hrev & Hlegal & Hend);
      [rewrite <- Hlast; reflexivity|].
    exists (rest ++ [mkMove (direction x) (board x)]).
    split; [|split].
    + change (map _ (x :: p :: l)) with
        (mkMove (direction x) (board x)
         :: map (fun it => mkMove (direction it) (board it)) (p :: l)).
      cbn [rev]. rewrite Hrev. reflexivity.
    + apply legal_path_snoc; [exact Hlegal|]. rewrite Hend. exact Hstep.
    + apply end_board_snoc.
Qed.

Lemma visited_bound (st : solve_state) :
  st_ok self h0 st -> (card (visited st) <= card (universe self))%nat.
Proof.
  intros (_ & _ & _ & Hperm & _). apply subseteq_size.
  intros c Hc. apply elem_of_list_to_set, permutations_Permutation.
  symmetry. apply Hperm, Hc.
Qed.

Lemma last_rev_map {A B : Type} (fn : A -> B) (a : A) (l : list A) :
  last (rev (map fn (a :: l))) = Some (fn a).
Proof. simpl. apply last_snoc. Qed.

(** One iteration: it returns a good result or leaves a state that
    satisfies the invariants again, with a smaller measure. *)
Lemma solve_iter_spec (st : solve_state) (C : gset (list Z)) (fuel : nat) :
  st_ok self h0 st -> links_ok self h0 st ->
  start_or_visited self h0 st -> closed_ok self st C -> open st <> [] ->
  (Z.to_nat (item_index st) <= fuel)%nat ->
  (exists r, solve_iter fuel G s st = Some (Ok (Return r)) /\ good_result self r)
  \/ (exists st' C',
        solve_iter fuel G s st = Some (Ok (Continue st'))
        /\ st_ok self h0 st' /\ links_ok self h0 st'
        /\ open_visited st' /\ closed_ok self st' C'
        /\ (measure self st' < measure self st)%nat).
Proof.
  intros Hok Hlinks Hsv Hcl Hne Hfuel.
  pose proof Hok as (Hdom & Htbl & Hrng & Hperm & Hsz & Hitems & Hnd).
  destruct (heappop_spec (open st) Hne Hnd) as (curr & q' & Hpop & HP).
  assert (Hcurr_in : curr ∈ open st) by (rewrite HP; left).
  destruct (Hitems curr Hcurr_in) as (Hcwf & Hcw & [curr_idx Hcidx]).
  assert (Hq' : forall it, it ∈ q' -> it ∈ open st)
    by (intros it Hin; rewrite HP; right; exact Hin).
  assert (Hmem : forall c, c ∈ cells_of <$> open st ->
                           c = cells_of curr \/ c ∈ cells_of <$> q').
  { intros c Hc. rewrite HP, fmap_cons in Hc. apply elem_of_cons in Hc. exact Hc. }
  unfold solve_iter. rewrite Hpop, Hcidx.
  destruct (Board_eq (board curr) G) eqn:Hgoal.
  - (* the goal has been popped *)
    left.
    assert (Hcase : curr = s \/ 0 <= parent_index curr < item_index st).
    { destruct Hsv as [Hov | Hone]; [right; apply Hov, Hcurr_in|].
      left. rewrite Hone in Hcurr_in. apply list_elem_of_singleton in Hcurr_in.
      exact Hcurr_in. }
    destruct (traceback_open st curr fuel Hok Hlinks Hcw Hcurr_in Hcase Hfuel)
      as (path & -> & Hlast & Hchain).
    assert (Htail : last (rev (map (fun it => mkMove (direction it) (board it))
                                   (curr :: path)))
                    = Some (mkMove (direction curr) G)).
    { rewrite last_rev_map. do 2 f_equal.
      apply Board_eq_true; [exact Hgoal | exact Hcw]. }
    destruct (chain_rev path curr s Hchain Hlast) as (rest & Hrev & Hlegal & _).
    rewrite Hrev in Htail |- *. simpl in Hrev, Hlegal, Htail |- *.
    destruct (max_queue_length st) as [mq|]; eexists; (split; [reflexivity|]);
      exists rest, (direction curr); (split; [|split; assumption]).
    + right. exists mq. reflexivity.
    + left. reflexivity.
  - (* the popped board is expanded *)
    right.
    destruct (successors_wf (board curr) Hcwf) as (succs & Hsuccs & Hsuccs_wf).
    rewrite Hsuccs.
    set (st1 := mkState q' (item_by_idx st) (idx_by_item st) (visited st)
                        (item_index st) (max_queue_length st)).
    assert (Hnd' : NoDup (cells_of <$> q')).
    { rewrite HP, fmap_cons in Hnd. apply NoDup_cons in Hnd. apply Hnd. }
    assert (Hok1 : st_ok self h0 st1).
    { unfold st_ok, st1; simpl.
      split; [exact Hdom|]. split; [exact Htbl|]. split; [exact Hrng|].
      split; [exact Hperm|]. split; [exact Hsz|]. split; [|exact Hnd'].
      intros it Hin. apply Hitems, Hq', Hin. }
    assert (Hov1 : open_visited st1).
    { intros it Hin. unfold st1 in *; simpl in *.
      destruct Hsv as [Hov | Hone]; [apply Hov, Hq', Hin|].
      exfalso. rewrite Hone in HP.
      apply Permutation_singleton_l in HP. injection HP as _ <-. inversion Hin. }
    assert (Hcidx_rng : 0 <= curr_idx < item_index st1) by (eapply Hrng, Hcidx).
    assert (Hsuccs_N : forall d b', (d, b') ∈ succs -> wf_board b' /\ width b' = N).
    { intros d b' Hin. destruct (Hsuccs_wf d b' Hin) as (? & Hw & _).
      split; [assumption | rewrite Hw; exact Hcw]. }
    destruct (add_successors_spec succs st1 (g curr + 1) curr_idx Hok1 Hov1 Hcidx_rng
                Hsuccs_N)
      as (st2 & news & Hadd & Hok2 & Hov2 & Hopen2 & Hsub2 & Hall2 & Hnew2 & Hsize2).
    assert (Hlinks2 : links_ok self h0 st2).
    { destruct Hlinks as (Hl1 & Hl2 & Hl3).
      destruct (Hl2 _ _ Hcidx) as (p & Hp & Hkey).
      assert (Hpb : board p = board curr).
      { destruct (Htbl _ _ Hp) as [Hpw _].
        injection Hkey as _ _ _ Hcells _ _.
        destruct (board p), (board curr). unfold width in *. simpl in *. congruence. }
      apply (add_successors_links succs st1 st2 (g curr + 1) curr_idx p Hadd).
      - split; [exact Hl1|]. split; [exact Hl2|].
        intros it Hin. apply Hl3, Hq', Hin.
      - intros i Hi. apply Hdom in Hi. unfold st1; simpl. lia.
      - exact Hp.
      - intros d b' Hin. rewrite Hpb. apply (Hsuccs_wf d b' Hin). }
    rewrite Hadd.
    unfold st1 in Hopen2, Hsub2, Hnew2, Hsize2;
      simpl in Hopen2, Hsub2, Hnew2, Hsize2.
    pose proof (visited_bound st2 Hok2) as Hbound.
    destruct st2 as [open2 tbl2 idx2 vis2 index2 mq2]. simpl in *.
    eexists _, (C ∪ {[cells_of curr]}).
    split; [reflexivity|]. split; [exact Hok2|]. split; [exact Hlinks2|].
    split; [exact Hov2|].
    split.
    + (* the closed boards *)
      destruct Hcl as (Hstart & Hvis & Hclosed). unfold closed_ok; simpl.
      assert (Hkeep : forall c, c ∈ C \/ c ∈ cells_of <$> open st ->
                      c ∈ C ∪ {[cells_of curr]} \/ c ∈ cells_of <$> open2).
      { intros c [Hc | Hc]; [left; apply elem_of_union; left; exact Hc|].
        apply Hmem in Hc as [-> | Hc].
        - left. apply elem_of_union. right. apply elem_of_singleton. reflexivity.
        - right. rewrite Hopen2, fmap_app. apply elem_of_app. left. exact Hc. }
      split; [apply Hkeep, Hstart|]. split.
      * intros c Hc. apply Hnew2 in Hc as [Hc | Hc]; [apply Hkeep, Hvis, Hc|].
        right. rewrite Hopen2, fmap_app. apply elem_of_app. right. exact Hc.
      * intros c Hc. apply elem_of_union in Hc as [Hc | Hc].
        -- destruct (Hclosed c Hc) as [Hng Hsl]. split; [exact Hng|].
           intros d b' Hslide. destruct (Hsl d b' Hslide) as [Hv | He];
             [left; apply Hsub2, Hv | right; exact He].
        -- apply elem_of_singleton in Hc as ->. split.
           ++ intros Heq. unfold Board_eq in Hgoal.
              apply bool_decide_eq_false_1 in Hgoal. apply Hgoal, Heq.
           ++ intros d b' Hslide.
              assert (Hb : mkBoard N (cells_of curr) = board curr).
              { unfold cells_of. rewrite <- Hcw. destruct (board curr). reflexivity. }
              rewrite Hb in Hslide.
              destruct (slide_successor _ _ _ _ Hcwf Hsuccs Hslide) as [-> | Hin];
                [right; reflexivity | left; eapply Hall2, Hin].
    + (* the measure *)
      unfold measure; simpl. rewrite Hopen2, length_app, Hsize2.
      pose proof (Permutation_length HP) as Hlen. simpl in Hlen.
      rewrite Hsize2 in Hbound. clear - Hlen Hbound. lia.
Qed.

Lemma closed_all (st : solve_state) (C : gset (list Z)) :
  closed_ok self st C -> open st = [] ->
  forall b ds b', slides b ds b' ->
    wf_board b -> width b = N -> _board b ∈ C -> _board b' ∈ C.
Proof.
  intros (_ & Hvis & Hclosed) Hopen b ds b' Hs.
  induction Hs as [b | b d b1 ds b2 Hstep _ IH]; intros Hb Hw Hc; [exact Hc|].
  destruct (slide_wf b d b1 Hb Hstep) as (Hb1 & Hw1 & _).
  apply IH; [exact Hb1 | congruence |].
  destruct (Hclosed _ Hc) as [_ Hsl].
  assert (Hrec : mkBoard N (_board b) = b) by (rewrite <- Hw; destruct b; reflexivity).
  destruct (Hsl d b1) as [Hv | ->]; [rewrite Hrec; exact Hstep | | exact Hc].
  destruct (Hvis _ Hv) as [HC | Hq]; [exact HC|].
  rewrite Hopen in Hq. inversion Hq.
Qed.

Variable ds : list string.
Hypothesis Hreach : slides self ds G.

(** With enough fuel the loop returns a good result. *)
Lemma solve_loop_spec :
  forall (k : nat) (st : solve_state) (C : gset (list Z)) (fuel : nat),
    st_ok self h0 st -> links_ok self h0 st ->
    start_or_visited self h0 st -> closed_ok self st C ->
    (measure self st < k)%nat -> (k + card (universe self) + 1 <= fuel)%nat ->
    exists r, solve_loop fuel G s st = Some (Ok r) /\ good_result self r.
Proof.
  induction k as [|k IH]; intros st C fuel Hok Hlinks Hsv Hcl Hm Hfuel; [lia|].
  destruct (open st) as [|it0 q] eqn:Hopen.
  - exfalso.
    destruct Hcl as (Hstart & Hvis & Hclosed).
    assert (HsC : _board self ∈ C).
    { destruct Hstart as [? | Hq]; [assumption|]. rewrite Hopen in Hq. inversion Hq. }
    assert (HgC : _board G ∈ C).
    { apply (closed_all st C (conj Hstart (conj Hvis Hclosed)) Hopen self ds G Hreach);
        [exact Hwf | reflexivity | exact HsC]. }
    destruct (Hclosed _ HgC) as [Hne _]. apply Hne. reflexivity.
  - destruct fuel as [|fuel]; [lia|].
    assert (Hidx : (Z.to_nat (item_index st) <= fuel)%nat).
    { pose proof (visited_bound st Hok) as Hb.
      destruct Hok as (_ & _ & _ & _ & Hsz & _). rewrite Hsz. clear - Hb Hfuel. lia. }
    assert (Hne : open st <> []) by (rewrite Hopen; discriminate).
    simpl. rewrite Hopen.
    destruct (solve_iter_spec st C fuel Hok Hlinks Hsv Hcl Hne Hidx)
      as [(r & -> & Hr) | (st' & C' & -> & Hok' & Hlinks' & Hov' & Hcl' & Hm')].
    + exists r. split; [reflexivity | exact Hr].
    + apply (IH st' C' fuel Hok' Hlinks' (or_introl Hov') Hcl'); [|clear - Hfuel; lia].
      clear - Hm Hm'. lia.
Qed.

End Search.

(** ** C2: what [solve] returns *)

Lemma solve_returns (self : Board) (ignore_warning give_max : bool) (ds : list string) :
  wf_board self ->
  slides self ds (goal self) ->
  ignore_warning = true \/ width self <= 3 ->
  exists fuel0,
    forall fuel, (fuel0 <= fuel)%nat ->
    exists r, solve fuel self ignore_warning give_max = Some (Ok r)
              /\ good_result self r.
Proof.
  intros Hwf Hreach Hguard.
  assert (Hsolv : solvable self = Ok true).
  { destruct (slides_wf self ds (goal self) Hwf Hreach) as (_ & _ & <-).
    apply goal_solvable, Hwf. }
  destruct (item_wf (goal self) 0 None self (-1) Hwf (goal_wf self Hwf) eq_refl)
    as [h0 Hitem].
  set (s := mkItem (0 + h0) h0 0 self None (-1)) in *.
  set (st0 := mkState (heappush [] s) (<[0 := s]> ∅) (<[item_key s := 0]> ∅) ∅ 1
                      (if give_max then Some (Z.of_nat (length (heappush [] s)))
                       else None)).
  exists (Datatypes.S (measure self st0) + stdpp.base.size (universe self) + 1)%nat.
  intros fuel Hfuel. unfold solve. rewrite Hsolv.
  assert (negb ignore_warning && ((width self >? 3) || (height self >? 3)) = false) as ->.
  { destruct Hguard as [-> | Hw]; [reflexivity|].
    apply andb_false_iff. right. apply orb_false_iff.
    unfold height, width in *. rewrite !Z.gtb_ltb, !Z.ltb_ge. lia. }
  unfold solve_init. rewrite Hitem. simpl bind. fold s. fold st0.
  apply (solve_loop_spec self Hwf h0 ds Hreach (Datatypes.S (measure self st0)) st0 ∅);
    [| | | | lia | exact Hfuel].
  - unfold st_ok, st0; simpl.
    split; [|split; [|split; [|split; [|split; [|split]]]]].
    + intros i. rewrite lookup_insert_is_Some, lookup_empty. split.
      * intros [<- | [_ [? ?]]]; [lia | discriminate].
      * intros Hi. left. lia.
    + intros i it Hit. apply lookup_insert_Some in Hit as [[<- <-] | [_ Hit]].
      * split; [reflexivity | left; split; reflexivity].
      * rewrite lookup_empty in Hit. discriminate.
    + intros k i Hk. apply lookup_insert_Some in Hk as [[_ <-] | [_ Hk]]; [lia|].
      rewrite lookup_empty in Hk. discriminate.
    + intros c Hc. apply not_elem_of_empty in Hc. destruct Hc.
    + reflexivity.
    + intros it Hin. apply list_elem_of_singleton in Hin as ->.
      split; [exact Hwf|]. split; [reflexivity|].
      apply lookup_insert_is_Some'. left. reflexivity.
    + apply NoDup_singleton.
  - unfold links_ok, st0; simpl. split; [|split].
    + intros i it Hit. apply lookup_insert_Some in Hit as [[<- <-] | [_ Hit]].
      * left. split; reflexivity.
      * rewrite lookup_empty in Hit. discriminate.
    + intros k i Hk. apply lookup_insert_Some in Hk as [[<- <-] | [_ Hk]].
      * exists s. split; [apply lookup_insert_eq | reflexivity].
      * rewrite lookup_empty in Hk. discriminate.
    + intros it Hin. apply list_elem_of_singleton in Hin as ->. left. reflexivity.
  - right. reflexivity.
  - unfold closed_ok, st0; simpl. split; [right; left|]. split.
    + intros c Hc. apply not_elem_of_empty in Hc. destruct Hc.
    + intros c Hc. apply not_elem_of_empty in Hc. destruct Hc.
Qed.

(** C2. The docstring of [solve] and the claim put the next move to make
    at index 0 of the returned list.  On [board_0], a board that
    [solvable] accepts, the list [solve] returns has at index 0 the start
    board itself under direction [None]: no move has been applied to it,
    and the first move comes at index 1.  The last element holds the goal
    board, as the claim says. *)
Lemma C2_first_is_start :
  solvable board_0 = Ok true
  /\ exists path,
       solve 10 board_0 false false = Some (Ok (RetPath path))
       /\ head path = Some (mkMove None board_0)
       /\ ~ (exists d b', head path = Some (mkMove (Some d) b') /\ slide board_0 d b')
       /\ path !! 1%nat = Some (mkMove (Some RIGHT) (mkBoard 3 [1;2;3;4;5;6;7;0;8]))
       /\ move_tile board_0 RIGHT true
          = Ok (board_0, Some (mkBoard 3 [1;2;3;4;5;6;7;0;8]))
       /\ last path = Some (mkMove (Some RIGHT) (goal board_0)).
Proof.
  split; [vm_compute; reflexivity|].
  exists [mkMove None board_0;
          mkMove (Some RIGHT) (mkBoard 3 [1;2;3;4;5;6;7;0;8]);
          mkMove (Some RIGHT) (mkBoard 3 [1;2;3;4;5;6;7;8;0])].
  split; [vm_compute; reflexivity|]. split; [reflexivity|].
  split; [intros (d & b' & Hhead & _); discriminate Hhead|].
  split; [reflexivity|]. split; vm_compute; reflexivity.
Qed.

(** When legal slides lead from a well-formed start board to the goal,
    inside the size guard or with the guard overridden, [solve] returns
    (for all fuel from some amount on) a list whose first element is the
    start board under direction [None]; the elements after it are legal
    slides, each applied to the board of the element before, and the last
    element holds the goal board. *)
Lemma solve_reaches_goal (self : Board) (ignore_warning give_max : bool)
  (ds : list string) :
  wf_board self ->
  slides self ds (goal self) ->
  ignore_warning = true \/ width self <= 3 ->
  exists fuel0,
    forall fuel, (fuel0 <= fuel)%nat ->
    exists path d,
      returned_path (solve fuel self ignore_warning give_max) = Some path
      /\ head path = Some (mkMove None self)
      /\ legal_path self (tail path)
      /\ last path = Some (mkMove d (goal self)).
Proof.
  intros Hwf Hreach Hguard.
  destruct (solve_returns self ignore_warning give_max ds Hwf Hreach Hguard)
    as [fuel0 Hfuel0].
  exists fuel0. intros fuel Hfuel.
  destruct (Hfuel0 fuel Hfuel) as (r & Hsolve & rest & d & Hr & Hlegal & Hlast).
  exists (mkMove None self :: rest), d. rewrite Hsolve.
  split; [destruct Hr as [-> | [m ->]]; reflexivity|].
  split; [reflexivity|]. split; assumption.
Qed.

(** * Further properties of the board *)

(** ** The goal board *)

(** X1. The goal of a well-formed board is a well-formed board of the same
    width whose cells are 1, 2, ..., N*N-1, 0; it is [solved] and
    [solvable]. *)
Theorem X1_goal_board (b : Board) :
  wf_board b ->
  wf_board (goal b)
  /\ width (goal b) = width b
  /\ _board (goal b) = py_range 1 (width b * width b) ++ [EMPTY_TILE]
  /\ solved (goal b) = true
  /\ solvable (goal b) = Ok true.
Proof.
  intros Hwf.
  split; [apply goal_wf, Hwf|]. split; [reflexivity|].
  split; [apply goal_cells, Hwf|]. split; [|apply goal_solvable, Hwf].
  unfold solved, Board_eq. apply bool_decide_eq_true_2. reflexivity.
Qed.

Lemma X1_goal_board_witness :
  wf_board board_1
  /\ wf_board (goal board_1)
  /\ width (goal board_1) = width board_1
  /\ _board (goal board_1) = py_range 1 (width board_1 * width board_1) ++ [EMPTY_TILE]
  /\ solved (goal board_1) = true
  /\ solvable (goal board_1) = Ok true.
Proof.
  assert (H : wf_board board_1) by (apply wf_board_check; vm_compute; reflexivity).
  split; [exact H | exact (X1_goal_board board_1 H)].
Defined.

(** ** Coordinates *)

(** X2. On a well-formed board every tile 0 .. N*N-1 has a column and a row
    inside the grid, [xy] pairs what [x] and [y] return, and the cell that
    [xy_to_idx] gives for them holds the tile. *)
Theorem X2_xy_round_trip (b : Board) (t : Z) :
  wf_board b -> 0 <= t < width b * width b ->
  exists cx cy,
    x b t = Ok cx /\ y b t = Ok cy /\ xy b t = Ok (cx, cy)
    /\ 0 <= cx < width b /\ 0 <= cy < height b
    /\ py_getitem (_board b) (xy_to_idx b cx cy) = Ok t.
Proof.
  intros Hwf Ht.
  assert (Hin : In t (_board b)) by (apply (wf_In b Hwf); exact Ht).
  destruct (py_index_In _ _ Hin) as (n & Hidx & Hn).
  pose proof (wf_width b Hwf) as HN.
  pose proof (wf_length b Hwf) as Hlen.
  pose proof (lookup_lt_Some _ _ _ Hn) as Hnlt.
  pose proof (wf_xy b Hwf n t Hn) as Hxy.
  exists (Z.of_nat n mod width b), (Z.of_nat n / width b).
  assert (Hx : x b t = Ok (Z.of_nat n mod width b)).
  { unfold x. rewrite (wf_valid_tile b t Ht), Hidx. reflexivity. }
  assert (Hy : y b t = Ok (Z.of_nat n / width b)).
  { unfold y. rewrite (wf_valid_tile b t Ht), Hidx. simpl.
    destruct (Z.of_nat n =? 0) eqn:E; [|reflexivity].
    apply Z.eqb_eq in E. rewrite E. reflexivity. }
  split; [exact Hx|]. split; [exact Hy|]. split; [exact Hxy|].
  split; [apply Z.mod_pos_bound; lia|].
  split.
  - unfold height. fold (width b).
    split; [apply Z.div_pos; lia | apply Z.div_lt_upper_bound; lia].
  - unfold xy_to_idx. rewrite <- Z.div_mod by lia.
    apply py_getitem_lookup, Hn.
Qed.

Lemma X2_xy_round_trip_witness :
  wf_board board_1 /\ 0 <= 8 < width board_1 * width board_1
  /\ exists cx cy,
       x board_1 8 = Ok cx /\ y board_1 8 = Ok cy /\ xy board_1 8 = Ok (cx, cy)
       /\ 0 <= cx < width board_1 /\ 0 <= cy < height board_1
       /\ py_getitem (_board board_1) (xy_to_idx board_1 cx cy) = Ok 8.
Proof.
  assert (H : wf_board board_1) by (apply wf_board_check; vm_compute; reflexivity).
  assert (Ht : 0 <= 8 < width board_1 * width board_1) by (unfold width; simpl; lia).
  split; [exact H|]. split; [exact Ht|].
  exact (X2_xy_round_trip board_1 8 H Ht).
Defined.

(** X3. A tile number outside 0 .. size-1 makes [x], [y], [xy] and [m_dist]
    raise the assertion error, whatever the board holds; a tile number in
    that range that is not on the board makes [x], [y] and [xy] raise the
    value error of [index]. *)
Theorem X3_tile_errors (b other : Board) (t : Z) (count_free_tile : bool) :
  (~ (0 <= t < size b) ->
   x b t = Raise AssertionError /\ y b t = Raise AssertionError
   /\ xy b t = Raise AssertionError
   /\ m_dist b other t count_free_tile = Raise AssertionError)
  /\ (0 <= t < size b -> ~ In t (_board b) ->
      x b t = Raise ValueError /\ y b t = Raise ValueError
      /\ xy b t = Raise ValueError).
Proof.
  assert (Hidx : forall l, ~ In t l -> py_index t l = Raise ValueError).
  { induction l as [|a l IH]; intros Hnin; [reflexivity|]. simpl.
    assert ((a =? t) = false) as -> by (apply Z.eqb_neq; intros ->; apply Hnin; left; reflexivity).
    rewrite IH; [reflexivity|]. intros Hin. apply Hnin. right. exact Hin. }
  split.
  - intros Hout.
    assert (Hv : _valid_tile_num b t = Raise AssertionError).
    { unfold _valid_tile_num.
      assert ((-1 <? t) && (t <? size b) = false) as ->; [|reflexivity].
      apply andb_false_iff. rewrite !Z.ltb_ge. lia. }
    unfold xy, x, y, m_dist. rewrite Hv. repeat split; reflexivity.
  - intros Hin Hnin.
    assert (Hv : _valid_tile_num b t = Ok true).
    { unfold _valid_tile_num.
      assert ((-1 <? t) && (t <? size b) = true) as ->; [|reflexivity].
      apply andb_true_iff. rewrite !Z.ltb_lt. lia. }
    unfold xy, x, y. rewrite Hv, (Hidx _ Hnin). repeat split; reflexivity.
Qed.

Lemma X3_tile_errors_witness :
  (x board_1 9 = Raise AssertionError /\ y board_1 9 = Raise AssertionError
   /\ xy board_1 9 = Raise AssertionError
   /\ m_dist board_1 board_0 9 true = Raise AssertionError)
  /\ (x (mkBoard 2 [1;2;5;0]) 3 = Raise ValueError
      /\ y (mkBoard 2 [1;2;5;0]) 3 = Raise ValueError
      /\ xy (mkBoard 2 [1;2;5;0]) 3 = Raise ValueError).
Proof.
  split.
  - apply (proj1 (X3_tile_errors board_1 board_0 9 true)).
    unfold size; simpl; lia.
  - apply (proj2 (X3_tile_errors (mkBoard 2 [1;2;5;0]) board_0 3 true)).
    + unfold size; simpl; lia.
    + simpl. intros [H | [H | [H | [H | []]]]]; discriminate H.
Defined.

(** ** Moves *)

(** X4. The two modes of [move_tile] compute the same thing: the copy mode
    never changes the receiver, and the in-place mode fails, returns [None]
    or returns a board exactly when the copy mode does, the receiver then
    being the returned board. *)
Theorem X4_move_tile_modes (b : Board) (d : string) :
  (forall self' r, move_tile b d true = Ok (self', r) -> self' = b)
  /\ move_tile b d false
     = match move_tile b d true with
       | Ok (_, Some b') => Ok (b', Some b')
       | Ok (_, None) => Ok (b, None)
       | Raise e => Raise e
       end.
Proof.
  unfold move_tile.
  destruct (xy b EMPTY_TILE) as [[ox oy]|]; simpl; [|split; [discriminate | reflexivity]].
  destruct (shift_xy d ox oy) as [x' y'].
  case_if; [split; [intros ? ? [= <- _]; reflexivity | reflexivity]|].
  repeat match goal with
  | |- context [bind ?r _] =>
      destruct r; simpl; [|split; [discriminate | reflexivity]]
  end.
  split; [intros ? ? [= <- _]; reflexivity | reflexivity].
Qed.

Lemma move_tile_other (b : Board) (d : string) (new : bool) :
  wf_board b ->
  ~ In d [UP; DOWN; LEFT; RIGHT] ->
  move_tile b d new = Ok (b, Some b).
Proof.
  intros Hwf Hd.
  assert (Hshift : forall u v, shift_xy d u v = (u, v)).
  { intros u v. unfold shift_xy.
    repeat match goal with
    | |- context [String.eqb d ?c] =>
        let E := fresh in destruct (String.eqb d c) eqn:E;
        [apply String.eqb_eq in E; exfalso; apply Hd; rewrite E; simpl; tauto |]
    end. reflexivity. }
  destruct (wf_empty_position b Hwf) as [n Hn].
  pose proof (wf_width b Hwf) as HN.
  pose proof (wf_length b Hwf) as Hlen.
  pose proof (lookup_lt_Some _ _ _ Hn) as Hnlt.
  assert (Hin : in_grid (width b) (Z.of_nat n mod width b) (Z.of_nat n / width b)).
  { split; [apply Z.mod_pos_bound; lia|].
    split; [apply Z.div_pos; lia | apply Z.div_lt_upper_bound; lia]. }
  destruct (move_tile_on b Hwf n Hn d new _ _ (Hshift _ _) Hin) as (v & Hv & Hon).
  rewrite <- Z.div_mod, Nat2Z.id in Hv, Hon by lia. simpl in Hon.
  rewrite (exchanged_same b Hwf n n v Hn Hv eq_refl) in Hon.
  rewrite Hon. destruct new; reflexivity.
Qed.

(** X5. A direction other than "u", "d", "l" and "r" is not refused: on a
    well-formed board [move_tile] hands the board back as it is, as if a
    move had been made. *)
Theorem X5_move_tile_unknown_direction (b : Board) (d : string) (new : bool) :
  wf_board b ->
  ~ In d [UP; DOWN; LEFT; RIGHT] ->
  move_tile b d new = Ok (b, Some b).
Proof. exact (move_tile_other b d new). Qed.

Lemma X5_move_tile_unknown_direction_witness :
  wf_board board_1 /\ ~ In "x"%string [UP; DOWN; LEFT; RIGHT]
  /\ move_tile board_1 "x" false = Ok (board_1, Some board_1).
Proof.
  assert (H : wf_board board_1) by (apply wf_board_check; vm_compute; reflexivity).
  assert (Hd : ~ In "x"%string [UP; DOWN; LEFT; RIGHT])
    by (simpl; intros [E | [E | [E | [E | []]]]]; discriminate E).
  split; [exact H|]. split; [exact Hd|].
  exact (X5_move_tile_unknown_direction board_1 "x" false H Hd).
Defined.

Lemma exchanged_back (l : list Z) (n m : nat) (v : Z) :
  l !! n = Some EMPTY_TILE -> l !! m = Some v ->
  exchanged (exchanged l n m v) m n v = l.
Proof.
  intros Hn Hm. unfold exchanged.
  pose proof (lookup_lt_Some _ _ _ Hn) as Hnl.
  pose proof (lookup_lt_Some _ _ _ Hm) as Hml.
  apply list_eq. intros i.
  destruct (decide (i = m)) as [-> | Him].
  - rewrite list_lookup_insert_eq by (rewrite !length_insert; exact Hml).
    symmetry. exact Hm.
  - rewrite list_lookup_insert_ne by congruence.
    destruct (decide (i = n)) as [-> | Hin].
    + rewrite list_lookup_insert_eq by (rewrite !length_insert; exact Hnl).
      symmetry. exact Hn.
    + rewrite !list_lookup_insert_ne by congruence. reflexivity.
Qed.

(** X6. On a well-formed board a move that [move_tile] makes is undone by
    the move in the opposite direction: up after down, left after right and
    the other way round lead back to the board one started from. *)
Theorem X6_move_tile_opposite (b : Board) (d : string) (b' : Board) :
  wf_board b ->
  In d [UP; DOWN; LEFT; RIGHT] ->
  move_tile b d true = Ok (b, Some b') ->
  move_tile b' (opposite d) true = Ok (b', Some b).
Proof.
  intros Hwf Hd Hmove.
  destruct (wf_empty_position b Hwf) as [n Hn].
  pose proof (wf_width b Hwf) as HN.
  pose proof (wf_length b Hwf) as Hlen.
  pose proof (lookup_lt_Some _ _ _ Hn) as Hnlt.
  set (N := width b) in *.
  assert (Hx : 0 <= Z.of_nat n mod N < N) by (apply Z.mod_pos_bound; lia).
  assert (Hy : 0 <= Z.of_nat n / N < N).
  { split; [apply Z.div_pos; lia | apply Z.div_lt_upper_bound; lia]. }
  destruct (shift_xy d (Z.of_nat n mod N) (Z.of_nat n / N)) as [x' y'] eqn:Hs.
  destruct (negb ((-1 <? x') && (x' <? width b) && ((-1 <? y') && (y' <? height b))))
    eqn:Htest.
  { assert (Hoff : move_tile b d true = Ok (b, None)); [|congruence].
    apply (move_tile_off b Hwf n Hn). fold N. rewrite Hs. simpl.
    intros Hin. apply (in_grid_test b) in Hin. congruence. }
  apply (in_grid_test b) in Htest. fold N in Htest.
  destruct (move_tile_on b Hwf n Hn d true x' y' Hs Htest) as (v & Hv & Hon).
  fold N in Hv, Hon. simpl in Hon.
  destruct (in_grid_index b Hwf x' y' Htest) as [Hm _]. fold N in Hm.
  set (m := Z.to_nat (N * y' + x')) in *.
  rewrite Hon in Hmove. injection Hmove as <-.
  set (b' := mkBoard N (exchanged (_board b) n m v)).
  assert (Hback : shift_xy (opposite d) x' y' = (Z.of_nat n mod N, Z.of_nat n / N)
                  /\ m <> n).
  { assert (Hmn : m = n ->
                  N * y' + x' = N * (Z.of_nat n / N) + Z.of_nat n mod N).
    { intros E. rewrite <- Hm, E. apply Z.div_mod. lia. }
    assert (HU : forall u w, shift_xy UP u w = (u, w - 1)) by reflexivity.
    assert (HD : forall u w, shift_xy DOWN u w = (u, w + 1)) by reflexivity.
    assert (HL : forall u w, shift_xy LEFT u w = (u - 1, w)) by reflexivity.
    assert (HR : forall u w, shift_xy RIGHT u w = (u + 1, w)) by reflexivity.
    destruct Hd as [<- | [<- | [<- | [<- | []]]]].
    - rewrite HU in Hs. injection Hs as <- <-. change (opposite UP) with DOWN.
      rewrite HD. split; [f_equal; lia | intros E; apply Hmn in E; lia].
    - rewrite HD in Hs. injection Hs as <- <-. change (opposite DOWN) with UP.
      rewrite HU. split; [f_equal; lia | intros E; apply Hmn in E; lia].
    - rewrite HL in Hs. injection Hs as <- <-. change (opposite LEFT) with RIGHT.
      rewrite HR. split; [f_equal; lia | intros E; apply Hmn in E; lia].
    - rewrite HR in Hs. injection Hs as <- <-. change (opposite RIGHT) with LEFT.
      rewrite HL. split; [f_equal; lia | intros E; apply Hmn in E; lia]. }
  destruct Hback as [Hback Hne].
  assert (Hwf' : wf_board b') by (apply exchanged_wf; assumption).
  assert (Hm0 : _board b' !! m = Some EMPTY_TILE)
    by (apply (exchanged_empty b n m v Hv Hne)).
  assert (Hn' : _board b' !! n = Some v).
  { unfold b', exchanged. simpl. apply list_lookup_insert_eq.
    rewrite length_insert. exact Hnlt. }
  destruct Htest as [Hx' Hy'].
  destruct (div_mod_grid N y' x' Hx') as [Emod Ediv].
  rewrite <- Hm in Emod, Ediv.
  assert (Hs' : shift_xy (opposite d) (Z.of_nat m mod width b') (Z.of_nat m / width b')
                = (Z.of_nat n mod N, Z.of_nat n / N)).
  { change (width b') with N. rewrite Emod, Ediv. exact Hback. }
  destruct (move_tile_on b' Hwf' m Hm0 (opposite d) true _ _ Hs') as (v' & Hv' & Hon').
  { change (width b') with N. split; assumption. }
  change (width b') with N in Hv', Hon'.
  rewrite <- Z.div_mod, Nat2Z.id in Hv', Hon' by lia.
  assert (v' = v) as -> by congruence.
  simpl in Hon'. rewrite Hon'. do 3 f_equal.
  unfold b'. simpl. rewrite (exchanged_back _ n m v Hn Hv).
  unfold N, width. destruct b. reflexivity.
Qed.

Lemma X6_move_tile_opposite_witness :
  wf_board board_1 /\ In UP [UP; DOWN; LEFT; RIGHT]
  /\ move_tile board_1 UP true = Ok (board_1, Some (mkBoard 3 [1;0;5;4;3;8;7;6;2]))
  /\ move_tile (mkBoard 3 [1;0;5;4;3;8;7;6;2]) (opposite UP) true
     = Ok (mkBoard 3 [1;0;5;4;3;8;7;6;2], Some board_1).
Proof.
  assert (H : wf_board board_1) by (apply wf_board_check; vm_compute; reflexivity).
  assert (Hd : In UP [UP; DOWN; LEFT; RIGHT]) by (left; reflexivity).
  assert (Hm : move_tile board_1 UP true
               = Ok (board_1, Some (mkBoard 3 [1;0;5;4;3;8;7;6;2]))) by reflexivity.
  split; [exact H|]. split; [exact Hd|]. split; [exact Hm|].
  exact (X6_move_tile_opposite board_1 UP _ H Hd Hm).
Defined.

(** What a move in one of the four directions does to a well-formed board:
    the empty slot at [n] and the tile [v] at a neighbouring position [m]
    change places. *)
Lemma move_tile_real (b : Board) (d : string) (b' : Board) :
  wf_board b ->
  In d [UP; DOWN; LEFT; RIGHT] ->
  move_tile b d true = Ok (b, Some b') ->
  exists n m v,
    _board b !! n = Some EMPTY_TILE /\ _board b !! m = Some v
    /\ m <> n /\ v <> EMPTY_TILE
    /\ b' = mkBoard (width b) (exchanged (_board b) n m v)
    /\ Z.abs (Z.of_nat m mod width b - Z.of_nat n mod width b)
       + Z.abs (Z.of_nat m / width b - Z.of_nat n / width b) = 1.
Proof.
  intros Hwf Hd Hmove.
  destruct (wf_empty_position b Hwf) as [n Hn].
  pose proof (wf_width b Hwf) as HN.
  pose proof (wf_length b Hwf) as Hlen.
  pose proof (lookup_lt_Some _ _ _ Hn) as Hnlt.
  set (N := width b) in *.
  destruct (shift_xy d (Z.of_nat n mod N) (Z.of_nat n / N)) as [x' y'] eqn:Hs.
  destruct (negb ((-1 <? x') && (x' <? width b) && ((-1 <? y') && (y' <? height b))))
    eqn:Htest.
  { assert (Hoff : move_tile b d true = Ok (b, None)); [|congruence].
    apply (move_tile_off b Hwf n Hn). fold N. rewrite Hs. simpl.
    intros Hin. apply (in_grid_test b) in Hin. congruence. }
  apply (in_grid_test b) in Htest. fold N in Htest.
  destruct (move_tile_on b Hwf n Hn d true x' y' Hs Htest) as (v & Hv & Hon).
  fold N in Hv, Hon. simpl in Hon.
  destruct (in_grid_index b Hwf x' y' Htest) as [Hm _]. fold N in Hm.
  set (m := Z.to_nat (N * y' + x')) in *.
  rewrite Hon in Hmove. injection Hmove as <-.
  destruct Htest as [Hx' Hy'].
  destruct (div_mod_grid N y' x' Hx') as [Emod Ediv].
  rewrite <- Hm in Emod, Ediv.
  assert (Hadj : Z.abs (x' - Z.of_nat n mod N) + Z.abs (y' - Z.of_nat n / N) = 1).
  { assert (HU : forall u w, shift_xy UP u w = (u, w - 1)) by reflexivity.
    assert (HD : forall u w, shift_xy DOWN u w = (u, w + 1)) by reflexivity.
    assert (HL : forall u w, shift_xy LEFT u w = (u - 1, w)) by reflexivity.
    assert (HR : forall u w, shift_xy RIGHT u w = (u + 1, w)) by reflexivity.
    destruct Hd as [<- | [<- | [<- | [<- | []]]]];
      rewrite ?HU, ?HD, ?HL, ?HR in Hs; injection Hs as <- <-; lia. }
  assert (Hne : m <> n).
  { intros E. rewrite E in Emod, Ediv. rewrite <- Emod, <- Ediv in Hadj. lia. }
  exists n, m, v. rewrite Emod, Ediv.
  split; [exact Hn|]. split; [exact Hv|]. split; [exact Hne|].
  split; [|split; [reflexivity | exact Hadj]].
  intros ->. apply Hne.
  eapply NoDup_lookup; [apply NoDup_ListNoDup, (wf_NoDup b Hwf) | exact Hv | exact Hn].
Qed.

Lemma successors_from_sublist (b : Board) (dirs : list string) :
  forall succs, successors_from b dirs = Ok succs -> sublist (map fst succs) dirs.
Proof.
  induction dirs as [|d dirs IH]; intros succs; simpl.
  - intros [= <-]. constructor.
  - destruct (move_tile b d true) as [[self' r]|]; simpl; [|discriminate].
    destruct (successors_from b dirs) as [out|]; simpl; [|discriminate].
    destruct r as [b1|]; intros [= <-]; simpl.
    + apply sublist_skip, IH. reflexivity.
    + apply sublist_cons, IH. reflexivity.
Qed.

Lemma two_members {A : Type} (l : list A) (p q : A) :
  p ∈ l -> q ∈ l -> p <> q -> (2 <= length l)%nat.
Proof.
  intros Hp Hq Hne. destruct l as [|a [|a' l]]; simpl; [inversion Hp | | lia].
  apply list_elem_of_singleton in Hp, Hq. congruence.
Qed.

(** ** Successors *)

(** X7. On a well-formed board [successors] never fails.  Its entries are
    exactly the directions among up, down, left, right, in this order, in
    which [move_tile] makes a move, each with the board that move gives: a
    well-formed board of the same width that differs from the receiver.
    There are at most four, and at least two when the board is 2 x 2 or
    larger. *)
Theorem X7_successors (b : Board) :
  wf_board b ->
  exists succs,
    successors b = Ok succs
    /\ sublist (map fst succs) [UP; DOWN; LEFT; RIGHT]
    /\ (forall d b', (d, b') ∈ succs <->
                     In d [UP; DOWN; LEFT; RIGHT]
                     /\ move_tile b d true = Ok (b, Some b'))
    /\ (forall d b', (d, b') ∈ succs ->
                     wf_board b' /\ width b' = width b /\ b' <> b)
    /\ (length succs <= 4)%nat
    /\ (2 <= width b -> (2 <= length succs)%nat).
Proof.
  intros Hwf.
  destruct (successors_from_spec b [UP; DOWN; LEFT; RIGHT] Hwf) as (succs & Hs & Hspec).
  exists succs. split; [exact Hs|].
  pose proof (successors_from_sublist b _ succs Hs) as Hsub.
  split; [exact Hsub|].
  assert (Hspec' : forall d b', (d, b') ∈ succs <->
                     In d [UP; DOWN; LEFT; RIGHT]
                     /\ move_tile b d true = Ok (b, Some b')).
  { intros d b'. rewrite Hspec, list_elem_of_In. reflexivity. }
  split; [exact Hspec'|].
  split; [|split].
  - intros d b' Hin. apply Hspec' in Hin as [Hd Hmove].
    destruct (slide_wf b d b' Hwf) as (Hwf' & Hw' & _); [exists true, b; exact Hmove|].
    split; [exact Hwf'|]. split; [exact Hw'|].
    destruct (move_tile_real b d b' Hwf Hd Hmove)
      as (n & m & v & Hn & Hv & Hne & Hv0 & -> & _).
    intros E. apply (f_equal _board) in E. simpl in E.
    assert (Hm0 : exchanged (_board b) n m v !! m = Some EMPTY_TILE).
    { unfold exchanged. rewrite list_lookup_insert_ne by congruence.
      apply list_lookup_insert_eq. eapply lookup_lt_Some, Hv. }
    rewrite E in Hm0. congruence.
  - apply sublist_length in Hsub. rewrite length_map in Hsub. exact Hsub.
  - intros HN2.
    destruct (wf_empty_position b Hwf) as [n Hn].
    pose proof (wf_length b Hwf) as Hlen.
    pose proof (lookup_lt_Some _ _ _ Hn) as Hnlt.
    set (N := width b) in *.
    assert (Hx : 0 <= Z.of_nat n mod N < N) by (apply Z.mod_pos_bound; lia).
    assert (Hy : 0 <= Z.of_nat n / N < N).
    { split; [apply Z.div_pos; lia | apply Z.div_lt_upper_bound; lia]. }
    assert (Hmem : forall d x' y',
              In d [UP; DOWN; LEFT; RIGHT] ->
              shift_xy d (Z.of_nat n mod N) (Z.of_nat n / N) = (x', y') ->
              in_grid N x' y' -> exists b', (d, b') ∈ succs).
    { intros d x' y' Hd Hsh Hin.
      destruct (move_tile_on b Hwf n Hn d true x' y' Hsh Hin) as (v & _ & Hon).
      simpl in Hon. eexists. apply Hspec'. split; [exact Hd | exact Hon]. }
    assert (Hvert : exists d b', (d, b') ∈ succs /\ (d = UP \/ d = DOWN)).
    { destruct (Z.eq_dec (Z.of_nat n / N) 0) as [E | E].
      - destruct (Hmem DOWN _ _ ltac:(simpl; tauto) eq_refl) as [b' Hb'];
          [split; lia|]. exists DOWN, b'. split; [exact Hb' | right; reflexivity].
      - destruct (Hmem UP _ _ ltac:(simpl; tauto) eq_refl) as [b' Hb'];
          [split; lia|]. exists UP, b'. split; [exact Hb' | left; reflexivity]. }
    assert (Hhor : exists d b', (d, b') ∈ succs /\ (d = LEFT \/ d = RIGHT)).
    { destruct (Z.eq_dec (Z.of_nat n mod N) 0) as [E | E].
      - destruct (Hmem RIGHT _ _ ltac:(simpl; tauto) eq_refl) as [b' Hb'];
          [split; lia|]. exists RIGHT, b'. split; [exact Hb' | right; reflexivity].
      - destruct (Hmem LEFT _ _ ltac:(simpl; tauto) eq_refl) as [b' Hb'];
          [split; lia|]. exists LEFT, b'. split; [exact Hb' | left; reflexivity]. }
    destruct Hvert as (d1 & b1 & H1 & Hd1), Hhor as (d2 & b2 & H2 & Hd2).
    apply (two_members succs (d1, b1) (d2, b2) H1 H2).
    intros [= E _]. destruct Hd1 as [-> | ->], Hd2 as [-> | ->]; discriminate E.
Qed.

Lemma X7_successors_witness :
  wf_board board_0
  /\ exists succs,
       successors board_0 = Ok succs
       /\ sublist (map fst succs) [UP; DOWN; LEFT; RIGHT]
       /\ (forall d b', (d, b') ∈ succs <->
                        In d [UP; DOWN; LEFT; RIGHT]
                        /\ move_tile board_0 d true = Ok (board_0, Some b'))
       /\ (forall d b', (d, b') ∈ succs ->
                        wf_board b' /\ width b' = width board_0 /\ b' <> board_0)
       /\ (length succs <= 4)%nat
       /\ (2 <= width board_0 -> (2 <= length succs)%nat).
Proof.
  assert (H : wf_board board_0) by (apply wf_board_check; vm_compute; reflexivity).
  split; [exact H | exact (X7_successors board_0 H)].
Defined.

(** ** The sum of Manhattan distances *)

Section Distances.

Lemma py_sum_map (f : Z -> result Z) (g : Z -> Z) (l : list Z) :
  (forall t, In t l -> f t = Ok (g t)) ->
  py_sum (map f l) = Ok (zsum (map g l)).
Proof.
  induction l as [|a l IH]; intros Hfg; [reflexivity|].
  simpl. rewrite (Hfg a) by (left; reflexivity).
  rewrite IH by (intros t Ht; apply Hfg; right; exact Ht). reflexivity.
Qed.

Lemma zsum_nonneg (g : Z -> Z) (l : list Z) :
  (forall t, In t l -> 0 <= g t) -> 0 <= zsum (map g l).
Proof.
  induction l as [|a l IH]; intros Hg; simpl; [lia|].
  pose proof (Hg a (or_introl eq_refl)).
  assert (0 <= zsum (map g l)) by (apply IH; intros t Ht; apply Hg; right; exact Ht).
  lia.
Qed.

Lemma zsum_zero (g : Z -> Z) (l : list Z) :
  (forall t, In t l -> 0 <= g t) ->
  zsum (map g l) = 0 <-> forall t, In t l -> g t = 0.
Proof.
  induction l as [|a l IH]; intros Hg; simpl.
  - split; [intros _ t [] | reflexivity].
  - pose proof (Hg a (or_introl eq_refl)).
    assert (Hl : forall t, In t l -> 0 <= g t) by (intros t Ht; apply Hg; right; exact Ht).
    pose proof (zsum_nonneg g l Hl). specialize (IH Hl). split.
    + intros Hz t [<- | Ht]; [lia|]. apply IH; [lia | exact Ht].
    + intros Hall. rewrite (Hall a) by (left; reflexivity).
      rewrite (proj2 IH); [reflexivity|]. intros t Ht. apply Hall. right. exact Ht.
Qed.

(** Two sums over a list without repetitions whose terms agree except at
    [v] differ by the difference of the terms at [v]. *)
Lemma zsum_differ_at (g g' : Z -> Z) (v : Z) (l : list Z) :
  List.NoDup l -> In v l ->
  (forall t, In t l -> t <> v -> g' t = g t) ->
  zsum (map g' l) - zsum (map g l) = g' v - g v.
Proof.
  induction l as [|a l IH]; intros Hnd Hv Hagree; [destruct Hv|].
  apply List.NoDup_cons_iff in Hnd as [Ha Hnd]. simpl.
  destruct Hv as [-> | Hv].
  - assert (E : map g' l = map g l).
    { apply map_ext_in. intros t Ht. apply Hagree; [right; exact Ht|].
      intros ->. apply Ha, Ht. }
    rewrite E. lia.
  - rewrite (Hagree a) by (first [left; reflexivity | intros ->; apply Ha, Hv]).
    specialize (IH Hnd Hv).
    rewrite <- IH; [lia|]. intros t Ht. apply Hagree. right. exact Ht.
Qed.

Variables b c : Board.
Hypothesis Hb : wf_board b.
Hypothesis Hc : wf_board c.
Hypothesis Hw : width c = width b.

Lemma pos_of_lookup (n : nat) (t : Z) :
  _board b !! n = Some t -> pos_of b t = Z.of_nat n.
Proof.
  intros Hn. unfold pos_of.
  rewrite (py_index_lookup _ n t (wf_NoDup b Hb) Hn). reflexivity.
Qed.

Lemma pos_of_In (t : Z) :
  0 <= t < width b * width b ->
  exists n, _board b !! n = Some t /\ pos_of b t = Z.of_nat n.
Proof.
  intros Ht. assert (Hin : In t (_board b)) by (apply (wf_In b Hb); exact Ht).
  destruct (py_index_In _ _ Hin) as (n & Hidx & Hn).
  exists n. split; [exact Hn|]. unfold pos_of. rewrite Hidx. reflexivity.
Qed.

Lemma m_dist_manhattan (t : Z) :
  0 <= t < width b * width b ->
  m_dist b c t false = Ok (manhattan b c t).
Proof.
  intros Ht. unfold m_dist, manhattan.
  rewrite (wf_valid_tile b t Ht). simpl.
  destruct (t =? EMPTY_TILE) eqn:E; [reflexivity|].
  assert (Htc : 0 <= t < width c * width c) by (rewrite Hw; exact Ht).
  assert (Hinb : In t (_board b)) by (apply (wf_In b Hb); exact Ht).
  assert (Hinc : In t (_board c)) by (apply (wf_In c Hc); exact Htc).
  destruct (py_index_In _ _ Hinb) as (nb & Hib & _).
  destruct (py_index_In _ _ Hinc) as (nc & Hic & _).
  unfold x, y, pos_of.
  rewrite (wf_valid_tile b t Ht), (wf_valid_tile c t Htc), Hib, Hic. simpl.
  do 2 f_equal.
  destruct (Z.of_nat nb =? 0) eqn:E1, (Z.of_nat nc =? 0) eqn:E2; bool_lia;
    rewrite ?E1, ?E2, ?Zdiv_0_l; reflexivity.
Qed.

Lemma sum_m_dists_manhattan :
  sum_m_dists b c
  = Ok (zsum (map (manhattan b c) (py_range 0 (width b * width b)))).
Proof.
  unfold sum_m_dists.
  assert (size b = size c) as Hsz by (rewrite (wf_size b), (wf_size c), Hw; reflexivity).
  rewrite Hsz, Z.eqb_refl. simpl. rewrite <- Hsz, (wf_size b).
  apply py_sum_map. intros t Ht. apply py_range_In in Ht.
  apply m_dist_manhattan. lia.
Qed.

Lemma manhattan_nonneg (t : Z) : 0 <= manhattan b c t.
Proof. unfold manhattan. destruct (t =? EMPTY_TILE); lia. Qed.

End Distances.

Lemma width_mkBoard (N : Z) (l : list Z) : width (mkBoard N l) = N.
Proof. reflexivity. Qed.

(** After a real move the tile that moved is where the empty slot was,
    and every other tile is where it was. *)
Lemma pos_of_exchanged (b : Board) (n m : nat) (v t : Z) :
  wf_board b ->
  _board b !! n = Some EMPTY_TILE -> _board b !! m = Some v -> m <> n ->
  0 <= t < width b * width b -> t <> EMPTY_TILE ->
  pos_of (mkBoard (width b) (exchanged (_board b) n m v)) t
  = if t =? v then Z.of_nat n else pos_of b t.
Proof.
  intros Hwf Hn Hm Hmn Ht Ht0.
  pose proof (exchanged_wf b Hwf n m v Hn Hm) as Hwf'.
  set (b' := mkBoard (width b) (exchanged (_board b) n m v)) in *.
  destruct (t =? v) eqn:E; bool_lia.
  - subst t. apply (pos_of_lookup b' Hwf'). unfold b', exchanged. simpl.
    apply list_lookup_insert_eq. rewrite length_insert.
    eapply lookup_lt_Some, Hn.
  - destruct (pos_of_In b Hwf t Ht) as (k & Hk & ->).
    apply (pos_of_lookup b' Hwf'). unfold b', exchanged. simpl.
    rewrite !list_lookup_insert_ne; [exact Hk | |]; intros <-; congruence.
Qed.

Lemma manhattan_step (b c : Board) (n m : nat) (v : Z) :
  wf_board b -> wf_board c -> width c = width b ->
  _board b !! n = Some EMPTY_TILE -> _board b !! m = Some v ->
  m <> n -> v <> EMPTY_TILE ->
  Z.abs (Z.of_nat m mod width b - Z.of_nat n mod width b)
  + Z.abs (Z.of_nat m / width b - Z.of_nat n / width b) = 1 ->
  Z.abs (zsum (map (manhattan (mkBoard (width b) (exchanged (_board b) n m v)) c)
                   (py_range 0 (width b * width b)))
         - zsum (map (manhattan b c) (py_range 0 (width b * width b)))) = 1.
Proof.
  intros Hwf Hc Hw Hn Hm Hmn Hv Hadj.
  assert (Hvr : 0 <= v < width b * width b).
  { apply (wf_In b Hwf). apply list_elem_of_In; eapply list_elem_of_lookup_2, Hm. }
  rewrite (zsum_differ_at _ _ v).
  - unfold manhattan. rewrite width_mkBoard.
    destruct (v =? EMPTY_TILE) eqn:E; bool_lia; [contradiction|].
    rewrite (pos_of_exchanged b n m v v Hwf Hn Hm Hmn Hvr Hv), Z.eqb_refl.
    rewrite (pos_of_lookup b Hwf m v Hm). lia.
  - apply py_range_NoDup.
  - apply py_range_In. lia.
  - intros t Ht Htv. apply py_range_In in Ht. unfold manhattan.
    rewrite width_mkBoard.
    destruct (t =? EMPTY_TILE) eqn:E; [reflexivity|]. bool_lia.
    rewrite (pos_of_exchanged b n m v t Hwf Hn Hm Hmn) by lia.
    destruct (t =? v) eqn:E'; bool_lia; [contradiction | reflexivity].
Qed.

Lemma sum_m_dists_self (b : Board) : wf_board b -> sum_m_dists b b = Ok 0.
Proof.
  intros Hb. rewrite (sum_m_dists_manhattan b b Hb Hb eq_refl). f_equal.
  apply zsum_zero; [intros; apply manhattan_nonneg|].
  intros t _. unfold manhattan. destruct (t =? EMPTY_TILE); [reflexivity|].
  rewrite !Z.sub_diag. reflexivity.
Qed.

(** X8. Between two well-formed boards of the same width the sum of
    Manhattan distances is a number, it is never negative, it is the same
    in both directions, and it is 0 exactly when the two boards are the
    same. *)
Theorem X8_sum_m_dists_metric (b c : Board) :
  wf_board b -> wf_board c -> width c = width b ->
  exists h,
    sum_m_dists b c = Ok h /\ sum_m_dists c b = Ok h
    /\ 0 <= h /\ (h = 0 <-> c = b).
Proof.
  intros Hb Hc Hw.
  exists (zsum (map (manhattan b c) (py_range 0 (width b * width b)))).
  split; [apply sum_m_dists_manhattan; assumption|].
  split.
  { rewrite (sum_m_dists_manhattan c b Hc Hb (eq_sym Hw)), Hw. do 2 f_equal.
    apply map_ext. intros t. unfold manhattan.
    destruct (t =? EMPTY_TILE); [reflexivity|]. rewrite Hw. lia. }
  split; [apply zsum_nonneg; intros; apply manhattan_nonneg|].
  rewrite zsum_zero by (intros; apply manhattan_nonneg).
  pose proof (wf_width b Hb) as HN.
  split.
  - intros Hall.
    assert (Hpos : forall t, 0 <= t < width b * width b -> t <> EMPTY_TILE ->
                             pos_of c t = pos_of b t).
    { intros t Ht Ht0. specialize (Hall t (proj2 (py_range_In _ _ _) Ht)).
      unfold manhattan in Hall. destruct (t =? EMPTY_TILE) eqn:E; bool_lia; [contradiction|].
      rewrite Hw in Hall.
      rewrite (Z.div_mod (pos_of c t) (width b)), (Z.div_mod (pos_of b t) (width b))
        by lia.
      assert (pos_of b t mod width b = pos_of c t mod width b) as -> by lia.
      assert (pos_of b t / width b = pos_of c t / width b) as -> by lia.
      reflexivity. }
    assert (Hcells : _board c = _board b).
    { assert (Hlen : length (_board c) = length (_board b)).
      { pose proof (wf_length b Hb). pose proof (wf_length c Hc). rewrite Hw in *. lia. }
      assert (Hsome : forall (p q : Board), wf_board p -> wf_board q ->
                width q = width p ->
                (forall t, 0 <= t < width p * width p -> t <> EMPTY_TILE ->
                           pos_of q t = pos_of p t) ->
                forall k t, t <> EMPTY_TILE -> _board p !! k = Some t ->
                            _board q !! k = Some t).
      { intros p q Hp Hq Hpq Hsame k t Ht0 Hk.
        assert (Htr : 0 <= t < width p * width p).
        { apply (wf_In p Hp). apply list_elem_of_In; eapply list_elem_of_lookup_2, Hk. }
        assert (Htq : 0 <= t < width q * width q) by (rewrite Hpq; exact Htr).
        destruct (pos_of_In q Hq t Htq) as (k' & Hk' & Hpk').
        rewrite (Hsame t Htr Ht0), (pos_of_lookup p Hp k t Hk) in Hpk'.
        apply Nat2Z.inj in Hpk'. subst k'. exact Hk'. }
      apply list_eq. intros k.
      destruct (_board b !! k) as [t|] eqn:Hk.
      - destruct (Z.eq_dec t EMPTY_TILE) as [-> | Ht0].
        + destruct (lookup_lt_is_Some_2 (_board c) k) as [t' Hk'].
          { rewrite Hlen. eapply lookup_lt_Some, Hk. }
          destruct (Z.eq_dec t' EMPTY_TILE) as [-> | Ht'0]; [exact Hk'|].
          assert (_board b !! k = Some t') as Hbk.
          { apply (Hsome c b Hc Hb (eq_sym Hw)); [|exact Ht'0 | exact Hk'].
            intros t Ht Ht0. symmetry. apply Hpos; [rewrite <- Hw; exact Ht | exact Ht0]. }
          congruence.
        + apply (Hsome b c Hb Hc Hw Hpos k t Ht0 Hk).
      - apply lookup_ge_None. rewrite Hlen. apply lookup_ge_None. exact Hk. }
    destruct b, c. simpl in *. unfold width in Hw. simpl in Hw. congruence.
  - intros -> t _. unfold manhattan. destruct (t =? EMPTY_TILE); [reflexivity|].
    rewrite !Z.sub_diag. reflexivity.
Qed.

Lemma X8_sum_m_dists_metric_witness :
  exists h,
    sum_m_dists board_1 board_0 = Ok h /\ sum_m_dists board_0 board_1 = Ok h
    /\ 0 <= h /\ (h = 0 <-> board_0 = board_1).
Proof.
  apply (X8_sum_m_dists_metric board_1 board_0).
  - apply wf_board_check; vm_compute; reflexivity.
  - apply wf_board_check; vm_compute; reflexivity.
  - reflexivity.
Defined.

(** X9. Boards of different sizes cannot be compared: [sum_m_dists]
    raises AssertionError before it looks at any tile. *)
Theorem X9_sum_m_dists_sizes (b c : Board) :
  size b <> size c -> sum_m_dists b c = Raise AssertionError.
Proof.
  intros Hne. unfold sum_m_dists.
  destruct (size b =? size c) eqn:E; bool_lia; [contradiction | reflexivity].
Qed.

Lemma X9_sum_m_dists_sizes_witness :
  sum_m_dists board_1 (mkBoard 2 [1; 2; 3; 0]) = Raise AssertionError.
Proof.
  apply (X9_sum_m_dists_sizes board_1 (mkBoard 2 [1; 2; 3; 0])).
  vm_compute. discriminate.
Defined.

(** X10. One real move changes the sum of Manhattan distances to any
    well-formed board of the same width by exactly one, up or down. *)
Theorem X10_sum_m_dists_step (b c : Board) (d : string) (b' : Board) :
  wf_board b -> wf_board c -> width c = width b ->
  In d [UP; DOWN; LEFT; RIGHT] ->
  move_tile b d true = Ok (b, Some b') ->
  exists h h',
    sum_m_dists b c = Ok h /\ sum_m_dists b' c = Ok h' /\ Z.abs (h' - h) = 1.
Proof.
  intros Hb Hc Hw Hd Hmove.
  destruct (move_tile_real b d b' Hb Hd Hmove)
    as (n & m & v & Hn & Hm & Hmn & Hv & -> & Hadj).
  pose proof (exchanged_wf b Hb n m v Hn Hm) as Hb'.
  eexists _, _.
  split; [apply sum_m_dists_manhattan; assumption|].
  split; [apply sum_m_dists_manhattan; assumption|].
  rewrite width_mkBoard.
  apply manhattan_step; assumption.
Qed.

Lemma X10_sum_m_dists_step_witness :
  exists h h',
    sum_m_dists board_1 board_0 = Ok h
    /\ sum_m_dists (mkBoard 3 [1; 0; 5; 4; 3; 8; 7; 6; 2]) board_0 = Ok h'
    /\ Z.abs (h' - h) = 1.
Proof.
  apply (X10_sum_m_dists_step board_1 board_0 UP).
  - apply wf_board_check; vm_compute; reflexivity.
  - apply wf_board_check; vm_compute; reflexivity.
  - reflexivity.
  - simpl; tauto.
  - vm_compute. reflexivity.
Defined.

(** X11. The sum of Manhattan distances never overestimates: a board that
    can be reached by a sequence of slides is at least that many slides
    away. *)
Theorem X11_sum_m_dists_admissible (b c : Board) (ds : list string) :
  wf_board b -> slides b ds c ->
  exists h, sum_m_dists b c = Ok h /\ 0 <= h <= Z.of_nat (length ds).
Proof.
  intros Hb Hs. induction Hs as [b | b d b1 ds b2 Hslide Hs IH].
  - exists 0. split; [apply sum_m_dists_self; exact Hb | simpl; lia].
  - destruct (slide_wf b d b1 Hb Hslide) as (Hb1 & Hw1 & _).
    destruct (slides_wf b1 ds b2 Hb1 Hs) as (Hb2 & Hw2 & _).
    destruct (IH Hb1) as (h1 & Hh1 & Hbound).
    destruct Hslide as (new & self' & Hmove).
    apply move_tile_mode in Hmove.
    destruct (in_dec String.string_dec d [UP; DOWN; LEFT; RIGHT]) as [Hd | Hd].
    + assert (Hw : width b2 = width b) by congruence.
      destruct (move_tile_real b d b1 Hb Hd Hmove)
        as (n & m & v & Hn & Hm & Hmn & Hv & Hb1eq & Hadj).
      pose proof (manhattan_step b b2 n m v Hb Hb2 Hw Hn Hm Hmn Hv Hadj) as Hstep.
      rewrite <- Hb1eq in Hstep.
      rewrite (sum_m_dists_manhattan b1 b2 Hb1 Hb2 Hw2), Hw1 in Hh1.
      injection Hh1 as Hh1. rewrite Hh1 in Hstep.
      eexists. split; [apply sum_m_dists_manhattan; assumption|].
      split; [apply zsum_nonneg; intros; apply manhattan_nonneg|].
      rewrite length_cons. lia.
    + rewrite (move_tile_other b d true Hb Hd) in Hmove.
      injection Hmove as <-. exists h1. split; [exact Hh1|].
      rewrite length_cons. lia.
Qed.

Lemma X11_sum_m_dists_admissible_witness :
  exists h,
    sum_m_dists board_0 (mkBoard 3 [1; 2; 3; 4; 5; 6; 7; 8; 0]) = Ok h
    /\ 0 <= h <= Z.of_nat (length [RIGHT; RIGHT]).
Proof.
  apply (X11_sum_m_dists_admissible board_0 _ [RIGHT; RIGHT]).
  - apply wf_board_check; vm_compute; reflexivity.
  - apply (slides_cons _ _ (mkBoard 3 [1; 2; 3; 4; 5; 6; 7; 0; 8])).
    { exists true, board_0. vm_compute. reflexivity. }
    apply (slides_cons _ _ (mkBoard 3 [1; 2; 3; 4; 5; 6; 7; 8; 0])).
    { exists true, (mkBoard 3 [1; 2; 3; 4; 5; 6; 7; 0; 8]). vm_compute. reflexivity. }
    apply slides_nil.
Defined.

(** ** Merging *)

(** X12. Merging two ascending lists gives an ascending list with the
    entries of both, and the count is the number of pairs of an entry of
    the first list and a smaller entry of the second. *)
Theorem X12_merge_count (A B : list Z) :
  StronglySorted Z.le A -> StronglySorted Z.le B ->
  Permutation (A ++ B) (fst (merge_count A B))
  /\ StronglySorted Z.le (fst (merge_count A B))
  /\ snd (merge_count A B)
     = Z.of_nat (length (List.filter (fun p => snd p <? fst p) (list_prod A B))).
Proof.
  intros HA HB. unfold merge_count.
  destruct (merge_loop_spec A B [] 0 HA HB) as (M & -> & Hperm & Hsorted).
  simpl. split; [exact Hperm|]. split; [exact Hsorted|].
  rewrite Z.add_0_l. clear. induction A as [|a A IH]; [reflexivity|].
  cbn [cross list_prod]. rewrite List.filter_app, length_app, Nat2Z.inj_add, <- IH.
  f_equal. unfold lt_count. f_equal.
  clear. induction B as [|b B IH]; [reflexivity|].
  cbn [List.filter map fst snd]. destruct (b <? a); cbn [length]; rewrite IH; reflexivity.
Qed.

Lemma X12_merge_count_witness :
  Permutation ([2; 5; 9] ++ [1; 5; 7]) (fst (merge_count [2; 5; 9] [1; 5; 7]))
  /\ StronglySorted Z.le (fst (merge_count [2; 5; 9] [1; 5; 7]))
  /\ snd (merge_count [2; 5; 9] [1; 5; 7])
     = Z.of_nat (length (List.filter (fun p => snd p <? fst p)
                                     (list_prod [2; 5; 9] [1; 5; 7]))).
Proof.
  apply (X12_merge_count [2; 5; 9] [1; 5; 7]).
  - repeat constructor; lia.
  - repeat constructor; lia.
Defined.

(** ** Solving a board that is solved *)

(** X13. On a board that is already solved [solve] looks at one item
    only: it returns the list that holds the start board with no
    direction, and 1 as the longest queue when that is asked for. *)
Theorem X13_solve_solved (self : Board) (ignore_warning give_max : bool) (fuel : nat) :
  wf_board self -> solved self = true ->
  ignore_warning = true \/ width self <= 3 ->
  solve (Datatypes.S fuel) self ignore_warning give_max
  = Some (Ok (if give_max then RetPathMax [mkMove None self] 1
              else RetPath [mkMove None self])).
Proof.
  intros Hwf Hsolved Hign.
  assert (Hg : goal self = self).
  { symmetry. apply Board_eq_true; [exact Hsolved | reflexivity]. }
  unfold solve. rewrite <- Hg at 1. rewrite (goal_solvable self Hwf).
  assert (Hguard : negb ignore_warning && ((width self >? 3) || (height self >? 3))
                   = false).
  { destruct Hign as [-> | Hle]; [reflexivity|].
    unfold height. fold (width self).
    replace (width self >? 3) with false by (symmetry; rewrite Z.gtb_ltb; apply Z.ltb_ge; lia).
    apply andb_false_r. }
  rewrite Hguard. unfold solve_init, item. rewrite Hg.
  rewrite (sum_m_dists_self self Hwf). simpl bind.
  cbv beta iota zeta.
  unfold solve_loop, heappush. simpl app.
  unfold solve_iter. cbn [open heappop heap_min bind lookup list_lookup delete].
  simpl. rewrite lookup_insert_eq.
  replace (Board_eq self self) with true
    by (symmetry; unfold Board_eq; apply bool_decide_eq_true; reflexivity).
  assert (Htb : forall t, traceback fuel t (mkItem (0 + 0) 0 0 self None (-1))
                            (mkItem (0 + 0) 0 0 self None (-1))
                          = Some (Ok [mkItem (0 + 0) 0 0 self None (-1)])).
  { intros t. destruct fuel; simpl; rewrite Item_eq_refl; reflexivity. }
  rewrite Htb. destruct give_max; reflexivity.
Qed.

Lemma X13_solve_solved_witness :
  solve 1 (mkBoard 3 [1; 2; 3; 4; 5; 6; 7; 8; 0]) false true
  = Some (Ok (RetPathMax [mkMove None (mkBoard 3 [1; 2; 3; 4; 5; 6; 7; 8; 0])] 1)).
Proof.
  apply (X13_solve_solved (mkBoard 3 [1; 2; 3; 4; 5; 6; 7; 8; 0]) false true 0).
  - apply wf_board_check; vm_compute; reflexivity.
  - vm_compute. reflexivity.
  - right. unfold width. simpl. lia.
Defined.

(** ** The longest queue *)

Lemma add_successors_forget_max (G : Board) (g0 curr_idx : Z)
  (succs : list (string * Board)) :
  forall st,
    add_successors G g0 curr_idx succs (forget_max st)
    = match add_successors G g0 curr_idx succs st with
      | Ok st' => Ok (forget_max st')
      | Raise e => Raise e
      end.
Proof.
  induction succs as [|[d b] succs IH]; intros st; [reflexivity|].
  cbn [add_successors]. unfold forget_max at 1. cbn [visited].
  destruct (bool_decide (_board b ∈ visited st)); [apply IH|].
  cbn [item_index open item_by_idx idx_by_item max_queue_length].
  destruct (item G g0 (Some d) b curr_idx) as [it|e]; [|reflexivity].
  cbn [bind]. rewrite <- IH. reflexivity.
Qed.

Lemma add_successors_max (G : Board) (g0 curr_idx : Z)
  (succs : list (string * Board)) :
  forall st st',
    add_successors G g0 curr_idx succs st = Ok st' ->
    max_queue_length st' = max_queue_length st.
Proof.
  induction succs as [|[d b] succs IH]; intros st st' H.
  - injection H as <-. reflexivity.
  - cbn [add_successors] in H.
    destruct (bool_decide (_board b ∈ visited st)); [apply IH, H|].
    destruct (item G g0 (Some d) b curr_idx) as [it|e]; [|discriminate].
    cbn [bind] in H. apply IH in H. exact H.
Qed.

Lemma solve_iter_forget_max (fuel : nat) (G : Board) (s : Item) (st : solve_state) :
  solve_iter fuel G s (forget_max st)
  = match solve_iter fuel G s st with
    | Some (Ok (Continue st')) => Some (Ok (Continue (forget_max st')))
    | Some (Ok (Return r)) => Some (Ok (Return (path_only r)))
    | r => r
    end.
Proof.
  destruct st as [o tbl idx v n mx].
  unfold solve_iter, forget_max.
  cbn [open idx_by_item item_by_idx visited item_index max_queue_length].
  destruct (heappop o) as [[curr open']|e]; [|reflexivity].
  destruct (idx !! item_key curr) as [i|]; [|reflexivity].
  destruct (Board_eq (board curr) G).
  - destruct (traceback fuel tbl s curr) as [[path|e]|]; try reflexivity.
    destruct mx; reflexivity.
  - destruct (successors (board curr)) as [succs|e]; [|reflexivity].
    pose proof (add_successors_forget_max G (g curr + 1) i succs
                  (mkState open' tbl idx v n mx)) as E.
    unfold forget_max in E.
    cbn [open idx_by_item item_by_idx visited item_index max_queue_length] in E.
    rewrite E.
    destruct (add_successors G (g curr + 1) i succs (mkState open' tbl idx v n mx))
      as [st2|e]; [|reflexivity].
    cbn [open idx_by_item item_by_idx visited item_index max_queue_length].
    reflexivity.
Qed.

Lemma solve_loop_forget_max (G : Board) (s : Item) :
  forall (fuel : nat) (st : solve_state),
    solve_loop fuel G s (forget_max st)
    = match solve_loop fuel G s st with
      | Some (Ok r) => Some (Ok (path_only r))
      | r => r
      end.
Proof.
  induction fuel as [|fuel IH]; intros st.
  - simpl. destruct (open st); reflexivity.
  - cbn [solve_loop]. change (open (forget_max st)) with (open st).
    destruct (open st); [reflexivity|].
    rewrite solve_iter_forget_max.
    destruct (solve_iter fuel G s st) as [[[st'|r]|e]|]; try reflexivity.
    apply IH.
Qed.

(** Once the queue length is recorded it stays recorded and does not go
    down, so a path comes back with a length of at least the first one. *)
Lemma solve_loop_max (G : Board) (s : Item) :
  forall (fuel : nat) (st : solve_state) (m : Z) (r : solve_result),
    max_queue_length st = Some m ->
    solve_loop fuel G s st = Some (Ok r) ->
    r = RetNone \/ exists path m', r = RetPathMax path m' /\ m <= m'.
Proof.
  induction fuel as [|fuel IH]; intros st m r Hm Hr.
  - simpl in Hr. destruct (open st); [|discriminate].
    injection Hr as <-. left. reflexivity.
  - cbn [solve_loop] in Hr. destruct (open st) eqn:Hopen.
    { injection Hr as <-. left. reflexivity. }
    unfold solve_iter in Hr. rewrite Hopen in Hr.
    destruct (heappop (i :: l)) as [[curr open']|e]; [|discriminate].
    destruct (idx_by_item st !! item_key curr) as [ci|]; [|discriminate].
    destruct (Board_eq (board curr) G).
    + destruct (traceback fuel (item_by_idx st) s curr) as [[path|e]|];
        try discriminate.
      rewrite Hm in Hr. injection Hr as <-. right. eexists _, m.
      split; [reflexivity | lia].
    + destruct (successors (board curr)) as [succs|e]; [|discriminate].
      destruct (add_successors G (g curr + 1) ci succs _) as [st2|e] eqn:Hadd;
        [|discriminate].
      apply add_successors_max in Hadd. cbn [max_queue_length] in Hadd.
      rewrite Hadd, Hm in Hr.
      eapply IH in Hr; [|reflexivity].
      destruct Hr as [-> | (path & m' & -> & Hle)]; [left; reflexivity|].
      right. exists path, m'. split; [reflexivity | lia].
Qed.

(** X14. Asking [solve] for the longest queue changes nothing else: it
    fails or returns the same path as without, and a path comes back
    with a queue length of at least 1. *)
Theorem X14_solve_max_queue_length (fuel : nat) (self : Board) (ignore_warning : bool) :
  solve fuel self ignore_warning false
  = match solve fuel self ignore_warning true with
    | Some (Ok r) => Some (Ok (path_only r))
    | r => r
    end
  /\ forall r, solve fuel self ignore_warning true = Some (Ok r) ->
               r = RetNone \/ exists path m, r = RetPathMax path m /\ 1 <= m.
Proof.
  unfold solve.
  destruct (solvable self) as [[|]|e]; [| split; [reflexivity | discriminate]..].
  destruct (negb ignore_warning && ((width self >? 3) || (height self >? 3)));
    [split; [reflexivity | discriminate]|].
  unfold solve_init.
  destruct (item (goal self) 0 None self (-1)) as [start|e];
    [| split; [reflexivity | discriminate]].
  cbn [bind]. split.
  - rewrite <- solve_loop_forget_max. reflexivity.
  - intros r Hr. eapply solve_loop_max in Hr; [exact Hr | reflexivity].
Qed.

(** ** The game: moves read and carried out *)

(** X15. Carrying out any list of moves on a well-formed board raises
    nothing and ends on a well-formed board of the same width with the
    same value of [solvable]. *)
Theorem X15_carry_out (b : Board) (moves : list string) :
  wf_board b ->
  exists b', carry_out b moves = Ok b'
             /\ wf_board b' /\ width b' = width b /\ solvable b' = solvable b.
Proof.
  intros Hwf. revert b Hwf. induction moves as [|d moves IH]; intros b Hwf.
  - exists b. split; [reflexivity|]. split; [exact Hwf|]. split; reflexivity.
  - cbn [carry_out].
    destruct (move_tile_wf b d true Hwf) as [Hoff | (b1 & Hon & Hwf1 & Hw1 & Hs1)].
    + rewrite Hoff. cbn [bind]. apply IH, Hwf.
    + rewrite Hon. cbn [bind].
      destruct (IH b1 Hwf1) as (b' & Hb' & Hwf' & Hw' & Hs').
      exists b'. split; [exact Hb'|]. split; [exact Hwf'|].
      split; congruence.
Qed.

Lemma X15_carry_out_witness :
  exists b', carry_out board_1 [LEFT; LEFT; UP; "x"%string] = Ok b'
             /\ wf_board b' /\ width b' = width board_1
             /\ solvable b' = solvable board_1.
Proof.
  apply (X15_carry_out board_1 [LEFT; LEFT; UP; "x"%string]).
  apply wf_board_check; vm_compute; reflexivity.
Defined.

Lemma read_moves_acc (x : string) :
  forall moves,
    read_moves x moves
    = if forallb (fun ch => is_move ch || is_blank ch) (String.list_ascii_of_string x)
      then Some (moves ++ map (fun ch => String ch EmptyString)
                              (List.filter is_move (String.list_ascii_of_string x)))
      else None.
Proof.
  induction x as [|ch x IH]; intros moves; cbn [read_moves String.list_ascii_of_string forallb].
  - cbn [List.filter map]. rewrite app_nil_r. reflexivity.
  - cbn [List.filter]. destruct (is_move ch) eqn:Em.
    + rewrite IH. cbn [orb andb map].
      destruct (forallb _ _); [|reflexivity]. rewrite <- app_assoc. reflexivity.
    + cbn [orb]. destruct (is_blank ch); [|reflexivity]. cbn [andb]. apply IH.
Qed.

(** X16. The moves read from an input line are its characters "u", "d",
    "l" and "r" in their order, when every other character is a blank, a
    tab, a carriage return or a line feed; one other character and no
    move of the line is made. *)
Theorem X16_read_moves (x : string) :
  read_moves x []
  = if forallb (fun ch => is_move ch || is_blank ch) (String.list_ascii_of_string x)
    then Some (map (fun ch => String ch EmptyString)
                   (List.filter is_move (String.list_ascii_of_string x)))
    else None.
Proof. apply (read_moves_acc x []). Qed.

(** *** The directions of a returned path *)

Lemma heappop_member (q : list Item) (m : Item) (q' : list Item) :
  heappop q = Ok (m, q') -> m ∈ q /\ q' ⊆ q.
Proof.
  unfold heappop. destruct q as [|it rest]; [discriminate|].
  destruct (heap_min it 0 1 rest) as [k|e]; [|discriminate]. cbn [bind].
  destruct ((it :: rest) !! k) as [m'|] eqn:Hk; [|discriminate].
  intros [= <- <-]. split; [eapply list_elem_of_lookup_2, Hk|].
  apply sublist_subseteq, sublist_delete.
Qed.

Lemma add_successors_dirs (G : Board) (g0 curr_idx : Z)
  (succs : list (string * Board)) :
  Forall (fun p => In (fst p) valid_moves) succs ->
  forall st st',
    dirs_ok st -> add_successors G g0 curr_idx succs st = Ok st' -> dirs_ok st'.
Proof.
  induction 1 as [|[d b] succs Hd Hrest IH]; intros st st' Hok Hadd.
  - injection Hadd as <-. exact Hok.
  - cbn [add_successors] in Hadd.
    destruct (bool_decide (_board b ∈ visited st)); [eapply IH; eassumption|].
    unfold item in Hadd.
    destruct (sum_m_dists b G) as [hv|e]; [|discriminate]. cbn [bind] in Hadd.
    eapply IH; [|exact Hadd]. destruct Hok as [Hopen Htbl].
    split; cbn [open item_by_idx].
    + unfold heappush. apply Forall_app. split; [exact Hopen|].
      constructor; [exact Hd | constructor].
    + apply map_Forall_insert_2; [exact Hd | exact Htbl].
Qed.

Lemma traceback_dirs (tbl : gmap Z Item) (s : Item) :
  map_Forall (fun _ it => dir_ok (direction it)) tbl ->
  forall (fuel : nat) (last : Item) (path : list Item),
    dir_ok (direction last) ->
    traceback fuel tbl s last = Some (Ok path) ->
    Forall (fun it => dir_ok (direction it)) path.
Proof.
  intros Htbl. induction fuel as [|fuel IH]; intros last path Hlast Htb.
  - simpl in Htb. destruct (Item_eq last s); [|discriminate].
    injection Htb as <-. constructor; [exact Hlast | constructor].
  - cbn [traceback] in Htb. destruct (Item_eq last s).
    { injection Htb as <-. constructor; [exact Hlast | constructor]. }
    destruct (tbl !! parent_index last) as [p|] eqn:Hp; [|discriminate].
    destruct (traceback fuel tbl s p) as [[path'|e]|] eqn:Hrec; try discriminate.
    injection Htb as <-. constructor; [exact Hlast|].
    eapply IH; [|exact Hrec]. exact (Htbl _ _ Hp).
Qed.

Lemma solve_loop_dirs (G : Board) (s : Item) :
  forall (fuel : nat) (st : solve_state) (r : solve_result),
    dirs_ok st ->
    solve_loop fuel G s st = Some (Ok r) ->
    forall path, returned_path (Some (Ok r)) = Some path ->
                 Forall (fun mv => dir_ok (move_direction mv)) path.
Proof.
  induction fuel as [|fuel IH]; intros st r Hok Hr path Hpath.
  - simpl in Hr. destruct (open st); [|discriminate].
    injection Hr as <-. discriminate Hpath.
  - cbn [solve_loop] in Hr. destruct (open st) eqn:Hopen.
    { injection Hr as <-. discriminate Hpath. }
    unfold solve_iter in Hr. rewrite Hopen in Hr.
    destruct (heappop (i :: l)) as [[curr open']|e] eqn:Hpop; [|discriminate].
    apply heappop_member in Hpop as [Hcurr Hsub]. rewrite <- Hopen in Hcurr, Hsub.
    destruct Hok as [Hq Htbl].
    assert (Hcurr_ok : dir_ok (direction curr))
      by (exact (proj1 (Forall_forall _ _) Hq curr Hcurr)).
    destruct (idx_by_item st !! item_key curr) as [ci|]; [|discriminate].
    destruct (Board_eq (board curr) G).
    + destruct (traceback fuel (item_by_idx st) s curr) as [[items|e]|] eqn:Htb;
        try discriminate.
      apply (traceback_dirs _ _ Htbl) in Htb; [|exact Hcurr_ok].
      assert (Hmoves : Forall (fun mv => dir_ok (move_direction mv))
                         (rev (map (fun it => mkMove (direction it) (board it)) items))).
      { apply Forall_rev, Forall_map. exact Htb. }
      destruct (max_queue_length st); injection Hr as <-;
        injection Hpath as <-; exact Hmoves.
    + destruct (successors (board curr)) as [succs|e] eqn:Hsuccs; [|discriminate].
      destruct (add_successors G (g curr + 1) ci succs _) as [st2|e] eqn:Hadd;
        [|discriminate].
      eapply IH; [|exact Hr | exact Hpath].
      apply add_successors_dirs in Hadd.
      * exact Hadd.
      * apply successors_from_sublist in Hsuccs.
        apply Forall_forall. intros [d b] Hin. cbn [fst].
        apply list_elem_of_In. eapply sublist_subseteq; [exact Hsuccs|].
        apply list_elem_of_fmap. exists (d, b). split; [reflexivity | exact Hin].
      * split; cbn [open item_by_idx]; [|exact Htbl].
        apply Forall_forall. intros it Hit.
        exact (proj1 (Forall_forall _ _) Hq it (Hsub it Hit)).
Qed.

Lemma solve_dirs (fuel : nat) (self : Board) (ignore_warning give_max : bool)
  (path : list Move) :
  returned_path (solve fuel self ignore_warning give_max) = Some path ->
  Forall (fun mv => dir_ok (move_direction mv)) path.
Proof.
  unfold solve.
  destruct (solvable self) as [[|]|e]; try discriminate.
  destruct (negb ignore_warning && ((width self >? 3) || (height self >? 3)));
    [discriminate|].
  unfold solve_init, item.
  destruct (sum_m_dists self (goal self)) as [hv|e]; [|discriminate].
  cbn [bind]. intros Hpath.
  destruct (solve_loop fuel _ _ _) as [[r|e]|] eqn:Hr; try discriminate.
  eapply solve_loop_dirs; [|exact Hr | exact Hpath].
  split; cbn [open item_by_idx].
  - unfold heappush. simpl. constructor; [exact I | constructor].
  - apply map_Forall_insert_2; [exact I | apply map_Forall_empty].
Qed.

(** *** The move summary typed back *)

Lemma direction_str_from (num : option Z) (moves : list Move) :
  forall i, 1 <= i ->
    direction_str num i moves
    = dir_concat (match num with
                  | Some n => firstn (Z.to_nat (n - i + 1)) moves
                  | None => moves
                  end).
Proof.
  induction moves as [|mv moves IH]; intros i Hi.
  - destruct num; [rewrite firstn_nil|]; reflexivity.
  - cbn [direction_str].
    replace (i =? 0) with false by (symmetry; apply Z.eqb_neq; lia).
    rewrite IH by lia. destruct num as [n|]; [|reflexivity].
    rewrite Z.gtb_ltb. destruct (n <? i) eqn:E; bool_lia.
    + replace (Z.to_nat (n - i + 1)) with 0%nat by lia. reflexivity.
    + replace (Z.to_nat (n - i + 1)) with (Datatypes.S (Z.to_nat (n - (i + 1) + 1)))
        by lia.
      reflexivity.
Qed.

Lemma direction_str_shown (num : option Z) (first : Move) (moves : list Move) :
  direction_str num 0 (first :: moves) = dir_concat (shown num moves).
Proof.
  cbn [direction_str]. rewrite Z.eqb_refl, direction_str_from by lia.
  destruct num as [n|]; [|reflexivity]. unfold shown.
  rewrite Z.gtb_ltb. destruct (n <? 0) eqn:E; bool_lia.
  - replace (Z.to_nat n) with 0%nat by lia. reflexivity.
  - replace (n - (0 + 1) + 1) with n by lia. reflexivity.
Qed.

Lemma legal_path_firstn (k : nat) :
  forall b moves, legal_path b moves -> legal_path b (firstn k moves).
Proof.
  induction k as [|k IH]; intros b moves Hl; [exact I|].
  destruct moves as [|mv moves]; [exact I|].
  destruct Hl as [Hstep Hl]. split; [exact Hstep | apply IH, Hl].
Qed.

Lemma end_board_last (moves : list Move) :
  forall d b d' b',
    last (mkMove d b :: moves) = Some (mkMove d' b') -> end_board b moves = b'.
Proof.
  induction moves as [|[d1 b1] moves IH]; intros d b d' b' Hlast.
  - injection Hlast as _ <-. reflexivity.
  - cbn [end_board move_board]. apply (IH d1 b1 d' b'). exact Hlast.
Qed.

(** The directions of a legal path, read back and carried out, lead along
    the path. *)
Lemma read_carry (moves : list Move) :
  forall b acc,
    legal_path b moves ->
    Forall (fun mv => dir_ok (move_direction mv)) moves ->
    exists ms,
      read_moves (dir_concat moves) acc = Some (acc ++ ms)
      /\ carry_out b ms = Ok (end_board b moves).
Proof.
  induction moves as [|[d0 b1] moves IH]; intros b acc Hl Hd.
  - exists []. rewrite app_nil_r. split; reflexivity.
  - destruct Hl as [(d & Hdir & Hslide) Hl]. cbn [move_direction move_board] in *.
    subst d0. apply Forall_cons in Hd as [Hd Hrest]. cbn [dir_ok move_direction] in Hd.
    destruct Hslide as (new & self' & Hmove). apply move_tile_mode in Hmove.
    destruct (IH b1 (acc ++ [d]) Hl Hrest) as (ms & Hread & Hcarry).
    exists (d :: ms). split.
    + cbn [dir_concat fold_right move_direction direction_text].
      fold (dir_concat moves). rewrite <- app_assoc in Hread. cbn [app] in Hread.
      unfold valid_moves in Hd. cbn [In] in Hd.
      destruct Hd as [<- | [<- | [<- | [<- | []]]]]; exact Hread.
    + cbn [carry_out end_board move_board]. rewrite Hmove. cbn [bind]. exact Hcarry.
Qed.

(** X17. The move summary that the "solve" command builds from the path
    of [solve], read back as an input line and carried out from the start
    board, leads to the boards of the path: with no number given to the
    goal board, with a number [n] to the board after the first [n] moves. *)
Theorem X17_move_summary (self : Board) (ignore_warning give_max : bool)
  (ds : list string) (num : option Z) :
  wf_board self ->
  slides self ds (goal self) ->
  ignore_warning = true \/ width self <= 3 ->
  exists fuel0,
    forall fuel, (fuel0 <= fuel)%nat ->
    exists path moves,
      returned_path (solve fuel self ignore_warning give_max) = Some path
      /\ read_moves (direction_str num 0 path) [] = Some moves
      /\ carry_out self moves = Ok (end_board self (shown num (tail path)))
      /\ end_board self (tail path) = goal self.
Proof.
  intros Hwf Hs Hign.
  destruct (solve_returns self ignore_warning give_max ds Hwf Hs Hign) as [fuel0 Hret].
  exists fuel0. intros fuel Hfuel.
  destruct (Hret fuel Hfuel) as (r & Hr & rest & d & Hshape & Hlegal & Hlast).
  assert (Hpath : returned_path (solve fuel self ignore_warning give_max)
                  = Some (mkMove None self :: rest)).
  { rewrite Hr. destruct Hshape as [-> | [m ->]]; reflexivity. }
  pose proof (solve_dirs _ _ _ _ _ Hpath) as Hdirs.
  apply Forall_cons in Hdirs as [_ Hdirs].
  assert (Hshown : legal_path self (shown num rest)
                   /\ Forall (fun mv => dir_ok (move_direction mv)) (shown num rest)).
  { destruct num as [n|]; cbn [shown]; [|split; assumption].
    split; [apply legal_path_firstn, Hlegal|].
    apply Forall_forall. intros mv Hmv.
    apply (proj1 (Forall_forall _ _) Hdirs).
    eapply sublist_subseteq; [apply sublist_take | exact Hmv]. }
  destruct Hshown as [Hl Hd].
  destruct (read_carry _ self [] Hl Hd) as (ms & Hread & Hcarry).
  exists (mkMove None self :: rest), ms.
  split; [exact Hpath|]. rewrite direction_str_shown.
  split; [exact Hread|]. split; [exact Hcarry|].
  cbn [tail]. eapply end_board_last, Hlast.
Qed.

Lemma X17_move_summary_witness :
  exists fuel0,
    forall fuel, (fuel0 <= fuel)%nat ->
    exists path moves,
      returned_path (solve fuel board_0 false false) = Some path
      /\ read_moves (direction_str (Some 1) 0 path) [] = Some moves
      /\ carry_out board_0 moves = Ok (end_board board_0 (shown (Some 1) (tail path)))
      /\ end_board board_0 (tail path) = goal board_0.
Proof.
  apply (X17_move_summary board_0 false false [RIGHT; RIGHT] (Some 1)).
  - apply wf_board_check; vm_compute; reflexivity.
  - apply apply_moves_slides; vm_compute; reflexivity.
  - right. unfold width. simpl. lia.
Defined.

(** ** Random boards *)

Lemma shuffled_wf (N : Z) (l : list Z) :
  1 <= N -> Permutation l (_board (goal (mkBoard N []))) -> wf_board (mkBoard N l).
Proof.
  intros HN Hperm.
  assert (Hwf0 : wf_board (mkBoard N (py_range 0 (N ^ 2)))).
  { split; [exact HN|]. reflexivity. }
  pose proof (goal_wf _ Hwf0) as [_ Hg].
  split; [exact HN|].
  etransitivity; [exact Hperm|]. exact Hg.
Qed.

Lemma wf_solvable_ok (b : Board) : wf_board b -> exists v, solvable b = Ok v.
Proof.
  intros Hwf. destruct (wf_empty_position b Hwf) as [n Hn].
  eexists. apply (solvable_wf b n Hwf Hn).
Qed.

Lemma randomize_spec (N : Z) (shuffles : list (list Z -> list Z)) :
  1 <= N ->
  Forall (fun shuffle => forall l, Permutation (shuffle l) l) shuffles ->
  forall cells,
    match cells with Some l => wf_board (mkBoard N l) | None => True end ->
    match randomize N cells shuffles with
    | Some (Ok b) => wf_board b /\ width b = N /\ solvable b = Ok true
    | Some (Raise _) => False
    | None =>
        Forall (fun shuffle =>
                  solvable (mkBoard N (shuffle (_board (goal (mkBoard N [])))))
                  = Ok false) shuffles
    end.
Proof.
  intros HN Hsh. induction Hsh as [|shuffle shuffles Hperm Hrest IH]; intros cells Hcells.
  - destruct cells as [l|]; cbn [randomize]; [|constructor].
    destruct (wf_solvable_ok _ Hcells) as [v Hv]. rewrite Hv.
    destruct v; [|constructor].
    split; [exact Hcells|]. split; [reflexivity | exact Hv].
  - assert (Hnext : wf_board (mkBoard N (shuffle (_board (goal (mkBoard N [])))))).
    { apply shuffled_wf; [exact HN | apply Hperm]. }
    specialize (IH (Some (shuffle (_board (goal (mkBoard N []))))) Hnext).
    assert (Hstep :
      match randomize N (Some (shuffle (_board (goal (mkBoard N []))))) shuffles with
      | Some (Ok b) => wf_board b /\ width b = N /\ solvable b = Ok true
      | Some (Raise _) => False
      | None =>
          Forall (fun shuffle0 =>
                    solvable (mkBoard N (shuffle0 (_board (goal (mkBoard N [])))))
                    = Ok false) (shuffle :: shuffles)
      end).
    { destruct (randomize N (Some (shuffle (_board (goal (mkBoard N []))))) shuffles)
        as [[b|e]|] eqn:Hrec; [exact IH | exact IH |].
      constructor; [|exact IH].
      destruct (wf_solvable_ok _ Hnext) as [v Hv].
      destruct shuffles as [|sh' shuffles']; cbn [randomize] in Hrec;
        rewrite Hv in Hrec; destruct v; first [discriminate Hrec | exact Hv]. }
    destruct cells as [l|]; cbn [randomize]; [|exact Hstep].
    destruct (wf_solvable_ok _ Hcells) as [v Hv]. rewrite Hv.
    destruct v; [|exact Hstep].
    split; [exact Hcells|]. split; [reflexivity | exact Hv].
Qed.

(** X18. A board made without cells is well-formed and solvable: whatever
    rearrangements [shuffle] makes, [Board(None, N)] with [N >= 1] raises
    nothing and, when the loop of [randomize] ends, holds the first
    rearrangement of the goal cells that is solvable; the loop only goes
    on while the rearrangements are not solvable.  [randomize] leaves a
    solvable well-formed board as it is. *)
Theorem X18_random_board (N : Z) (shuffles : list (list Z -> list Z)) :
  1 <= N ->
  Forall (fun shuffle => forall l, Permutation (shuffle l) l) shuffles ->
  match Board_init None N shuffles with
  | Some (Ok b) =>
      wf_board b /\ width b = N /\ solvable b = Ok true
      /\ exists k shuffle,
           shuffles !! k = Some shuffle
           /\ _board b = shuffle (_board (goal (mkBoard N [])))
           /\ Forall (fun shuffle0 =>
                        solvable (mkBoard N (shuffle0 (_board (goal (mkBoard N [])))))
                        = Ok false) (firstn k shuffles)
  | Some (Raise _) => False
  | None =>
      Forall (fun shuffle =>
                solvable (mkBoard N (shuffle (_board (goal (mkBoard N [])))))
                = Ok false) shuffles
  end
  /\ forall l, wf_board (mkBoard N l) -> solvable (mkBoard N l) = Ok true ->
               randomize N (Some l) shuffles = Some (Ok (mkBoard N l)).
Proof.
  intros HN Hsh. split.
  - pose proof (randomize_spec N shuffles HN Hsh None I) as Hspec.
    cbn [Board_init].
    destruct (randomize N None shuffles) as [[b|e]|] eqn:Hr; [|exact Hspec..].
    destruct Hspec as (H1 & H2 & H3).
    split; [exact H1|]. split; [exact H2|]. split; [exact H3|].
    clear H1 H2 H3.
    destruct shuffles as [|sh0 shuffles]; [discriminate Hr|].
    cbn [randomize] in Hr.
    revert sh0 Hsh Hr. induction shuffles as [|sh1 shuffles IH]; intros sh0 Hsh Hr.
    + cbn [randomize] in Hr.
      destruct (solvable (mkBoard N (sh0 _))) as [[|]|e] eqn:Hs; try discriminate.
      injection Hr as <-.
      exists 0%nat, sh0. split; [reflexivity|]. split; [reflexivity | constructor].
    + cbn [randomize] in Hr.
      destruct (solvable (mkBoard N (sh0 _))) as [[|]|e] eqn:Hs; try discriminate.
      * injection Hr as <-.
        exists 0%nat, sh0. split; [reflexivity|]. split; [reflexivity | constructor].
      * apply Forall_cons in Hsh as [_ Hsh].
        destruct (IH sh1 Hsh Hr) as (k & sh & Hk & Hb & Hbefore).
        exists (Datatypes.S k), sh. split; [exact Hk|]. split; [exact Hb|].
        cbn [firstn]. constructor; [exact Hs | exact Hbefore].
  - intros l Hwf Hs. destruct shuffles; cbn [randomize]; rewrite Hs; reflexivity.
Qed.

Lemma X18_random_board_witness :
  match Board_init None 2 [fun l => rev l; fun l => l] with
  | Some (Ok b) =>
      wf_board b /\ width b = 2 /\ solvable b = Ok true
      /\ exists k shuffle,
           [fun l : list Z => rev l; fun l => l] !! k = Some shuffle
           /\ _board b = shuffle (_board (goal (mkBoard 2 [])))
           /\ Forall (fun shuffle0 =>
                        solvable (mkBoard 2 (shuffle0 (_board (goal (mkBoard 2 [])))))
                        = Ok false) (firstn k [fun l : list Z => rev l; fun l => l])
  | Some (Raise _) => False
  | None =>
      Forall (fun shuffle =>
                solvable (mkBoard 2 (shuffle (_board (goal (mkBoard 2 [])))))
                = Ok false) [fun l : list Z => rev l; fun l => l]
  end
  /\ forall l, wf_board (mkBoard 2 l) -> solvable (mkBoard 2 l) = Ok true ->
               randomize 2 (Some l) [fun l => rev l; fun l => l]
               = Some (Ok (mkBoard 2 l)).
Proof.
  apply (X18_random_board 2 [fun l => rev l; fun l => l]); [lia|].
  constructor; [intros l; symmetry; apply Permutation_rev|].
  constructor; [intros l; reflexivity | constructor].
Defined.

(** ** The order of boards *)

Lemma tuple_lt_total (a : list Z) :
  forall b, a <> b -> tuple_lt a b = true \/ tuple_lt b a = true.
Proof.
  induction a as [|u a IH]; intros [|v b] Hne; simpl.
  - congruence.
  - left. reflexivity.
  - right. reflexivity.
  - rewrite (Z.eqb_sym v u). destruct (u =? v) eqn:E; bool_lia.
    + apply IH. congruence.
    + destruct (u <? v) eqn:E1, (v <? u) eqn:E2; bool_lia; try tauto. lia.
Qed.

Lemma tuple_lt_trans (a : list Z) :
  forall b c, tuple_lt a b = true -> tuple_lt b c = true -> tuple_lt a c = true.
Proof.
  induction a as [|u a IH]; intros [|v b] [|w c]; simpl; try congruence.
  destruct (u =? v) eqn:E1, (v =? w) eqn:E2, (u =? w) eqn:E3; bool_lia;
    intros H1 H2; bool_lia;
    first [ exact (IH _ _ H1 H2) | exfalso; lia | apply Z.ltb_lt; lia
          | subst; assumption ].
Qed.

(** X19. Boards are ordered by their cells: of [a < b], [a == b] and
    [b < a] exactly one holds, and [<] is transitive. *)
Theorem X19_board_order (a b c : Board) :
  (Board_lt a b = true \/ Board_eq a b = true \/ Board_lt b a = true)
  /\ (Board_lt a b && Board_eq a b = false)
  /\ (Board_lt a b && Board_lt b a = false)
  /\ (Board_eq a b && Board_lt b a = false)
  /\ (implb (Board_lt a b && Board_lt b c) (Board_lt a c) = true).
Proof.
  split; [|split; [|split; [|split]]].
  - destruct (decide (_board a = _board b)) as [E | E].
    + right. left. apply bool_decide_eq_true. exact E.
    + destruct (tuple_lt_total _ _ E); tauto.
  - destruct (Board_lt a b) eqn:E; [|reflexivity].
    apply (Board_lt_neq a b E).
  - destruct (Board_lt a b) eqn:E; [|reflexivity].
    apply tuple_lt_asym, E.
  - destruct (Board_lt b a) eqn:E; [|apply andb_false_r].
    rewrite andb_true_r, (Board_eq_sym a b). apply (Board_lt_neq b a E).
  - destruct (Board_lt a b) eqn:E1; [|reflexivity].
    destruct (Board_lt b c) eqn:E2; [|reflexivity].
    unfold Board_lt in *. rewrite (tuple_lt_trans _ _ _ E1 E2). reflexivity.
Qed.

(** ** What [solve] never raises *)

Lemma traceback_mono (tbl : gmap Z Item) (s : Item) :
  forall (fuel fuel' : nat) (last : Item) (r : result (list Item)),
    traceback fuel tbl s last = Some r -> (fuel <= fuel')%nat ->
    traceback fuel' tbl s last = Some r.
Proof.
  induction fuel as [|fuel IH]; intros fuel' last r Hr Hle.
  - simpl in Hr. destruct (Item_eq last s) eqn:E; [|discriminate].
    destruct fuel'; simpl; rewrite E; exact Hr.
  - destruct fuel' as [|fuel']; [lia|]. cbn [traceback] in *.
    destruct (Item_eq last s); [exact Hr|].
    destruct (tbl !! parent_index last) as [p|]; [|exact Hr].
    destruct (traceback fuel tbl s p) as [r'|] eqn:Hrec; [|discriminate].
    rewrite (IH fuel' p r' Hrec) by lia. exact Hr.
Qed.

Lemma solve_iter_mono (G : Board) (s : Item) (st : solve_state)
  (fuel fuel' : nat) (r : result loop_outcome) :
  solve_iter fuel G s st = Some r -> (fuel <= fuel')%nat ->
  solve_iter fuel' G s st = Some r.
Proof.
  unfold solve_iter. intros Hr Hle.
  destruct (heappop (open st)) as [[curr open']|e]; [|exact Hr].
  destruct (idx_by_item st !! item_key curr) as [ci|]; [|exact Hr].
  destruct (Board_eq (board curr) G); [|exact Hr].
  destruct (traceback fuel (item_by_idx st) s curr) as [r'|] eqn:Htb; [|discriminate].
  rewrite (traceback_mono _ _ _ _ _ _ Htb Hle). exact Hr.
Qed.

Lemma solve_init_ok (self : Board) (h0 : Z) (mx : option Z) :
  wf_board self ->
  let s := mkItem (0 + h0) h0 0 self None (-1) in
  let st0 := mkState (heappush [] s) (<[0 := s]> ∅) (<[item_key s := 0]> ∅) ∅ 1 mx in
  st_ok self h0 st0 /\ links_ok self h0 st0
  /\ start_or_visited self h0 st0 /\ closed_ok self st0 ∅.
Proof.
  intros Hwf s st0. split; [|split; [|split]].
  - unfold st_ok, st0; simpl.
    split; [|split; [|split; [|split; [|split; [|split]]]]].
    + intros i. rewrite lookup_insert_is_Some, lookup_empty. split.
      * intros [<- | [_ [? ?]]]; [lia | discriminate].
      * intros Hi. left. lia.
    + intros i it Hit. apply lookup_insert_Some in Hit as [[<- <-] | [_ Hit]].
      * split; [reflexivity | left; split; reflexivity].
      * rewrite lookup_empty in Hit. discriminate.
    + intros k i Hk. apply lookup_insert_Some in Hk as [[_ <-] | [_ Hk]]; [lia|].
      rewrite lookup_empty in Hk. discriminate.
    + intros c Hc. apply not_elem_of_empty in Hc. destruct Hc.
    + reflexivity.
    + intros it Hin. apply list_elem_of_singleton in Hin as ->.
      split; [exact Hwf|]. split; [reflexivity|].
      apply lookup_insert_is_Some'. left. reflexivity.
    + apply NoDup_singleton.
  - unfold links_ok, st0; simpl. split; [|split].
    + intros i it Hit. apply lookup_insert_Some in Hit as [[<- <-] | [_ Hit]].
      * left. split; reflexivity.
      * rewrite lookup_empty in Hit. discriminate.
    + intros k i Hk. apply lookup_insert_Some in Hk as [[<- <-] | [_ Hk]].
      * exists s. split; [apply lookup_insert_eq | reflexivity].
      * rewrite lookup_empty in Hk. discriminate.
    + intros it Hin. apply list_elem_of_singleton in Hin as ->. left. reflexivity.
  - right. reflexivity.
  - unfold closed_ok, st0; simpl. split; [right; left|]. split.
    + intros c Hc. apply not_elem_of_empty in Hc. destruct Hc.
    + intros c Hc. apply not_elem_of_empty in Hc. destruct Hc.
Qed.

Lemma solve_loop_sound (self : Board) (h0 : Z) :
  wf_board self ->
  forall (fuel : nat) (st : solve_state) (C : gset (list Z)),
    st_ok self h0 st -> links_ok self h0 st ->
    start_or_visited self h0 st -> closed_ok self st C ->
    forall r, solve_loop fuel (goal self) (mkItem (0 + h0) h0 0 self None (-1)) st
              = Some r ->
      match r with
      | Raise _ => False
      | Ok r' =>
          good_result self r'
          \/ (r' = RetNone /\ forall ds, ~ slides self ds (goal self))
      end.
Proof.
  intros Hwf. induction fuel as [|fuel IH]; intros st C Hok Hlinks Hsv Hcl r Hr.
  - simpl in Hr. destruct (open st) eqn:Hopen; [|discriminate].
    injection Hr as <-. right. split; [reflexivity|]. intros ds Hreach.
    destruct Hcl as (Hstart & Hvis & Hclosed).
    assert (HsC : _board self ∈ C).
    { destruct Hstart as [? | Hq]; [assumption|]. rewrite Hopen in Hq. inversion Hq. }
    assert (HgC : _board (goal self) ∈ C).
    { apply (closed_all self st C (conj Hstart (conj Hvis Hclosed)) Hopen
               self ds (goal self) Hreach); [exact Hwf | reflexivity | exact HsC]. }
    destruct (Hclosed _ HgC) as [Hne _]. apply Hne. reflexivity.
  - cbn [solve_loop] in Hr. destruct (open st) as [|it0 q] eqn:Hopen.
    { injection Hr as <-. right. split; [reflexivity|]. intros ds Hreach.
      destruct Hcl as (Hstart & Hvis & Hclosed).
      assert (HsC : _board self ∈ C).
      { destruct Hstart as [? | Hq]; [assumption|]. rewrite Hopen in Hq. inversion Hq. }
      assert (HgC : _board (goal self) ∈ C).
      { apply (closed_all self st C (conj Hstart (conj Hvis Hclosed)) Hopen
                 self ds (goal self) Hreach); [exact Hwf | reflexivity | exact HsC]. }
      destruct (Hclosed _ HgC) as [Hne _]. apply Hne. reflexivity. }
    destruct (solve_iter fuel _ _ st) as [r1|] eqn:Hiter; [|discriminate].
    assert (Hne : open st <> []) by (rewrite Hopen; discriminate).
    apply (solve_iter_mono _ _ _ _ (Nat.max fuel (Z.to_nat (item_index st)))) in Hiter;
      [|lia].
    destruct (solve_iter_spec self Hwf h0 st C _ Hok Hlinks Hsv Hcl Hne
                (Nat.le_max_r fuel (Z.to_nat (item_index st))))
      as [(r' & Hr' & Hgood) | (st' & C' & Hr' & Hok' & Hlinks' & Hov' & Hcl' & _)];
      rewrite Hr' in Hiter; injection Hiter as <-.
    + injection Hr as <-. left. exact Hgood.
    + apply (IH st' C' Hok' Hlinks' (or_introl Hov') Hcl' r Hr).
Qed.

Lemma solve_sound (self : Board) (ignore_warning give_max : bool) (fuel : nat)
  (r : result solve_result) :
  wf_board self ->
  solve fuel self ignore_warning give_max = Some r ->
  match r with
  | Raise e =>
      e = AssertionError
      /\ (solvable self = Ok false \/ (ignore_warning = false /\ 3 < width self))
  | Ok r' =>
      good_result self r'
      \/ (r' = RetNone /\ forall ds, ~ slides self ds (goal self))
  end.
Proof.
  intros Hwf. unfold solve.
  destruct (wf_solvable_ok self Hwf) as [v Hv]. rewrite Hv.
  destruct v; [|intros [= <-]; split; [reflexivity | left; reflexivity]].
  destruct (negb ignore_warning && ((width self >? 3) || (height self >? 3))) eqn:Hg.
  { intros [= <-]. split; [reflexivity|]. right.
    apply andb_true_iff in Hg as [Hi Hw]. apply negb_true_iff in Hi.
    split; [exact Hi|]. unfold height in Hw. fold (width self) in Hw.
    rewrite orb_diag, Z.gtb_ltb in Hw. apply Z.ltb_lt, Hw. }
  unfold solve_init.
  destruct (item_wf (goal self) 0 None self (-1) Hwf (goal_wf self Hwf) eq_refl)
    as [h0 Hitem].
  rewrite Hitem. cbn [bind]. intros Hr.
  destruct (solve_init_ok self h0
              (if give_max
               then Some (Z.of_nat (length (heappush [] (mkItem (0 + h0) h0 0 self None (-1)))))
               else None) Hwf) as (Hok & Hlinks & Hsv & Hcl).
  pose proof (solve_loop_sound self h0 Hwf fuel _ ∅ Hok Hlinks Hsv Hcl r Hr) as Hs.
  destruct r as [r'|e]; [exact Hs | destruct Hs].
Qed.

(** X20. On a well-formed board [solve] raises nothing but the
    AssertionError of its two guards: the queue never has to compare a
    missing direction with a direction, and no dictionary lookup fails. *)
Theorem X20_solve_raises (self : Board) (ignore_warning give_max : bool)
  (fuel : nat) (e : exn) :
  wf_board self ->
  solve fuel self ignore_warning give_max = Some (Raise e) ->
  e = AssertionError
  /\ (solvable self = Ok false \/ (ignore_warning = false /\ 3 < width self)).
Proof. intros Hwf Hr. exact (solve_sound self _ _ fuel (Raise e) Hwf Hr). Qed.

Lemma X20_solve_raises_witness :
  AssertionError = AssertionError
  /\ (solvable (mkBoard 3 [2; 1; 3; 4; 5; 6; 7; 8; 0]) = Ok false
      \/ (false = false /\ 3 < width (mkBoard 3 [2; 1; 3; 4; 5; 6; 7; 8; 0]))).
Proof.
  apply (X20_solve_raises (mkBoard 3 [2; 1; 3; 4; 5; 6; 7; 8; 0]) false false 5).
  - apply wf_board_check; vm_compute; reflexivity.
  - vm_compute. reflexivity.
Defined.

(** X21. What [solve] returns on a well-formed board is sound: a list
    that comes back starts with the board itself under no direction,
    goes on by legal slides and ends on the goal board; [None] comes back
    only when no sequence of slides leads to the goal board. *)
Theorem X21_solve_sound (self : Board) (ignore_warning give_max : bool)
  (fuel : nat) (r : solve_result) :
  wf_board self ->
  solve fuel self ignore_warning give_max = Some (Ok r) ->
  match returned_path (Some (Ok r)) with
  | Some path =>
      head path = Some (mkMove None self)
      /\ legal_path self (tail path)
      /\ (exists d, last path = Some (mkMove d (goal self)))
      /\ end_board self (tail path) = goal self
  | None => r = RetNone /\ forall ds, ~ slides self ds (goal self)
  end.
Proof.
  intros Hwf Hr.
  destruct (solve_sound self _ _ fuel (Ok r) Hwf Hr)
    as [(rest & d & Hshape & Hlegal & Hlast) | [-> Hnone]].
  - assert (Hpath : returned_path (Some (Ok r)) = Some (mkMove None self :: rest)).
    { destruct Hshape as [-> | [m ->]]; reflexivity. }
    rewrite Hpath. split; [reflexivity|]. split; [exact Hlegal|].
    split; [exists d; exact Hlast|]. cbn [tail]. eapply end_board_last, Hlast.
  - split; [reflexivity | exact Hnone].
Qed.

Lemma X21_solve_sound_witness :
  match returned_path
          (Some (Ok (RetPath [mkMove None (mkBoard 2 [1; 2; 0; 3]);
                              mkMove (Some RIGHT) (mkBoard 2 [1; 2; 3; 0])]))) with
  | Some path =>
      head path = Some (mkMove None (mkBoard 2 [1; 2; 0; 3]))
      /\ legal_path (mkBoard 2 [1; 2; 0; 3]) (tail path)
      /\ (exists d, last path = Some (mkMove d (goal (mkBoard 2 [1; 2; 0; 3]))))
      /\ end_board (mkBoard 2 [1; 2; 0; 3]) (tail path) = goal (mkBoard 2 [1; 2; 0; 3])
  | None =>
      RetPath [mkMove None (mkBoard 2 [1; 2; 0; 3]);
               mkMove (Some RIGHT) (mkBoard 2 [1; 2; 3; 0])] = RetNone
      /\ forall ds, ~ slides (mkBoard 2 [1; 2; 0; 3]) ds (goal (mkBoard 2 [1; 2; 0; 3]))
  end.
Proof.
  apply (X21_solve_sound (mkBoard 2 [1; 2; 0; 3]) false false 5).
  - apply wf_board_check; vm_compute; reflexivity.
  - vm_compute. reflexivity.
Defined.
